(** * ChromeMCP: relay correlation protocol and debug session manager

    Two programs are embedded here, the relay and the browser extension.

    - [Relay] follows [src/mcp-server/index.js]: the module-level variables
      [chromeClient], [pendingRequests], [requestId], [requestQueue] and
      [isProcessingQueue], the functions [callTool] and [processQueue], and
      the WebSocket event handlers of [startWsServer] and [connectAsClient].
      JavaScript runs one macrotask at a time; every event handler is a
      function on the state, followed by the microtasks it queued.

    - [Agent] follows [src/extension/background.js]: the maps
      [debuggerAttached], [networkRequests], [consoleLogs], [animations] and
      [extensionErrorStore], the functions [attachDebugger],
      [detachDebugger], [sendCDPCommand], [enableCDPDomain],
      [captureExtensionErrors], [getExtensionConsole], the gate of
      [executeToolCall] and the [chrome.debugger] / [chrome.tabs]
      listeners.

    - [Link] follows the connection manager of the same file:
      [startMCPServer] with the handlers it installs, the keepalive,
      [stopMCPServer], [handleMCPMessage] and [processMessageQueue], and
      the tool calls that [handleMessage] makes for the sidebar.

    - [Popup] follows [openExtensionPopup], and [Doctor] follows
      [analyzeExtension] on top of [Agent]. *)

From stdpp Require Import gmap strings list fin_maps pretty.

Module Relay.

(** ** Data *)

(** A WebSocket object, compared by identity ([ws === chromeClient]). *)
Definition Sock := nat.

(** A JSON value carried opaquely (tool arguments, [msg.result]). *)
Definition Json := string.

Inductive ReadyState := CONNECTING | OPEN | CLOSING | CLOSED.

(** [startWsServer] probes the port: it either listens ([ServerRole]) or
    calls [connectAsClient] ([ClientRole]). *)
Inductive Role := ServerRole | ClientRole.

(** What a promise is resolved with: [msg.result] as the peer sent it, or an
    object [{ error: ... }] built by the relay. *)
Inductive Reply := PeerResult (result : Json) | ErrorObj (error : string).

(** An element of [requestQueue]: [{ name, args, resolve }].  [resolve] is
    the resolver of the promise made by [callTool], named by the rank of
    that promise among all promises [callTool] made. *)
Record Request := mkRequest { name : string; args : Json; resolve : nat }.

(** Frames written with [ws.send]. *)
Inductive Frame :=
| FRegistered
| FPong
| FToolCall (id : nat) (tool : string) (params : Json).

(** Frames read in the [message] handlers, after [JSON.parse]. *)
Inductive PeerMsg :=
| MRegister
| MPing
| MToolResult (id : nat) (result : Json)
| MOther
| MMalformed.

Inductive LogLine :=
| LExtensionConnected
| LExtensionRegistered
| LSendRegisteredFailed (e : string)
| LSendPongFailed (e : string)
| LMessageParseError
| LConnectionStale
| LExtensionDisconnected
| LWsError
| LClientMode
| LClientClosed
| LClientError
| LSentToolCall (tool : string) (id : nat)
| LToolTimedOut (tool : string)
| LSendError (e : string).

(** Everything the relay does that is visible outside, in order. *)
Inductive Output :=
| OSend (ws : Sock) (f : Frame)
| OPing (ws : Sock)
| OTerminate (ws : Sock)
| OResolve (caller : nat) (r : Reply)
| OLog (l : LogLine).

(** The closure [(r) => { clearTimeout(timer); res(r); }] stored in
    [pendingRequests]: it captures a timer handle and the resolver of the
    promise awaited by [processQueue]. *)
Record Waiter := mkWaiter { w_timer : nat; w_res : nat }.

(** An armed [setTimeout(..., 30000)] of [processQueue]; its callback
    captures the tool name. *)
Record Timer := mkTimer { t_delay : N; t_tool : string }.

(** Where the single activation of [processQueue] is suspended. *)
Inductive Loop :=
| LIdle
| LAwait (id : nat) (rq : Request)
| LResumed (rq : Request) (r : Reply)
| LDelay (ms : N).

(** Per connection: [ws.readyState], the closure variable [isAlive] and
    whether [pingInterval] is still set. *)
Record SockState := mkSock { ready : ReadyState; isAlive : bool; pinging : bool }.

Record State := mkState {
  chromeClient : option Sock;
  pendingRequests : gmap nat Waiter;
  requestId : nat;
  requestQueue : list Request;
  isProcessingQueue : bool;
  timers : gmap nat Timer;
  loop : Loop;
  socks : gmap Sock SockState;
  promises : nat;
  out : list Output
}.

Definition CALL_TIMEOUT : N := 30000.
Definition INTER_CALL_DELAY : N := 50.
Definition PING_PERIOD : N := 15000.

#[global] Instance ReadyState_eq_dec : EqDecision ReadyState.
Proof. solve_decision. Defined.
#[global] Instance Reply_eq_dec : EqDecision Reply.
Proof. solve_decision. Defined.
#[global] Instance Request_eq_dec : EqDecision Request.
Proof. solve_decision. Defined.
#[global] Instance Frame_eq_dec : EqDecision Frame.
Proof. solve_decision. Defined.
#[global] Instance Loop_eq_dec : EqDecision Loop.
Proof. solve_decision. Defined.

Definition init : State :=
  mkState None ∅ 0 [] false ∅ LIdle ∅ 0 [].

(** ** Field updates *)

Definition set_chromeClient (v : option Sock) (st : State) : State :=
  mkState v (pendingRequests st) (requestId st) (requestQueue st)
    (isProcessingQueue st) (timers st) (loop st) (socks st) (promises st) (out st).

Definition set_pendingRequests (v : gmap nat Waiter) (st : State) : State :=
  mkState (chromeClient st) v (requestId st) (requestQueue st)
    (isProcessingQueue st) (timers st) (loop st) (socks st) (promises st) (out st).

Definition set_requestId (v : nat) (st : State) : State :=
  mkState (chromeClient st) (pendingRequests st) v (requestQueue st)
    (isProcessingQueue st) (timers st) (loop st) (socks st) (promises st) (out st).

Definition set_requestQueue (v : list Request) (st : State) : State :=
  mkState (chromeClient st) (pendingRequests st) (requestId st) v
    (isProcessingQueue st) (timers st) (loop st) (socks st) (promises st) (out st).

Definition set_isProcessingQueue (v : bool) (st : State) : State :=
  mkState (chromeClient st) (pendingRequests st) (requestId st) (requestQueue st)
    v (timers st) (loop st) (socks st) (promises st) (out st).

Definition set_timers (v : gmap nat Timer) (st : State) : State :=
  mkState (chromeClient st) (pendingRequests st) (requestId st) (requestQueue st)
    (isProcessingQueue st) v (loop st) (socks st) (promises st) (out st).

Definition set_loop (v : Loop) (st : State) : State :=
  mkState (chromeClient st) (pendingRequests st) (requestId st) (requestQueue st)
    (isProcessingQueue st) (timers st) v (socks st) (promises st) (out st).

Definition set_socks (v : gmap Sock SockState) (st : State) : State :=
  mkState (chromeClient st) (pendingRequests st) (requestId st) (requestQueue st)
    (isProcessingQueue st) (timers st) (loop st) v (promises st) (out st).

Definition set_promises (v : nat) (st : State) : State :=
  mkState (chromeClient st) (pendingRequests st) (requestId st) (requestQueue st)
    (isProcessingQueue st) (timers st) (loop st) (socks st) v (out st).

Definition emit (o : Output) (st : State) : State :=
  mkState (chromeClient st) (pendingRequests st) (requestId st) (requestQueue st)
    (isProcessingQueue st) (timers st) (loop st) (socks st) (promises st)
    (out st ++ [o]).

Definition log (l : LogLine) : State → State := emit (OLog l).

Definition set_ready (ws : Sock) (r : ReadyState) (st : State) : State :=
  set_socks (alter (λ s, mkSock r (isAlive s) (pinging s)) ws (socks st)) st.

Definition set_isAlive (ws : Sock) (b : bool) (st : State) : State :=
  set_socks (alter (λ s, mkSock (ready s) b (pinging s)) ws (socks st)) st.

Definition clearInterval (ws : Sock) (st : State) : State :=
  set_socks (alter (λ s, mkSock (ready s) (isAlive s) false) ws (socks st)) st.

(** [ws.readyState === WebSocket.OPEN] *)
Definition is_open (st : State) (ws : Sock) : bool :=
  match socks st !! ws with
  | Some s => bool_decide (ready s = OPEN)
  | None => false
  end.

Section WithTransport.

(** The only part of the [ws] library the relay depends on that can fail
    synchronously: [ws.send(frame)] either returns or throws an error with
    the given message. *)
Variable send_throws : Sock → Frame → option string.

Variable role : Role.

(** ** Promises and timers *)

(** [res(r)], the resolver of the promise made in [processQueue] for
    correlation id [id].  Settling a promise a second time does nothing; the
    continuation of the [await] runs as a microtask ([LResumed]). *)
Definition res (id : nat) (r : Reply) (st : State) : State :=
  match loop st with
  | LAwait id' rq => if decide (id' = id) then set_loop (LResumed rq r) st else st
  | _ => st
  end.

Definition clearTimeout (t : nat) (st : State) : State :=
  set_timers (delete t (timers st)) st.

(** Calling the closure stored in [pendingRequests]. *)
Definition call_waiter (w : Waiter) (r : Reply) (st : State) : State :=
  res (w_res w) r (clearTimeout (w_timer w) st).

(** The callback of the 30 s timer of call [id]; a cleared timer never
    fires. *)
Definition timeout_fired (id : nat) (st : State) : State :=
  match timers st !! id with
  | None => st
  | Some t =>
      let st := set_timers (delete id (timers st)) st in
      let st := set_pendingRequests (delete id (pendingRequests st)) st in
      let st := log (LToolTimedOut (t_tool t)) st in
      res id (ErrorObj "Timeout") st
  end.

(** ** [processQueue] *)

(** The [while (requestQueue.length > 0)] loop, run until its next [await].
    [q] is [requestQueue] at the loop head.  The promise awaited in the
    body never rejects (its executor catches what [send] throws), so the
    [catch] of the body is dead code and has no counterpart here. *)
Fixpoint drain (q : list Request) (st : State) : State :=
  match q with
  | [] => set_loop LIdle (set_isProcessingQueue false (set_requestQueue [] st))
  | rq :: q' =>
      let st := set_requestQueue q' st in
      match chromeClient st with
      | Some ws =>
          if is_open st ws then
            let id := S (requestId st) in
            let st := set_requestId id st in
            let st := set_timers (<[id := mkTimer CALL_TIMEOUT (name rq)]> (timers st)) st in
            let st := set_pendingRequests (<[id := mkWaiter id id]> (pendingRequests st)) st in
            match send_throws ws (FToolCall id (name rq) (args rq)) with
            | None =>
                let st := emit (OSend ws (FToolCall id (name rq) (args rq))) st in
                let st := log (LSentToolCall (name rq) id) st in
                set_loop (LAwait id rq) st
            | Some e =>
                let st := clearTimeout id st in
                let st := set_pendingRequests (delete id (pendingRequests st)) st in
                let st := log (LSendError e) st in
                set_loop (LResumed rq (ErrorObj ("Send failed: " +:+ e))) st
            end
          else drain q' (emit (OResolve (resolve rq) (ErrorObj "Not connected")) st)
      | None => drain q' (emit (OResolve (resolve rq) (ErrorObj "Not connected")) st)
      end
  end.

Definition processQueue (st : State) : State :=
  if isProcessingQueue st then st
  else match requestQueue st with
       | [] => st
       | _ :: _ => drain (requestQueue st) (set_isProcessingQueue true st)
       end.

(** [callTool(name, args)]: a new promise whose executor pushes the request
    and calls [processQueue]. *)
Definition callTool (call : string * Json) (st : State) : State :=
  let rq := mkRequest call.1 call.2 (promises st) in
  let st := set_promises (S (promises st)) st in
  let st := set_requestQueue (requestQueue st ++ [rq]) st in
  processQueue st.

(** The rest of the loop body after [await new Promise(...)] returned [r]:
    [resolve(result)], then the 50 ms pause when more requests wait. *)
Definition resume_after_result (rq : Request) (r : Reply) (st : State) : State :=
  let st := emit (OResolve (resolve rq) r) st in
  match requestQueue st with
  | [] => drain [] st
  | _ :: _ => set_loop (LDelay INTER_CALL_DELAY) st
  end.

(** The callback of the 50 ms timer: back to the loop head. *)
Definition delay_elapsed (st : State) : State :=
  match loop st with
  | LDelay _ => drain (requestQueue st) st
  | _ => st
  end.

Definition microtasks (st : State) : State :=
  match loop st with
  | LResumed rq r => resume_after_result rq r st
  | _ => st
  end.

(** ** WebSocket handlers *)

(** [try { ws.send(...) } catch (e) { log(...) }] *)
Definition try_send (ws : Sock) (f : Frame) (failed : string → LogLine)
    (st : State) : State :=
  match send_throws ws f with
  | None => emit (OSend ws f) st
  | Some e => log (failed e) st
  end.

(** The [tool_result] branch, the same in both roles. *)
Definition on_tool_result (id : nat) (result : Json) (st : State) : State :=
  match pendingRequests st !! id with
  | Some p =>
      let st := call_waiter p (PeerResult result) st in
      set_pendingRequests (delete id (pendingRequests st)) st
  | None => st
  end.

Definition on_message (ws : Sock) (m : PeerMsg) (st : State) : State :=
  match role with
  | ServerRole =>
      let st := set_isAlive ws true st in
      match m with
      | MMalformed => log LMessageParseError st
      | MRegister =>
          let st := set_chromeClient (Some ws) st in
          let st := log LExtensionRegistered st in
          try_send ws FRegistered LSendRegisteredFailed st
      | MPing => try_send ws FPong LSendPongFailed st
      | MToolResult id result => on_tool_result id result st
      | MOther => st
      end
  | ClientRole =>
      match m with
      | MMalformed => log LMessageParseError st
      | MPing => try_send ws FPong LSendPongFailed st
      | MToolResult id result => on_tool_result id result st
      | MRegister | MOther => st
      end
  end.

(** [pendingRequests.forEach((resolve, id) => resolve({ error: 'Connection
    closed' })); pendingRequests.clear();] *)
Definition fail_pending (st : State) : State :=
  let st :=
    map_fold (λ _ p acc, call_waiter p (ErrorObj "Connection closed") acc)
      st (pendingRequests st) in
  set_pendingRequests ∅ st.

Definition on_close (ws : Sock) (st : State) : State :=
  let st := match role with
            | ServerRole => clearInterval ws st
            | ClientRole => st
            end in
  if decide (chromeClient st = Some ws) then
    let st := set_chromeClient None st in
    let st := log (match role with
                   | ServerRole => LExtensionDisconnected
                   | ClientRole => LClientClosed
                   end) st in
    fail_pending st
  else st.

(** The [setInterval(..., 15000)] callback of a server-side connection. *)
Definition ping_tick (ws : Sock) (st : State) : State :=
  match socks st !! ws with
  | Some s =>
      if pinging s && bool_decide (ready s = OPEN) then
        if isAlive s then emit (OPing ws) (set_isAlive ws false st)
        else emit (OTerminate ws) (set_ready ws CLOSING (log LConnectionStale st))
      else st
  | None => st
  end.

(** ** Events *)

Inductive Event :=
| EvCallTools (calls : list (string * Json))
| EvConnection (ws : Sock)
| EvOpen (ws : Sock)
| EvMessage (ws : Sock) (m : PeerMsg)
| EvPong (ws : Sock)
| EvPingTick (ws : Sock)
| EvError (ws : Sock)
| EvClosing (ws : Sock)
| EvClose (ws : Sock)
| EvTimeout (id : nat)
| EvDelay.

Definition macrotask (e : Event) (st : State) : State :=
  match e with
  | EvCallTools calls => foldl (λ acc c, callTool c acc) st calls
  | EvConnection ws =>
      match role with
      | ServerRole =>
          log LExtensionConnected
            (set_socks (<[ws := mkSock OPEN true true]> (socks st)) st)
      | ClientRole => st
      end
  | EvOpen ws =>
      match role with
      | ClientRole =>
          set_chromeClient (Some ws)
            (log LClientMode
               (set_socks (<[ws := mkSock OPEN false false]> (socks st)) st))
      | ServerRole => st
      end
  | EvMessage ws m => on_message ws m st
  | EvPong ws =>
      match role with
      | ServerRole => set_isAlive ws true st
      | ClientRole => st
      end
  | EvPingTick ws =>
      match role with
      | ServerRole => ping_tick ws st
      | ClientRole => st
      end
  | EvError ws =>
      match role with
      | ServerRole => set_isAlive ws false (log LWsError st)
      | ClientRole => log LClientError st
      end
  | EvClosing ws => set_ready ws CLOSING st
  | EvClose ws => on_close ws (set_ready ws CLOSED st)
  | EvTimeout id => timeout_fired id st
  | EvDelay => delay_elapsed st
  end.

(** One turn of the event loop: the handler, then the microtasks. *)
Definition handle (e : Event) (st : State) : State :=
  microtasks (macrotask e st).

Definition run (tr : list Event) (st : State) : State :=
  foldl (λ acc e, handle e acc) st tr.


(** ** Observations on a run *)

(** The callers resolved so far, in order. *)
Definition resolved (o : list Output) : list nat :=
  omap (λ x, match x with OResolve c _ => Some c | _ => None end) o.

(** The correlation ids of the [tool_call] frames sent so far, in order. *)
Definition calls_sent (o : list Output) : list nat :=
  omap (λ x, match x with OSend _ (FToolCall id _ _) => Some id | _ => None end) o.

(** Turn [e], taken in state [st], sends the [tool_call] with correlation
    id [id]. *)
Definition sends (e : Event) (st : State) (id : nat) : Prop :=
  calls_sent (out (handle e st)) = calls_sent (out st) ++ [id].

(** [e] is the receipt of [tool_result] for [id], or the firing of the
    timeout of [id]. *)
Definition is_result_or_timeout (id : nat) (e : Event) : bool :=
  match e with
  | EvTimeout id' => bool_decide (id' = id)
  | EvMessage _ (MToolResult id' _) => bool_decide (id' = id)
  | _ => false
  end.

(** [e] is the [close] event of the socket that is [chromeClient]. *)
Definition is_registered_close (st : State) (e : Event) : bool :=
  match e with
  | EvClose ws => bool_decide (chromeClient st = Some ws)
  | _ => false
  end.

(** Some event of [tr], run from [st], is the result or the timeout of
    [id], or closes the registered peer. *)
Fixpoint settled_within (id : nat) (st : State) (tr : list Event) : bool :=
  match tr with
  | [] => false
  | e :: tr' =>
      is_result_or_timeout id e || is_registered_close st e
      || settled_within id (handle e st) tr'
  end.

(** The single-flight property in its strict wording: between two
    [tool_call] frames the first one's result was received or its timeout
    fired. *)
Definition strict_single_flight : Prop :=
  ∀ tr1 e1 tr2 e2 id1 id2,
    sends e1 (run tr1 init) id1 →
    sends e2 (run (tr1 ++ e1 :: tr2) init) id2 →
    existsb (is_result_or_timeout id1) tr2 = true.

(** The callers that still wait: the one whose call is in flight, then the
    queued ones. *)
Definition waiting (st : State) : list nat :=
  match loop st with
  | LAwait _ rq | LResumed rq _ => [resolve rq]
  | _ => []
  end ++ map resolve (requestQueue st).

(** A call is awaiting its result. *)
Definition in_flight (st : State) : Prop :=
  match loop st with LAwait _ _ => True | _ => False end.

#[global] Instance in_flight_dec st : Decision (in_flight st).
Proof. unfold in_flight. destruct (loop st); apply _. Defined.

(** Steps inside one macrotask that never settle the call in flight. *)
Definition no_settle (st st' : State) : Prop :=
  (in_flight st → loop st' = loop st ∧ calls_sent (out st') = calls_sent (out st)) ∧
  (¬ in_flight st →
     (calls_sent (out st') = calls_sent (out st) ∧ ¬ in_flight st') ∨
     (∃ id rq, calls_sent (out st') = calls_sent (out st) ++ [id] ∧
               loop st' = LAwait id rq)).

(** A step is fresh when the id counter does not decrease and a call newly
    awaited carries an id above the old counter. *)
Definition fresh_step (st st' : State) : Prop :=
  requestId st ≤ requestId st' ∧
  ∀ id rq, loop st' = LAwait id rq → loop st = LAwait id rq ∨ requestId st < id.

(** What the [close] handler does to the connection record. *)
Definition closed_sock (ws : Sock) (st : State) : State :=
  match role with
  | ServerRole => clearInterval ws (set_ready ws CLOSED st)
  | ClientRole => set_ready ws CLOSED st
  end.

Definition close_log : LogLine :=
  match role with
  | ServerRole => LExtensionDisconnected
  | ClientRole => LClientClosed
  end.

(** The module-level variables of the relay. *)
Definition relay_variables (st : State) :=
  (chromeClient st, pendingRequests st, requestId st, requestQueue st,
   isProcessingQueue st).

(** The state once the call in flight has been settled and the
    continuation of [processQueue] has run: [o] was written, nothing is
    pending, and the loop pauses if requests wait and ends otherwise. *)
Definition after_settle (st : State) (o : list Output) : State :=
  mkState (chromeClient st) ∅ (requestId st) (requestQueue st)
    (match requestQueue st with [] => false | _ :: _ => true end) ∅
    (match requestQueue st with [] => LIdle | _ :: _ => LDelay INTER_CALL_DELAY end)
    (socks st) (promises st) (out st ++ o).

(** The state once the head [rq] of the queue has been popped and sent to
    [ws] under the next correlation id. *)
Definition dispatched (ws : Sock) (rq : Request) (q : list Request)
    (st : State) : State :=
  let id := S (requestId st) in
  mkState (chromeClient st) (<[id := mkWaiter id id]> (pendingRequests st)) id q
    (isProcessingQueue st)
    (<[id := mkTimer CALL_TIMEOUT (name rq)]> (timers st))
    (LAwait id rq) (socks st) (promises st)
    (out st ++ [OSend ws (FToolCall id (name rq) (args rq));
                OLog (LSentToolCall (name rq) id)]).

(** How many times caller [c] has been resolved. *)
Definition resolutions (c : nat) (st : State) : nat :=
  count_occ Nat.eq_dec (resolved (out st)) c.

(** The timer that is armed in [st], if any: the 30 s timeout of the call in
    flight or the 50 ms pause. *)
Definition next_timer (st : State) : option Event :=
  match loop st with
  | LAwait id _ => Some (EvTimeout id)
  | LDelay _ => Some EvDelay
  | _ => None
  end.

(** Time passes and nothing else happens: the armed timers fire one after
    the other, at most [n] of them. *)
Fixpoint expire (n : nat) (st : State) : State :=
  match n with
  | 0 => st
  | S n' =>
      match next_timer st with
      | Some e => expire n' (handle e st)
      | None => st
      end
  end.

(** A bound on the number of timers that can still fire. *)
Definition timers_left (st : State) : nat :=
  match loop st with
  | LAwait _ _ => 2 * length (requestQueue st) + 2
  | LDelay _ => 2 * length (requestQueue st) + 1
  | _ => 0
  end.

Record Inv (st : State) : Prop := {
  inv_flag : isProcessingQueue st = bool_decide (loop st ≠ LIdle);
  inv_idle : loop st = LIdle → requestQueue st = [];
  inv_pending :
    match loop st with
    | LAwait id rq =>
        pendingRequests st = {[id := mkWaiter id id]} ∧
        timers st = {[id := mkTimer CALL_TIMEOUT (name rq)]} ∧
        id = requestId st
    | _ => pendingRequests st = ∅ ∧ timers st = ∅
    end;
  inv_delay : ∀ ms, loop st = LDelay ms → ms = INTER_CALL_DELAY;
  inv_callers : resolved (out st) ++ waiting st ≡ₚ seq 0 (promises st)
}.

(** No continuation is left in the microtask queue. *)
Definition quiescent (st : State) : Prop :=
  match loop st with LResumed _ _ => False | _ => True end.

(** The part of the state the invariant reads. *)
Definition view (st : State) :=
  (pendingRequests st, requestId st, requestQueue st, isProcessingQueue st,
   timers st, loop st, promises st, resolved (out st)).

(** The callers in the order in which they are served: those resolved so
    far, then the one in flight, then the queued ones. *)
Definition call_order (st : State) : list nat :=
  resolved (out st) ++ waiting st.

(** A step that resolves callers only from the front of those that wait. *)
Definition same_order (st st' : State) : Prop :=
  call_order st' = call_order st ∧ promises st' = promises st.

(** [chromeClient && chromeClient.readyState === WebSocket.OPEN], the test
    at the head of the loop of [processQueue]. *)
Definition peer_ready (st : State) : bool :=
  match chromeClient st with
  | Some ws => is_open st ws
  | None => false
  end.

(** The queue entries [callTool] makes for the calls [cs] when [n] promises
    exist already. *)
Fixpoint requests_from (n : nat) (cs : list (string * Json)) : list Request :=
  match cs with
  | [] => []
  | c :: cs' => mkRequest c.1 c.2 n :: requests_from (S n) cs'
  end.

(** The answers [{ error: 'Not connected' }] to the callers [n], [n+1], ...,
    one per call. *)
Definition not_connected (n k : nat) : list Output :=
  map (λ c, OResolve c (ErrorObj "Not connected")) (seq n k).

(** Event [e] is an event of connection [ws]. *)
Definition about (ws : Sock) (e : Event) : bool :=
  match e with
  | EvConnection w | EvOpen w | EvMessage w _ | EvPong w | EvPingTick w
  | EvError w | EvClosing w | EvClose w => bool_decide (w = ws)
  | EvCallTools _ | EvTimeout _ | EvDelay => false
  end.

(** The ids in [l] increase strictly from left to right. *)
Definition increasing (l : list nat) : Prop :=
  ∀ i j a b, i < j → l !! i = Some a → l !! j = Some b → a < b.

Ltac st_simpl :=
  cbn [chromeClient pendingRequests requestId requestQueue isProcessingQueue
       timers loop socks promises out
       set_chromeClient set_pendingRequests set_requestId set_requestQueue
       set_isProcessingQueue set_timers set_loop set_socks set_promises
       emit log set_ready set_isAlive clearInterval clearTimeout] in *.

Lemma resolved_snoc_resolve o c r : resolved (o ++ [OResolve c r]) = resolved o ++ [c].
Proof. unfold resolved. by rewrite omap_app. Qed.

Lemma resolved_snoc_other o x :
  (∀ c r, x ≠ OResolve c r) → resolved (o ++ [x]) = resolved o.
Proof.
  intros Hx. unfold resolved. rewrite omap_app. cbn.
  destruct x; try (by rewrite app_nil_r). by destruct (Hx caller r).
Qed.

Lemma Inv_init : Inv init.
Proof. by split. Qed.

Lemma Inv_view st st' : view st = view st' → Inv st → Inv st'.
Proof.
  unfold view. intros Hv [H1 H2 H3 H4 H5].
  injection Hv as E1 E2 E3 E4 E5 E6 E7 E8.
  split; unfold waiting in *; rewrite <- ?E1, <- ?E2, <- ?E3, <- ?E4, <- ?E5, <- ?E6, <- ?E7, <- ?E8; done.
Qed.

Lemma drain_Inv q st :
  isProcessingQueue st = true →
  pendingRequests st = ∅ → timers st = ∅ →
  resolved (out st) ++ map resolve q ≡ₚ seq 0 (promises st) →
  Inv (drain q st).
Proof.
  revert st. induction q as [|rq q IH]; intros st Hf Hp Ht Hc.
  - cbn [drain]. split; st_simpl; unfold waiting; st_simpl; try done.
  - cbn [drain]. st_simpl.
    assert (Hnc : Inv (drain q (emit (OResolve (resolve rq) (ErrorObj "Not connected"))
                               (set_requestQueue q st)))).
    { apply IH; st_simpl; try done.
      rewrite resolved_snoc_resolve, <- app_assoc. exact Hc. }
    destruct (chromeClient st) as [ws|]; [|exact Hnc].
    destruct (is_open _ ws); [|exact Hnc].
    destruct (send_throws ws _) as [e|].
    + split; st_simpl; unfold waiting; st_simpl; try done.
      * rewrite Hp, Ht. rewrite !delete_insert_eq. by rewrite !delete_empty.
      * rewrite !resolved_snoc_other by done. exact Hc.
    + split; st_simpl; unfold waiting; st_simpl; try done.
      * by rewrite Hp, Ht.
      * rewrite !resolved_snoc_other by done. exact Hc.
Qed.


Lemma processQueue_Inv st :
  loop st ≠ LIdle ∨ True →
  isProcessingQueue st = bool_decide (loop st ≠ LIdle) →
  (loop st = LIdle → pendingRequests st = ∅ ∧ timers st = ∅ ∧
     resolved (out st) ++ map resolve (requestQueue st) ≡ₚ seq 0 (promises st)) →
  (loop st ≠ LIdle → Inv st) →
  Inv (processQueue st).
Proof.
  intros _ Hf Hidle Hbusy. unfold processQueue.
  destruct (decide (loop st = LIdle)) as [Hl|Hl].
  - rewrite Hf, Hl. rewrite bool_decide_eq_false_2 by (intros H; by apply H).
    destruct (Hidle Hl) as (Hp & Ht & Hc).
    destruct (requestQueue st) as [|rq q] eqn:Hq.
    + split; rewrite ?Hl; unfold waiting; rewrite ?Hl, ?Hq; try done.
      rewrite Hf, Hl. by rewrite bool_decide_eq_false_2 by (intros H; by apply H).
    + apply drain_Inv; st_simpl; done.
  - rewrite Hf. rewrite bool_decide_eq_true_2 by done. by apply Hbusy.
Qed.

Lemma callTool_Inv c st : Inv st → Inv (callTool c st).
Proof.
  intros [H1 H2 H3 H4 H5]. unfold callTool.
  apply processQueue_Inv; st_simpl; [by right|done| |].
  - intros Hl. rewrite Hl in H3. destruct H3 as [Hp Ht]. split_and!; try done.
    unfold waiting in H5. rewrite Hl in H5. cbn [app] in H5.
    rewrite (H2 Hl) in *. cbn [map app] in *.
    rewrite seq_S. cbn. rewrite app_nil_r in H5. by rewrite H5.
  - intros Hl. split; st_simpl; try done.
    unfold waiting in *. st_simpl. rewrite map_app. cbn [map].
    rewrite seq_S. cbn. rewrite !app_assoc. by rewrite <- H5, <- !app_assoc.
Qed.

Lemma callTools_Inv cs st : Inv st → Inv (foldl (λ acc c, callTool c acc) st cs).
Proof.
  revert st. induction cs as [|c cs IH]; intros st H; cbn; [done|].
  apply IH. by apply callTool_Inv.
Qed.

Lemma microtasks_Inv st : Inv st → Inv (microtasks st) ∧ quiescent (microtasks st).
Proof.
  intros H. unfold microtasks, quiescent.
  destruct (loop st) as [|id rq|rq r|ms] eqn:Hl; rewrite ?Hl; try done.
  destruct H as [H1 H2 H3 H4 H5]. rewrite Hl in H3. destruct H3 as [Hp Ht].
  unfold waiting in H5. rewrite Hl in H5.
  unfold resume_after_result. st_simpl.
  destruct (requestQueue st) as [|rq' q] eqn:Hq.
  - cbn [drain]. split; [|done].
    split; st_simpl; unfold waiting; st_simpl; try done.
    rewrite resolved_snoc_resolve. by rewrite app_nil_r in *.
  - st_simpl. split; [|done].
    split; st_simpl; unfold waiting; st_simpl; rewrite ?Hq; try done.
    + rewrite H1, Hl. done.
    + by intros ms [= <-].
    + rewrite resolved_snoc_resolve, <- app_assoc. exact H5.
Qed.

Lemma res_await id rq r st :
  loop st = LAwait id rq → res id r st = set_loop (LResumed rq r) st.
Proof. intros Hl. unfold res. rewrite Hl. by rewrite decide_True. Qed.

Lemma res_Inv_settle id rq r st :
  loop st = LAwait id rq →
  isProcessingQueue st = true →
  pendingRequests st = ∅ → timers st = ∅ →
  resolved (out st) ++ waiting st ≡ₚ seq 0 (promises st) →
  Inv (res id r st) ∧ loop (res id r st) = LResumed rq r.
Proof.
  intros Hl Hf Hp Ht Hc. rewrite (res_await id rq) by done. split; [|done].
  unfold waiting in Hc. rewrite Hl in Hc.
  split; st_simpl; unfold waiting; st_simpl; done.
Qed.

Lemma on_tool_result_Inv id result st : Inv st → Inv (on_tool_result id result st).
Proof.
  intros H. unfold on_tool_result.
  destruct (pendingRequests st !! id) as [p|] eqn:Hp; [|done].
  destruct (loop st) as [|id' rq|rq r|ms] eqn:Hl;
    try (destruct H as [_ _ H3 _ _]; rewrite Hl in H3; destruct H3 as [H3 _];
         by rewrite H3, lookup_empty in Hp).
  pose proof H as [H1 H2 H3 H4 H5]. rewrite Hl in H3. destruct H3 as (Hpe & Hte & Hid).
  rewrite Hpe in Hp. apply lookup_singleton_Some in Hp as [-> <-].
  unfold call_waiter. cbn [w_timer w_res].
  edestruct (res_Inv_settle id rq (PeerResult result)
               (set_pendingRequests ∅ (clearTimeout id st))) as [Hi Hl'];
    st_simpl; try done.
  { rewrite H1, Hl. done. }
  { rewrite Hte. by rewrite delete_singleton_eq. }
  revert Hi. apply Inv_view. rewrite !(res_await id rq) by done.
  unfold view. st_simpl. by rewrite Hpe, delete_singleton_eq.
Qed.


Lemma timeout_fired_Inv id st : Inv st → Inv (timeout_fired id st).
Proof.
  intros H. unfold timeout_fired.
  destruct (timers st !! id) as [t|] eqn:Ht; [|done].
  destruct (loop st) as [|id' rq|rq r|ms] eqn:Hl;
    try (destruct H as [_ _ H3 _ _]; rewrite Hl in H3; destruct H3 as [_ H3];
         by rewrite H3, lookup_empty in Ht).
  pose proof H as [H1 H2 H3 H4 H5]. rewrite Hl in H3. destruct H3 as (Hpe & Hte & Hid).
  rewrite Hte in Ht. apply lookup_singleton_Some in Ht as [-> <-].
  apply res_Inv_settle with (rq := rq); st_simpl; try done.
  - rewrite H1, Hl. done.
  - by rewrite Hpe, delete_singleton_eq.
  - by rewrite Hte, delete_singleton_eq.
  - unfold waiting in *. st_simpl. by rewrite resolved_snoc_other.
Qed.

Lemma fail_pending_Inv st : Inv st → Inv (fail_pending st).
Proof.
  intros H. unfold fail_pending.
  destruct (loop st) as [|id rq|rq r|ms] eqn:Hl;
    try (pose proof H as [_ _ H3 _ _]; rewrite Hl in H3; destruct H3 as [H3 _];
         rewrite H3, map_fold_empty; revert H; apply Inv_view; unfold view;
         st_simpl; by rewrite H3).
  pose proof H as [H1 H2 H3 H4 H5]. rewrite Hl in H3. destruct H3 as (Hpe & Hte & Hid).
  rewrite Hpe, map_fold_singleton. unfold call_waiter. cbn [w_timer w_res].
  edestruct (res_Inv_settle id rq (ErrorObj "Connection closed")
               (set_pendingRequests ∅ (clearTimeout id st))) as [Hi Hl'];
    st_simpl; try done.
  { rewrite H1, Hl. done. }
  { by rewrite Hte, delete_singleton_eq. }
  revert Hi. apply Inv_view. rewrite !(res_await id rq) by done.
  unfold view. by st_simpl.
Qed.

Ltac benign H :=
  revert H; apply Inv_view; unfold view; st_simpl;
  rewrite ?resolved_snoc_other by done; done.

Lemma try_send_Inv ws f failed st : Inv st → Inv (try_send ws f failed st).
Proof. intros H. unfold try_send. destruct (send_throws ws f); benign H. Qed.

Lemma on_close_Inv ws st : Inv st → Inv (on_close ws st).
Proof.
  intros H. unfold on_close.
  assert (H' : Inv (match role with ServerRole => clearInterval ws st | ClientRole => st end)).
  { destruct role; [benign H|done]. }
  case_decide; [|done]. apply fail_pending_Inv. benign H'.
Qed.

Lemma on_message_Inv ws m st : Inv st → Inv (on_message ws m st).
Proof.
  intros H. unfold on_message.
  assert (H' : Inv (set_isAlive ws true st)) by benign H.
  destruct role, m; try done; try (by apply on_tool_result_Inv);
    try (by apply try_send_Inv); try benign H; try benign H'.
  apply try_send_Inv. benign H'.
Qed.

Lemma ping_tick_Inv ws st : Inv st → Inv (ping_tick ws st).
Proof.
  intros H. unfold ping_tick. destruct (socks st !! ws) as [s|]; [|done].
  destruct (pinging s && _); [|done]. destruct (isAlive s); benign H.
Qed.

Lemma delay_elapsed_Inv st : Inv st → Inv (delay_elapsed st).
Proof.
  intros H. unfold delay_elapsed.
  destruct (loop st) as [|id rq|rq r|ms] eqn:Hl; try done.
  pose proof H as [H1 H2 H3 H4 H5]. rewrite Hl in H3. destruct H3 as [Hp Ht].
  apply drain_Inv; try done.
  - rewrite H1, Hl. done.
  - unfold waiting in H5. by rewrite Hl in H5.
Qed.

Lemma macrotask_Inv e st : Inv st → Inv (macrotask e st).
Proof.
  intros H. destruct e; cbn [macrotask].
  - by apply callTools_Inv.
  - destruct role; [benign H|done].
  - destruct role; [done|benign H].
  - by apply on_message_Inv.
  - destruct role; [benign H|done].
  - destruct role; [by apply ping_tick_Inv|done].
  - destruct role; benign H.
  - benign H.
  - apply on_close_Inv. benign H.
  - by apply timeout_fired_Inv.
  - by apply delay_elapsed_Inv.
Qed.

Lemma handle_Inv e st : Inv st → Inv (handle e st) ∧ quiescent (handle e st).
Proof. intros H. apply microtasks_Inv. by apply macrotask_Inv. Qed.

Lemma run_app tr1 tr2 st : run (tr1 ++ tr2) st = run tr2 (run tr1 st).
Proof. unfold run. by rewrite foldl_app. Qed.

Lemma run_snoc tr e st : run (tr ++ [e]) st = handle e (run tr st).
Proof. unfold run. by rewrite foldl_snoc. Qed.

Lemma run_Inv tr st :
  Inv st → quiescent st → Inv (run tr st) ∧ quiescent (run tr st).
Proof.
  revert st. induction tr as [|e tr IH]; intros st H Hq; [done|].
  cbn. destruct (handle_Inv e st H) as [H' Hq']. by apply IH.
Qed.

Lemma reachable_Inv tr : Inv (run tr init) ∧ quiescent (run tr init).
Proof. apply run_Inv; [apply Inv_init|done]. Qed.


(** *** Which turns send a [tool_call] *)

Lemma calls_sent_snoc_call o ws id nm a :
  calls_sent (o ++ [OSend ws (FToolCall id nm a)]) = calls_sent o ++ [id].
Proof. unfold calls_sent. by rewrite omap_app. Qed.

Lemma calls_sent_snoc_other o x :
  (∀ ws id nm a, x ≠ OSend ws (FToolCall id nm a)) →
  calls_sent (o ++ [x]) = calls_sent o.
Proof.
  intros Hx. unfold calls_sent. rewrite omap_app. cbn.
  destruct x as [ws []| | | |]; try (by rewrite app_nil_r).
  by destruct (Hx ws id tool params).
Qed.

(** Facts of the form "this step sends no [tool_call] and leaves the loop
    where it was" are closed by unfolding. *)
Ltac quiet :=
  st_simpl; rewrite ?calls_sent_snoc_other by done; done.

Lemma drain_sent q st :
  (calls_sent (out (drain q st)) = calls_sent (out st) ∧ ¬ in_flight (drain q st)) ∨
  (∃ id rq, calls_sent (out (drain q st)) = calls_sent (out st) ++ [id] ∧
            loop (drain q st) = LAwait id rq).
Proof.
  revert st. induction q as [|rq q IH]; intros st; cbn [drain].
  - left. unfold in_flight. st_simpl. split; [done|tauto].
  - st_simpl.
    assert (Hnc : ∀ st1, calls_sent (out st1) = calls_sent (out st) →
      (calls_sent (out (drain q st1)) = calls_sent (out st) ∧ ¬ in_flight (drain q st1)) ∨
      (∃ id rq, calls_sent (out (drain q st1)) = calls_sent (out st) ++ [id] ∧
                loop (drain q st1) = LAwait id rq)).
    { intros st1 E. rewrite <- E. apply IH. }
    destruct (chromeClient st) as [ws|]; [|apply Hnc; quiet].
    destruct (is_open _ ws); [|apply Hnc; quiet].
    destruct (send_throws ws _) as [e|].
    + left. unfold in_flight. st_simpl. split; [quiet|tauto].
    + right. exists (S (requestId st)), rq. st_simpl. split; [|done].
      rewrite calls_sent_snoc_other by done. apply calls_sent_snoc_call.
Qed.

Lemma no_settle_trans st1 st2 st3 :
  no_settle st1 st2 → no_settle st2 st3 → no_settle st1 st3.
Proof.
  intros [A1 B1] [A2 B2]. split.
  - intros H. destruct (A1 H) as [E1 E2].
    assert (in_flight st2) as H2 by (unfold in_flight in *; by rewrite E1).
    destruct (A2 H2) as [E3 E4]. split; congruence.
  - intros H. destruct (B1 H) as [[E Hn]|(id & rq & E & Hl)].
    + destruct (B2 Hn) as [[E' Hn']|(id & rq & E' & Hl')].
      * left. split; congruence.
      * right. exists id, rq. split; congruence.
    + assert (in_flight st2) as H2 by (unfold in_flight; by rewrite Hl).
      destruct (A2 H2) as [E3 E4]. right. exists id, rq. split; congruence.
Qed.

Lemma processQueue_no_settle st :
  isProcessingQueue st = bool_decide (loop st ≠ LIdle) →
  no_settle st (processQueue st).
Proof.
  intros Hf. unfold processQueue. split.
  - intros H. rewrite Hf. rewrite bool_decide_eq_true_2; [done|].
    unfold in_flight in H. by destruct (loop st).
  - intros H. destruct (isProcessingQueue st); [by left|].
    destruct (requestQueue st) as [|rq q] eqn:Hq; [by left|].
    destruct (drain_sent (rq :: q) (set_isProcessingQueue true st)) as [D|D].
    + left. exact D.
    + right. exact D.
Qed.

Lemma callTool_no_settle c st : Inv st → no_settle st (callTool c st).
Proof.
  intros [H1 _ _ _ _]. unfold callTool.
  eapply no_settle_trans; [|apply processQueue_no_settle; by st_simpl].
  split; intros H; [|left]; unfold in_flight in *; by st_simpl.
Qed.

Lemma callTools_no_settle cs st :
  Inv st → no_settle st (foldl (λ acc c, callTool c acc) st cs).
Proof.
  revert st. induction cs as [|c cs IH]; intros st H; cbn [foldl].
  - split; intros Hf; [|left]; done.
  - eapply no_settle_trans; [by apply callTool_no_settle|].
    apply IH. by apply callTool_Inv.
Qed.


Lemma res_sent id r st : calls_sent (out (res id r st)) = calls_sent (out st).
Proof. unfold res. destruct (loop st); try done. by case_decide. Qed.

Lemma call_waiter_sent w r st :
  calls_sent (out (call_waiter w r st)) = calls_sent (out st).
Proof. unfold call_waiter. by rewrite res_sent. Qed.

Lemma on_tool_result_sent id result st :
  calls_sent (out (on_tool_result id result st)) = calls_sent (out st).
Proof.
  unfold on_tool_result. destruct (pendingRequests st !! id); [|done].
  st_simpl. by rewrite call_waiter_sent.
Qed.

Lemma timeout_fired_sent id st :
  calls_sent (out (timeout_fired id st)) = calls_sent (out st).
Proof.
  unfold timeout_fired. destruct (timers st !! id); [|done].
  rewrite res_sent. quiet.
Qed.

Lemma fail_pending_sent st :
  calls_sent (out (fail_pending st)) = calls_sent (out st).
Proof.
  unfold fail_pending. st_simpl.
  apply (map_fold_weak_ind
           (λ acc _, calls_sent (out acc) = calls_sent (out st))); [done|].
  intros i w m acc _ IH. by rewrite call_waiter_sent.
Qed.

Lemma try_send_sent ws f failed st :
  (∀ id nm a, f ≠ FToolCall id nm a) →
  calls_sent (out (try_send ws f failed st)) = calls_sent (out st).
Proof.
  intros Hf. unfold try_send. destruct (send_throws ws f); [quiet|].
  st_simpl. apply calls_sent_snoc_other. intros ws' id nm a [= _ E]. by eapply Hf.
Qed.

Lemma on_close_sent ws st :
  calls_sent (out (on_close ws st)) = calls_sent (out st).
Proof.
  unfold on_close. case_decide.
  - rewrite fail_pending_sent. destruct role; quiet.
  - by destruct role.
Qed.

Lemma on_message_sent ws m st :
  calls_sent (out (on_message ws m st)) = calls_sent (out st).
Proof.
  unfold on_message.
  destruct role, m; rewrite ?on_tool_result_sent, ?try_send_sent by done; quiet.
Qed.

Lemma ping_tick_sent ws st :
  calls_sent (out (ping_tick ws st)) = calls_sent (out st).
Proof.
  unfold ping_tick. destruct (socks st !! ws) as [s|]; [|done].
  destruct (pinging s && _); [|done]. destruct (isAlive s); quiet.
Qed.

Lemma microtasks_sent st :
  calls_sent (out (microtasks st)) = calls_sent (out st).
Proof.
  unfold microtasks. destruct (loop st); try done.
  unfold resume_after_result. st_simpl. destruct (requestQueue st); cbn [drain]; quiet.
Qed.

Lemma microtasks_not_in_flight st :
  ¬ in_flight st → ¬ in_flight (microtasks st).
Proof.
  unfold microtasks, in_flight. destruct (loop st) eqn:Hl; rewrite ?Hl; try done.
  intros _. unfold resume_after_result. st_simpl.
  destruct (requestQueue st); cbn [drain]; st_simpl; tauto.
Qed.

Lemma microtasks_in_flight st : in_flight st → microtasks st = st.
Proof. unfold microtasks, in_flight. by destruct (loop st). Qed.

(** One turn of the event loop sends at most one [tool_call], and only when
    no call is in flight. *)
Lemma step_calls e st :
  Inv st →
  calls_sent (out (handle e st)) = calls_sent (out st) ∨
  (∃ id rq, calls_sent (out (handle e st)) = calls_sent (out st) ++ [id] ∧
            loop (handle e st) = LAwait id rq ∧ ¬ in_flight st).
Proof.
  intros H. unfold handle.
  assert (Hm : calls_sent (out (macrotask e st)) = calls_sent (out st) ∨
    (∃ id rq, calls_sent (out (macrotask e st)) = calls_sent (out st) ++ [id] ∧
              loop (macrotask e st) = LAwait id rq ∧ ¬ in_flight st)).
  { destruct e; cbn [macrotask];
      try (left; first [apply on_message_sent | apply on_close_sent
                       | apply timeout_fired_sent | by destruct role
                       | destruct role; [apply ping_tick_sent|done]
                       | destruct role; quiet | quiet ]).
    - destruct (callTools_no_settle calls st H) as [A B].
      destruct (decide (in_flight st)) as [Hf|Hf].
      + left. by apply A.
      + destruct (B Hf) as [[E _]|(id & rq & E & Hl)]; [by left|].
        right. by exists id, rq.
    - left. rewrite on_close_sent. quiet.
    - unfold delay_elapsed. destruct (loop st) eqn:Hl; try by left.
      destruct (drain_sent (requestQueue st) st) as [[E _]|(id & rq & E & Hl')];
        [by left|].
      right. exists id, rq. split_and!; try done. unfold in_flight. rewrite Hl. tauto. }
  destruct Hm as [E|(id & rq & E & Hl & Hn)].
  - left. by rewrite microtasks_sent.
  - right. exists id, rq. rewrite microtasks_in_flight; [done|].
    unfold in_flight. by rewrite Hl.
Qed.


(** *** A call in flight stays in flight until it is settled *)

Lemma try_send_loop ws f failed st : loop (try_send ws f failed st) = loop st.
Proof. unfold try_send. by destruct (send_throws ws f). Qed.

Lemma ping_tick_loop ws st : loop (ping_tick ws st) = loop st.
Proof.
  unfold ping_tick. destruct (socks st !! ws) as [s|]; [|done].
  destruct (pinging s && _); [|done]. by destruct (isAlive s).
Qed.

Lemma await_stable e id rq st :
  Inv st → loop st = LAwait id rq →
  is_result_or_timeout id e = false → is_registered_close st e = false →
  loop (handle e st) = LAwait id rq.
Proof.
  intros H Hl Hrt Hcl. unfold handle.
  assert (Hf : in_flight st) by (unfold in_flight; by rewrite Hl).
  pose proof H as [_ _ H3 _ _]. rewrite Hl in H3. destruct H3 as (Hp & Ht & _).
  assert (Hm : loop (macrotask e st) = LAwait id rq).
  { destruct e; cbn [macrotask].
    - destruct (callTools_no_settle calls st H) as [A _].
      destruct (A Hf) as [-> _]. done.
    - by destruct role.
    - by destruct role.
    - unfold on_message.
      destruct role, m; rewrite ?try_send_loop; st_simpl; try done.
      all: unfold on_tool_result; st_simpl; rewrite Hp.
      all: cbn in Hrt; apply bool_decide_eq_false in Hrt.
      all: by rewrite lookup_singleton_ne.
    - by destruct role.
    - destruct role; [by rewrite ping_tick_loop|done].
    - by destruct role.
    - done.
    - unfold on_close. cbn in Hcl. apply bool_decide_eq_false in Hcl.
      destruct role; st_simpl; by rewrite decide_False.
    - unfold timeout_fired. cbn in Hrt. apply bool_decide_eq_false in Hrt.
      rewrite Ht. by rewrite lookup_singleton_ne.
    - unfold delay_elapsed. by rewrite Hl. }
  rewrite microtasks_in_flight; [done|]. unfold in_flight. by rewrite Hm.
Qed.

Lemma await_until_settled tr id rq st :
  Inv st → loop st = LAwait id rq →
  settled_within id st tr = false →
  loop (run tr st) = LAwait id rq.
Proof.
  revert st. induction tr as [|e tr IH]; intros st H Hl Hs; [done|].
  cbn in Hs. apply orb_false_elim in Hs as [Hs Hs3].
  apply orb_false_elim in Hs as [Hs1 Hs2].
  cbn. apply IH; [by apply handle_Inv| |done]. by apply await_stable.
Qed.

(** After a turn that sends call [id], the loop awaits [id]. *)
Lemma sends_awaits e st id :
  Inv st → sends e st id →
  (∃ rq, loop (handle e st) = LAwait id rq) ∧ ¬ in_flight st.
Proof.
  intros H Hs. unfold sends in Hs.
  destruct (step_calls e st H) as [E|(id' & rq & E & Hl & Hn)].
  - rewrite E in Hs. apply (f_equal length) in Hs.
    rewrite length_app in Hs. cbn in Hs. lia.
  - rewrite E in Hs. apply app_inj_tail in Hs as [_ ->]. eauto.
Qed.

Lemma between_two_calls tr1 e1 tr2 e2 id1 id2 :
  sends e1 (run tr1 init) id1 →
  sends e2 (run (tr1 ++ e1 :: tr2) init) id2 →
  settled_within id1 (handle e1 (run tr1 init)) tr2 = true.
Proof.
  intros S1 S2.
  destruct (reachable_Inv tr1) as [H1 _].
  destruct (sends_awaits _ _ _ H1 S1) as [[rq Hl] _].
  destruct (reachable_Inv (tr1 ++ e1 :: tr2)) as [H2 _].
  destruct (sends_awaits _ _ _ H2 S2) as [_ Hn].
  destruct (settled_within id1 _ tr2) eqn:Hs; [done|]. exfalso. apply Hn.
  rewrite run_app. cbn [run foldl]. fold (run tr2 (handle e1 (run tr1 init))).
  unfold in_flight.
  rewrite (await_until_settled tr2 id1 rq); [done|by apply handle_Inv|done|done].
Qed.


(** *** Correlation ids are fresh *)

Lemma drain_fresh q st :
  requestId st ≤ requestId (drain q st) ∧
  ∀ id rq, loop (drain q st) = LAwait id rq → requestId st < id.
Proof.
  revert st. induction q as [|rq q IH]; intros st; cbn [drain]; st_simpl.
  - by split.
  - pose proof (IH (emit (OResolve (resolve rq) (ErrorObj "Not connected"))
                      (set_requestQueue q st))) as Hnc.
    st_simpl.
    destruct (chromeClient st) as [ws|]; [|exact Hnc].
    destruct (is_open _ ws); [|exact Hnc].
    destruct (send_throws ws _); st_simpl; split; try lia; try done.
    intros id rq' [= <- _]. lia.
Qed.

Lemma fresh_step_refl st : fresh_step st st.
Proof. split; [done|]. intros; by left. Qed.

Lemma fresh_step_trans st1 st2 st3 :
  fresh_step st1 st2 → fresh_step st2 st3 → fresh_step st1 st3.
Proof.
  intros [A1 B1] [A2 B2]. split; [lia|]. intros id rq Hl.
  destruct (B2 id rq Hl) as [Hl'|Hlt]; [|right; lia].
  destruct (B1 id rq Hl') as [?|?]; [by left|by right].
Qed.

Lemma fresh_step_same st st' :
  requestId st' = requestId st →
  (∀ id rq, loop st' = LAwait id rq → loop st = LAwait id rq) →
  fresh_step st st'.
Proof. intros E H. split; [lia|]. intros id rq Hl. left. by apply H. Qed.

Lemma processQueue_fresh st : fresh_step st (processQueue st).
Proof.
  unfold processQueue. destruct (isProcessingQueue st); [apply fresh_step_refl|].
  destruct (requestQueue st) as [|rq q]; [apply fresh_step_refl|].
  destruct (drain_fresh (rq :: q) (set_isProcessingQueue true st)) as [A B].
  split; [done|]. intros id rq' Hl. right. by apply (B id rq').
Qed.

Lemma callTools_fresh cs st :
  fresh_step st (foldl (λ acc c, callTool c acc) st cs).
Proof.
  revert st. induction cs as [|c cs IH]; intros st; cbn [foldl].
  - apply fresh_step_refl.
  - eapply fresh_step_trans; [|apply IH]. unfold callTool.
    eapply fresh_step_trans; [|apply processQueue_fresh].
    by apply fresh_step_same.
Qed.

Lemma res_fresh id r st : fresh_step st (res id r st).
Proof.
  apply fresh_step_same; unfold res; destruct (loop st) eqn:Hl;
    try case_decide; st_simpl; intros; congruence.
Qed.

Lemma on_tool_result_fresh id result st : fresh_step st (on_tool_result id result st).
Proof.
  unfold on_tool_result.
  destruct (pendingRequests st !! id) as [w|]; [|apply fresh_step_refl].
  apply (fresh_step_trans _ (call_waiter w (PeerResult result) st));
    [|by apply fresh_step_same].
  unfold call_waiter.
  apply (fresh_step_trans _ (clearTimeout (w_timer w) st));
    [by apply fresh_step_same|apply res_fresh].
Qed.

Lemma timeout_fired_fresh id st : fresh_step st (timeout_fired id st).
Proof.
  unfold timeout_fired. destruct (timers st !! id); [|apply fresh_step_refl].
  eapply fresh_step_trans; [|apply res_fresh]. by apply fresh_step_same.
Qed.

Lemma fail_pending_fresh st : fresh_step st (fail_pending st).
Proof.
  unfold fail_pending. cbv zeta.
  match goal with |- fresh_step _ (set_pendingRequests _ ?x) =>
    apply (fresh_step_trans _ x); [|by apply fresh_step_same] end.
  apply (map_fold_weak_ind (λ acc _, fresh_step st acc)); [apply fresh_step_refl|].
  intros i w m acc _ IH. eapply fresh_step_trans; [exact IH|].
  unfold call_waiter.
  apply (fresh_step_trans _ (clearTimeout (w_timer w) acc));
    [by apply fresh_step_same|apply res_fresh].
Qed.

Lemma try_send_fresh ws f failed st : fresh_step st (try_send ws f failed st).
Proof. unfold try_send. destruct (send_throws ws f); by apply fresh_step_same. Qed.

Lemma microtasks_fresh st : fresh_step st (microtasks st).
Proof.
  unfold microtasks. destruct (loop st) eqn:Hl; try apply fresh_step_refl.
  unfold resume_after_result. st_simpl.
  destruct (requestQueue st); cbn [drain]; by apply fresh_step_same.
Qed.

Lemma handle_fresh e st : fresh_step st (handle e st).
Proof.
  unfold handle. eapply fresh_step_trans; [|apply microtasks_fresh].
  destruct e; cbn [macrotask].
  - apply callTools_fresh.
  - destruct role; by apply fresh_step_same.
  - destruct role; by apply fresh_step_same.
  - unfold on_message. destruct role, m;
      try (eapply fresh_step_trans; [|apply try_send_fresh]);
      try (eapply fresh_step_trans; [|apply on_tool_result_fresh]);
      by apply fresh_step_same.
  - destruct role; by apply fresh_step_same.
  - destruct role; [|apply fresh_step_refl]. unfold ping_tick.
    destruct (socks st !! ws) as [s|]; [|apply fresh_step_refl].
    destruct (pinging s && _); [|apply fresh_step_refl].
    destruct (isAlive s); by apply fresh_step_same.
  - destruct role; by apply fresh_step_same.
  - by apply fresh_step_same.
  - unfold on_close. case_decide.
    + eapply fresh_step_trans; [|apply fail_pending_fresh].
      destruct role; by apply fresh_step_same.
    + destruct role; by apply fresh_step_same.
  - apply timeout_fired_fresh.
  - unfold delay_elapsed. destruct (loop st) eqn:Hl; try apply fresh_step_refl.
    destruct (drain_fresh (requestQueue st) st) as [A B].
    split; [done|]. intros id rq Hl'. right. by apply (B id rq).
Qed.


(** *** The three ways a call in flight is settled *)

Lemma relay_state_eq st st' :
  chromeClient st = chromeClient st' → pendingRequests st = pendingRequests st' →
  requestId st = requestId st' → requestQueue st = requestQueue st' →
  isProcessingQueue st = isProcessingQueue st' → timers st = timers st' →
  loop st = loop st' → socks st = socks st' → promises st = promises st' →
  out st = out st' → st = st'.
Proof. destruct st, st'; cbn; intros; by subst. Qed.


Ltac await_facts H Hl Hp Ht :=
  let H3 := fresh in
  pose proof H as [_ _ H3 _ _]; rewrite Hl in H3; destruct H3 as (Hp & Ht & _).

Lemma handle_timeout id rq st :
  Inv st → loop st = LAwait id rq →
  handle (EvTimeout id) st =
    after_settle st [OLog (LToolTimedOut (name rq));
                     OResolve (resolve rq) (ErrorObj "Timeout")].
Proof.
  intros H Hl. await_facts H Hl Hp Ht.
  pose proof (inv_flag _ H) as Hf. rewrite Hl in Hf.
  unfold handle; cbn [macrotask]; unfold timeout_fired. rewrite Ht, lookup_singleton_eq.
  cbn [t_tool]. rewrite (res_await id rq) by done.
  unfold microtasks. st_simpl. unfold resume_after_result. st_simpl.
  rewrite ?Hp, ?Ht, ?delete_singleton_eq.
  destruct (requestQueue st) eqn:Hq; cbn [drain]; apply relay_state_eq;
    unfold after_settle; st_simpl;
    rewrite ?Hq, ?Hp, ?Ht, ?delete_singleton_eq, <- ?app_assoc; done.
Qed.

Lemma handle_tool_result ws id result rq st :
  Inv st → loop st = LAwait id rq →
  handle (EvMessage ws (MToolResult id result)) st =
    after_settle (match role with
                  | ServerRole => set_isAlive ws true st
                  | ClientRole => st
                  end)
      [OResolve (resolve rq) (PeerResult result)].
Proof.
  intros H Hl. await_facts H Hl Hp Ht.
  pose proof (inv_flag _ H) as Hf. rewrite Hl in Hf.
  unfold handle; cbn [macrotask]; unfold on_message.
  destruct role; unfold on_tool_result; st_simpl.
  all: rewrite Hp, lookup_singleton_eq; unfold call_waiter; cbn [w_timer w_res].
  all: rewrite (res_await id rq) by done.
  all: unfold microtasks; st_simpl; unfold resume_after_result; st_simpl.
  all: rewrite ?Hp, ?Ht, ?delete_singleton_eq.
  all: destruct (requestQueue st) eqn:Hq; cbn [drain]; apply relay_state_eq;
    unfold after_settle; st_simpl;
    rewrite ?Hq, ?Hp, ?Ht, ?delete_singleton_eq; done.
Qed.

Lemma handle_close_in_flight ws id rq st :
  Inv st → loop st = LAwait id rq → chromeClient st = Some ws →
  handle (EvClose ws) st =
    after_settle (set_chromeClient None (closed_sock ws st))
      [OLog close_log; OResolve (resolve rq) (ErrorObj "Connection closed")].
Proof.
  intros H Hl Hc. await_facts H Hl Hp Ht.
  pose proof (inv_flag _ H) as Hf. rewrite Hl in Hf.
  unfold handle; cbn [macrotask]; unfold on_close, closed_sock, close_log.
  destruct role; st_simpl; rewrite Hc, decide_True by done.
  all: unfold fail_pending; st_simpl; rewrite Hp, map_fold_singleton.
  all: unfold call_waiter; cbn [w_timer w_res].
  all: rewrite (res_await id rq) by done.
  all: unfold microtasks; st_simpl; unfold resume_after_result; st_simpl.
  all: rewrite ?Hp, ?Ht, ?delete_singleton_eq.
  all: destruct (requestQueue st) eqn:Hq; cbn [drain]; apply relay_state_eq;
    unfold after_settle; st_simpl;
    rewrite ?Hq, ?Hp, ?Ht, ?delete_singleton_eq, <- ?app_assoc; done.
Qed.

Lemma handle_close_idle ws st :
  Inv st → quiescent st → ¬ in_flight st → chromeClient st = Some ws →
  handle (EvClose ws) st = log close_log (set_chromeClient None (closed_sock ws st)).
Proof.
  intros H Hq Hn Hc.
  assert (Hp : pendingRequests st = ∅).
  { pose proof (inv_pending _ H) as H3. unfold in_flight in Hn.
    destruct (loop st); try tauto; by destruct H3. }
  unfold handle; cbn [macrotask]; unfold on_close, closed_sock, close_log.
  destruct role; st_simpl; rewrite Hc, decide_True by done.
  all: unfold fail_pending; st_simpl; rewrite Hp, map_fold_empty.
  all: unfold microtasks, quiescent, in_flight in *; st_simpl.
  all: destruct (loop st); try tauto; apply relay_state_eq; st_simpl; done.
Qed.

(** A [tool_result] whose id is not in [pendingRequests] *)
Lemma handle_stale_result ws id result st :
  quiescent st → pendingRequests st !! id = None →
  handle (EvMessage ws (MToolResult id result)) st =
    match role with
    | ServerRole => set_isAlive ws true st
    | ClientRole => st
    end.
Proof.
  intros Hq Hp. unfold handle; cbn [macrotask]; unfold on_message.
  destruct role; unfold on_tool_result; st_simpl; rewrite Hp.
  all: unfold microtasks, quiescent in *; st_simpl; by destruct (loop st).
Qed.


(** *** Dispatch of the head of the queue *)

Lemma drain_dispatch ws rq q st :
  chromeClient st = Some ws → is_open st ws = true →
  send_throws ws (FToolCall (S (requestId st)) (name rq) (args rq)) = None →
  drain (rq :: q) st = dispatched ws rq q st.
Proof.
  intros Hc Ho Hs. cbn [drain]. st_simpl. rewrite Hc.
  replace (is_open (set_requestQueue q st) ws) with true by (by rewrite <- Ho).
  rewrite Hs. apply relay_state_eq; unfold dispatched; st_simpl;
    rewrite <- ?app_assoc; done.
Qed.

Lemma handle_delay_dispatch ws rq q ms st :
  loop st = LDelay ms → requestQueue st = rq :: q →
  chromeClient st = Some ws → is_open st ws = true →
  send_throws ws (FToolCall (S (requestId st)) (name rq) (args rq)) = None →
  handle EvDelay st = dispatched ws rq q st.
Proof.
  intros Hl Hq Hc Ho Hs. unfold handle. cbn [macrotask]. unfold delay_elapsed.
  rewrite Hl, Hq, (drain_dispatch ws) by done. done.
Qed.

(** *** Timers alone resolve every caller *)

Lemma drain_timers_left q st :
  timers_left (microtasks (drain q st)) ≤ 2 * length q ∧
  promises (microtasks (drain q st)) = promises st.
Proof.
  revert st. induction q as [|rq q IH]; intros st; cbn [drain]; st_simpl.
  - unfold microtasks, timers_left. st_simpl. split; [lia|done].
  - pose proof (IH (emit (OResolve (resolve rq) (ErrorObj "Not connected"))
                      (set_requestQueue q st))) as Hnc.
    st_simpl. cbn [length].
    destruct (chromeClient st) as [ws|]; [|split; [lia|tauto]].
    destruct (is_open _ ws); [|split; [lia|tauto]].
    destruct (send_throws ws _); unfold microtasks, timers_left; st_simpl.
    + unfold resume_after_result. st_simpl.
      destruct q; cbn [drain]; st_simpl; cbn [length]; split; try lia; done.
    + split; [lia|done].
Qed.

Lemma timer_step e st :
  Inv st → next_timer st = Some e →
  timers_left (handle e st) < timers_left st ∧
  promises (handle e st) = promises st.
Proof.
  intros H He. unfold next_timer in He.
  destruct (loop st) as [|id rq|rq r|ms] eqn:Hl; try done; injection He as <-.
  - rewrite (handle_timeout id rq) by done.
    unfold timers_left, after_settle. st_simpl. rewrite Hl.
    destruct (requestQueue st); cbn [length]; split; try lia; done.
  - unfold handle. cbn [macrotask]. unfold delay_elapsed. rewrite Hl.
    destruct (drain_timers_left (requestQueue st) st) as [A B].
    split; [|done]. unfold timers_left at 2. rewrite Hl. lia.
Qed.

Lemma idle_no_waiting st :
  Inv st → quiescent st → timers_left st = 0 → waiting st = [].
Proof.
  intros H Hq Hm. unfold timers_left, quiescent, waiting in *.
  destruct (loop st) eqn:Hl; try lia; try done.
  by rewrite (inv_idle _ H Hl).
Qed.

Lemma expire_settles n st :
  Inv st → quiescent st → timers_left st ≤ n →
  Inv (expire n st) ∧ waiting (expire n st) = [] ∧
  promises (expire n st) = promises st.
Proof.
  revert st. induction n as [|n IH]; intros st H Hq Hm; cbn [expire].
  - split_and!; try done. apply idle_no_waiting; try done. lia.
  - destruct (next_timer st) as [e|] eqn:He.
    + destruct (timer_step e st H He) as [Hlt Hpr].
      destruct (handle_Inv e st H) as [H' Hq'].
      destruct (IH (handle e st) H' Hq') as (A & B & C); [lia|].
      split_and!; try done. congruence.
    + split_and!; try done. apply idle_no_waiting; try done.
      unfold next_timer, timers_left in *. by destruct (loop st).
Qed.

Lemma count_occ_seq c n :
  count_occ Nat.eq_dec (seq 0 n) c = if decide (c < n) then 1 else 0.
Proof.
  case_decide as Hc.
  - apply NoDup_count_occ'; [apply NoDup_ListNoDup, NoDup_seq|]. apply in_seq. lia.
  - apply count_occ_not_In. rewrite in_seq. lia.
Qed.

Lemma resolutions_waiting c st :
  Inv st →
  resolutions c st + count_occ Nat.eq_dec (waiting st) c =
    if decide (c < promises st) then 1 else 0.
Proof.
  intros H. unfold resolutions. rewrite <- count_occ_app, <- count_occ_seq.
  apply Permutation_count_occ. apply (inv_callers _ H).
Qed.


Lemma drain_disconnected q st :
  chromeClient st = None →
  drain q st =
    mkState None (pendingRequests st) (requestId st) [] false (timers st) LIdle
      (socks st) (promises st)
      (out st ++ map (λ rq, OResolve (resolve rq) (ErrorObj "Not connected")) q).
Proof.
  revert st. induction q as [|rq q IH]; intros st Hc; cbn [drain]; st_simpl.
  - apply relay_state_eq; st_simpl; rewrite ?app_nil_r; done.
  - rewrite Hc. rewrite IH by done. apply relay_state_eq; st_simpl;
      rewrite <- ?app_assoc; done.
Qed.

Lemma settle_pauses id rq e st :
  Inv st → loop st = LAwait id rq → requestQueue st ≠ [] →
  is_result_or_timeout id e || is_registered_close st e = true →
  loop (handle e st) = LDelay INTER_CALL_DELAY.
Proof.
  intros H Hl Hq He.
  assert (∀ st0 o, requestQueue st0 = requestQueue st →
            loop (after_settle st0 o) = LDelay INTER_CALL_DELAY) as Hs.
  { intros st0 o E. unfold after_settle. st_simpl. rewrite E.
    by destruct (requestQueue st). }
  destruct e as [| | |ws [| |id' result| |]| | | | |ws|id'|]; cbn in He;
    rewrite ?orb_false_r in He; try done.
  - apply bool_decide_eq_true in He as ->.
    rewrite (handle_tool_result ws id result rq) by done. apply Hs. by destruct role.
  - apply bool_decide_eq_true in He.
    rewrite (handle_close_in_flight ws id rq) by done. apply Hs.
    unfold closed_sock. by destruct role.
  - apply bool_decide_eq_true in He as ->.
    rewrite (handle_timeout id rq) by done. by apply Hs.
Qed.

(** Once call [id] has been allocated and is no longer awaited, it never
    returns to [pendingRequests]. *)
Lemma retired_forever id tr st :
  Inv st → quiescent st → id ≤ requestId st → (∀ rq, loop st ≠ LAwait id rq) →
  pendingRequests (run tr st) !! id = None ∧ quiescent (run tr st).
Proof.
  revert st. induction tr as [|e tr IH]; intros st H Hq Hid Hl.
  - split; [|done]. cbn. pose proof (inv_pending _ H) as H3.
    destruct (loop st) as [|id' rq| |] eqn:E;
      try (destruct H3 as [-> _]; apply lookup_empty).
    destruct H3 as (-> & _ & _). apply lookup_singleton_ne.
    intros ->. by apply (Hl rq).
  - cbn. destruct (handle_Inv e st H) as [H' Hq'].
    destruct (handle_fresh e st) as [A B].
    apply IH; try done; [lia|].
    intros rq Hl'. destruct (B id rq Hl') as [?|?]; [by apply (Hl rq)|lia].
Qed.

Lemma callTools_busy cs st :
  isProcessingQueue st = true →
  out (foldl (λ acc c, callTool c acc) st cs) = out st.
Proof.
  revert st. induction cs as [|c cs IH]; intros st Hf; cbn [foldl]; [done|].
  assert (E : callTool c st =
            set_requestQueue (requestQueue st ++ [mkRequest c.1 c.2 (promises st)])
              (set_promises (S (promises st)) st)).
  { unfold callTool, processQueue. st_simpl. by rewrite Hf. }
  rewrite IH; rewrite E; by st_simpl.
Qed.

(** During the pause nothing but the end of the pause sends a call. *)
Lemma only_delay_ends_pause e ms id st :
  Inv st → loop st = LDelay ms → sends e st id → e = EvDelay.
Proof.
  intros H Hl Hs. unfold sends in Hs.
  assert (Hf : isProcessingQueue st = true).
  { rewrite (inv_flag _ H), Hl. done. }
  assert (Hq : ∀ st', calls_sent (out st') = calls_sent (out st) →
                 calls_sent (out (microtasks st')) ≠ calls_sent (out st) ++ [id]).
  { intros st' E. rewrite microtasks_sent, E. intros E'.
    apply (f_equal length) in E'. rewrite length_app in E'. cbn in E'. lia. }
  destruct e; try done; exfalso; unfold handle in Hs; cbn [macrotask] in Hs;
    revert Hs; apply Hq.
  - by rewrite callTools_busy.
  - destruct role; quiet.
  - destruct role; quiet.
  - apply on_message_sent.
  - destruct role; quiet.
  - destruct role; [apply ping_tick_sent|done].
  - destruct role; quiet.
  - quiet.
  - rewrite on_close_sent. quiet.
  - apply timeout_fired_sent.
Qed.

(** ** The claims about the relay *)

(** C1, as amended.  In every reachable state at most one call is pending.
    A [tool_call] is sent only when nothing is pending; sending it
    allocates the next correlation id, installs the pending entry and a
    30000 ms timer, and suspends the queue loop on that call.  Between two
    [tool_call] frames, the first one's [tool_result] was received, its
    timeout fired, or the registered peer channel closed.  Settling a call
    while requests wait starts the 50 ms pause; during the pause nothing is
    sent, and at its end the head of the queue is popped and sent. *)
Theorem single_flight tr :
  let st := run tr init in
  size (pendingRequests st) ≤ 1 ∧
  (∀ e id, sends e st id →
     pendingRequests st = ∅ ∧ requestId st < id ∧
     ∃ rq, loop (handle e st) = LAwait id rq ∧
           requestId (handle e st) = id ∧
           pendingRequests (handle e st) = {[id := mkWaiter id id]} ∧
           timers (handle e st) = {[id := mkTimer CALL_TIMEOUT (name rq)]}) ∧
  (∀ e1 tr2 e2 id1 id2,
     sends e1 st id1 → sends e2 (run tr2 (handle e1 st)) id2 →
     settled_within id1 (handle e1 st) tr2 = true) ∧
  (∀ ws rq q,
     loop st = LDelay INTER_CALL_DELAY → requestQueue st = rq :: q →
     chromeClient st = Some ws → is_open st ws = true →
     send_throws ws (FToolCall (S (requestId st)) (name rq) (args rq)) = None →
     handle EvDelay st = dispatched ws rq q st) ∧
  (∀ id rq e,
     loop st = LAwait id rq → requestQueue st ≠ [] →
     is_result_or_timeout id e || is_registered_close st e = true →
     loop (handle e st) = LDelay INTER_CALL_DELAY ∧
     calls_sent (out (handle e st)) = calls_sent (out st)) ∧
  (∀ ms e id, loop st = LDelay ms → sends e st id → e = EvDelay).
Proof.
  intros st. destruct (reachable_Inv tr) as [H Hq]. fold st in H, Hq.
  split_and!.
  - pose proof (inv_pending _ H) as H3. revert H3.
    destruct (loop st); intros H3; destruct H3 as [E _]; rewrite E;
      rewrite ?map_size_empty, ?map_size_singleton; lia.
  - intros e id Hs. destruct (sends_awaits e st id H Hs) as [[rq Hl] Hn].
    destruct (handle_Inv e st H) as [H' _].
    pose proof (inv_pending _ H') as H3'. rewrite Hl in H3'.
    destruct H3' as (Hp' & Ht' & Hid').
    split_and!.
    + pose proof (inv_pending _ H) as H3. unfold in_flight in Hn. revert H3 Hn.
      destruct (loop st); intros H3 Hn; try tauto; by destruct H3.
    + destruct (handle_fresh e st) as [_ B].
      destruct (B id rq Hl) as [Hl0|?]; [|done].
      exfalso. apply Hn. unfold in_flight. by rewrite Hl0.
    + exists rq. by split_and!.
  - intros e1 tr2 e2 id1 id2 S1 S2.
    apply (between_two_calls tr e1 tr2 e2 id1 id2 S1).
    rewrite run_app. exact S2.
  - intros ws rq q. apply handle_delay_dispatch.
  - intros id rq e Hl Hne He.
    pose proof (settle_pauses id rq e st H Hl Hne He) as Hd. split; [done|].
    destruct (step_calls e st H) as [E|(id' & rq' & _ & Hl' & _)]; [done|].
    congruence.
  - intros ms e id. by apply only_delay_ends_pause.
Qed.

(** C2.  In every reachable state no caller has been resolved twice, no
    resolution goes to a caller that never called, and every caller not yet
    resolved is in the queue or in flight.  When the armed timers then fire
    (at most two per queued request, plus two), every caller has exactly
    one resolution. *)
Theorem exactly_one_resolution tr :
  let st := run tr init in
  (∀ c, resolutions c st ≤ 1) ∧
  (∀ c, promises st ≤ c → resolutions c st = 0) ∧
  (∀ c, c < promises st → resolutions c st = 0 → c ∈ waiting st) ∧
  let st' := expire (2 * length (requestQueue st) + 2) st in
  promises st' = promises st ∧
  ∀ c, c < promises st → resolutions c st' = 1.
Proof.
  intros st. destruct (reachable_Inv tr) as [H Hq]. fold st in H, Hq.
  clearbody st. split_and!.
  - intros c. pose proof (resolutions_waiting c st H) as E.
    clear -E. destruct (decide (c < promises st)); lia.
  - intros c Hc. pose proof (resolutions_waiting c st H) as E.
    clear -E Hc. rewrite decide_False in E by lia. lia.
  - intros c Hc Hz. pose proof (resolutions_waiting c st H) as E.
    rewrite decide_True in E by done. apply list_elem_of_In.
    apply (count_occ_In Nat.eq_dec). clear -E Hz. lia.
  - destruct (expire_settles (2 * length (requestQueue st) + 2) st H Hq)
      as (H' & Hw & Hp).
    { unfold timers_left. destruct (loop st); lia. }
    cbv zeta. split; [done|]. intros c Hc.
    pose proof (resolutions_waiting c _ H') as E.
    rewrite Hw, Hp in E. cbn [count_occ] in E.
    rewrite decide_True, Nat.add_0_r in E by done. exact E.
Qed.

(** C3, as amended.  When the socket that is [chromeClient] closes, every
    pending call is resolved with [{ error: 'Connection closed' }], its
    timer is cleared, [pendingRequests] becomes empty and [chromeClient]
    becomes [null].  [requestQueue] is left as it was; if the relay is
    still unconnected when the pause ends, the queued requests are answered
    [{ error: 'Not connected' }] and the queue is then empty. *)
Theorem close_fails_pending tr ws :
  let st := run tr init in
  chromeClient st = Some ws →
  let st' := handle (EvClose ws) st in
  pendingRequests st' = ∅ ∧ timers st' = ∅ ∧ chromeClient st' = None ∧
  requestQueue st' = requestQueue st ∧
  (∀ id, is_Some (pendingRequests st !! id) →
     ∃ rq, loop st = LAwait id rq ∧
           out st' = out st ++ [OLog close_log;
                                OResolve (resolve rq) (ErrorObj "Connection closed")]) ∧
  (pendingRequests st = ∅ → out st' = out st ++ [OLog close_log]) ∧
  (∀ ms, loop st' = LDelay ms →
     requestQueue (handle EvDelay st') = [] ∧
     out (handle EvDelay st') =
       out st' ++ map (λ rq, OResolve (resolve rq) (ErrorObj "Not connected"))
                     (requestQueue st)).
Proof.
  intros st Hc st'. destruct (reachable_Inv tr) as [H Hq]. fold st in H, Hq.
  pose proof (inv_pending _ H) as H3.
  assert (Hcases : (∃ id rq, loop st = LAwait id rq ∧
             st' = after_settle (set_chromeClient None (closed_sock ws st))
                     [OLog close_log;
                      OResolve (resolve rq) (ErrorObj "Connection closed")]) ∨
          (¬ in_flight st ∧ pendingRequests st = ∅ ∧ timers st = ∅ ∧
             st' = log close_log (set_chromeClient None (closed_sock ws st)))).
  { pose proof Hq as Hq0. unfold quiescent in Hq0. revert H3 Hq0.
    destruct (loop st) as [|id rq|rq r|ms] eqn:Hl; intros H3 Hq0.
    - right. destruct H3. split_and!; try done.
      + unfold in_flight. rewrite Hl. tauto.
      + apply handle_close_idle; try done. unfold in_flight. rewrite Hl. tauto.
    - left. exists id, rq. split; [done|]. by apply (handle_close_in_flight ws id rq).
    - done.
    - right. destruct H3. split_and!; try done.
      + unfold in_flight. rewrite Hl. tauto.
      + apply handle_close_idle; try done. unfold in_flight. rewrite Hl. tauto. }
  assert (Hq' : requestQueue (closed_sock ws st) = requestQueue st)
    by (unfold closed_sock; by destruct role).
  assert (Ho' : out (closed_sock ws st) = out st)
    by (unfold closed_sock; by destruct role).
  assert (Hp' : pendingRequests (closed_sock ws st) = pendingRequests st)
    by (unfold closed_sock; by destruct role).
  assert (Ht' : timers (closed_sock ws st) = timers st)
    by (unfold closed_sock; by destruct role).
  assert (Hnone : chromeClient st' = None).
  { destruct Hcases as [(id & rq & _ & ->)|(_ & _ & _ & ->)]; done. }
  split_and!; try done.
  - destruct Hcases as [(id & rq & _ & ->)|(_ & Hp & _ & ->)]; [done|].
    st_simpl. by rewrite Hp'.
  - destruct Hcases as [(id & rq & _ & ->)|(_ & _ & Ht & ->)]; [done|].
    st_simpl. by rewrite Ht'.
  - destruct Hcases as [(id & rq & _ & ->)|(_ & _ & _ & ->)];
      unfold after_settle; by st_simpl.
  - intros id [w Hw]. destruct Hcases as [(id' & rq & Hl & ->)|(_ & Hp & _ & _)].
    + rewrite Hl in H3. destruct H3 as (Hp & _ & _). rewrite Hp in Hw.
      apply lookup_singleton_Some in Hw as [<- _]. exists rq. split; [done|].
      unfold after_settle. st_simpl. by rewrite Ho'.
    + by rewrite Hp, lookup_empty in Hw.
  - intros Hp. destruct Hcases as [(id & rq & Hl & _)|(_ & _ & _ & ->)].
    + rewrite Hl in H3. destruct H3 as (Hp1 & _ & _). rewrite Hp1 in Hp.
      by apply (map_non_empty_singleton id) in Hp.
    + st_simpl. by rewrite Ho'.
  - intros ms Hl'.
    assert (Hqq : requestQueue st' = requestQueue st).
    { destruct Hcases as [(id & rq & _ & ->)|(_ & _ & _ & ->)];
        unfold after_settle; by st_simpl. }
    assert (Ed : handle EvDelay st' = microtasks (drain (requestQueue st') st')).
    { unfold handle. cbn [macrotask]. unfold delay_elapsed. by rewrite Hl'. }
    rewrite Ed, (drain_disconnected _ _ Hnone). unfold microtasks. st_simpl.
    by rewrite Hqq.
Qed.

(** While a call is in flight its 30000 ms timer is armed.  When that
    timer fires, the caller is resolved with [{ error: 'Timeout' }] and the
    pending entry is removed; from then on the id is never pending again,
    and a [tool_result] carrying it is dropped. *)
Lemma timeout_in_flight id rq st :
  Inv st → loop st = LAwait id rq →
  let st1 := handle (EvTimeout id) st in
  timers st !! id = Some (mkTimer CALL_TIMEOUT (name rq)) ∧
  out st1 = out st ++ [OLog (LToolTimedOut (name rq));
                       OResolve (resolve rq) (ErrorObj "Timeout")] ∧
  pendingRequests st1 = ∅ ∧ timers st1 = ∅ ∧
  ∀ tr' ws result,
    let st2 := run tr' st1 in
    let st3 := handle (EvMessage ws (MToolResult id result)) st2 in
    pendingRequests st2 !! id = None ∧
    st3 = match role with
          | ServerRole => set_isAlive ws true st2
          | ClientRole => st2
          end ∧
    relay_variables st3 = relay_variables st2 ∧
    timers st3 = timers st2 ∧ loop st3 = loop st2 ∧ out st3 = out st2.
Proof.
  intros H Hl st1.
  destruct (handle_Inv (EvTimeout id) st H) as [H1 Hq1]. fold st1 in H1, Hq1.
  assert (E : st1 = after_settle st [OLog (LToolTimedOut (name rq));
                                     OResolve (resolve rq) (ErrorObj "Timeout")])
    by (by apply handle_timeout).
  pose proof (inv_pending _ H) as H3. rewrite Hl in H3.
  destruct H3 as (_ & Ht & Hid).
  split_and!; try (by rewrite E).
  { by rewrite Ht, lookup_singleton_eq. }
  intros tr' ws result st2 st3.
  destruct (retired_forever id tr' st1 H1 Hq1) as [Hp2 Hq2].
  { rewrite E. unfold after_settle. st_simpl. lia. }
  { intros rq'. rewrite E. unfold after_settle. st_simpl.
    by destruct (requestQueue st). }
  assert (E3 : st3 = match role with
                     | ServerRole => set_isAlive ws true st2
                     | ClientRole => st2
                     end) by (by apply handle_stale_result).
  split_and!; try done; rewrite E3; by destruct role.
Qed.

(** C4, as amended.  Turn [e] sends the call with id [id]; the events
    [tr0] that follow contain no [tool_result] for [id] and no close of the
    registered peer channel, and then the 30000 ms timer of [id] fires.
    The call is still in flight with that timer armed; the firing resolves
    the caller with [{ error: 'Timeout' }] and removes the pending entry.
    Whatever happens afterwards, the id is never pending again, and a
    [tool_result] carrying it is dropped: nothing is written, logged or
    resolved, and the variables of the relay, its timers and its queue loop
    are as before.  The state is unchanged in the client role; in the
    server role the [message] handler has set the [isAlive] flag of the
    socket the frame came on, as it does for every frame, and that is the
    only change. *)
Theorem timeout_then_late_result tr e tr0 id :
  sends e (run tr init) id →
  settled_within id (handle e (run tr init)) tr0 = false →
  let st := run tr0 (handle e (run tr init)) in
  let st1 := handle (EvTimeout id) st in
  ∃ rq,
    loop st = LAwait id rq ∧
    timers st !! id = Some (mkTimer CALL_TIMEOUT (name rq)) ∧
    out st1 = out st ++ [OLog (LToolTimedOut (name rq));
                         OResolve (resolve rq) (ErrorObj "Timeout")] ∧
    pendingRequests st1 = ∅ ∧ timers st1 = ∅ ∧
    ∀ tr' ws result,
      let st2 := run tr' st1 in
      let st3 := handle (EvMessage ws (MToolResult id result)) st2 in
      pendingRequests st2 !! id = None ∧
      st3 = match role with
            | ServerRole => set_isAlive ws true st2
            | ClientRole => st2
            end ∧
      relay_variables st3 = relay_variables st2 ∧
      timers st3 = timers st2 ∧ loop st3 = loop st2 ∧ out st3 = out st2.
Proof.
  intros Hs Hw st st1.
  destruct (reachable_Inv tr) as [H0 _].
  destruct (sends_awaits _ _ _ H0 Hs) as [[rq Hl0] _].
  destruct (handle_Inv e _ H0) as [He Hqe].
  assert (Hl : loop st = LAwait id rq)
    by (by apply await_until_settled).
  destruct (run_Inv tr0 _ He Hqe) as [H Hq]. fold st in H, Hq.
  exists rq. split; [done|]. by apply timeout_in_flight.
Qed.

(** ** Further properties of the relay *)

(** *** Callers are served in the order of their calls *)

Lemma same_order_trans st1 st2 st3 :
  same_order st1 st2 → same_order st2 st3 → same_order st1 st3.
Proof. intros [A1 B1] [A2 B2]. split; congruence. Qed.

Lemma same_order_view st st' :
  resolved (out st') = resolved (out st) → loop st' = loop st →
  requestQueue st' = requestQueue st → promises st' = promises st →
  same_order st st'.
Proof.
  intros E1 E2 E3 E4. split; [|done].
  unfold call_order, waiting. by rewrite E1, E2, E3.
Qed.

Ltac still :=
  apply same_order_view; st_simpl; rewrite ?resolved_snoc_other by done; done.

Lemma drain_order q st :
  call_order (drain q st) = resolved (out st) ++ map resolve q ∧
  promises (drain q st) = promises st.
Proof.
  revert st. induction q as [|rq q IH]; intros st; cbn [drain].
  - unfold call_order, waiting. by st_simpl.
  - st_simpl.
    pose proof (IH (emit (OResolve (resolve rq) (ErrorObj "Not connected"))
                      (set_requestQueue q st))) as Hnc.
    st_simpl. rewrite resolved_snoc_resolve, <- app_assoc in Hnc.
    destruct (chromeClient st) as [ws|]; [|exact Hnc].
    destruct (is_open _ ws); [|exact Hnc].
    destruct (send_throws ws _); unfold call_order, waiting; st_simpl;
      rewrite !resolved_snoc_other by done; done.
Qed.

Lemma processQueue_order st :
  isProcessingQueue st = bool_decide (loop st ≠ LIdle) →
  same_order st (processQueue st).
Proof.
  intros Hf. unfold processQueue.
  destruct (isProcessingQueue st); [done|].
  destruct (requestQueue st) as [|rq q] eqn:Hq; [done|].
  symmetry in Hf. apply bool_decide_eq_false in Hf. apply dec_stable in Hf.
  destruct (drain_order (rq :: q) (set_isProcessingQueue true st)) as [A B].
  split; [|done]. rewrite A. unfold call_order, waiting. st_simpl.
  by rewrite Hf, Hq.
Qed.

Lemma callTool_order c st :
  Inv st →
  call_order (callTool c st) = call_order st ++ [promises st] ∧
  promises (callTool c st) = S (promises st).
Proof.
  intros H. unfold callTool. cbv zeta.
  match goal with |- context [processQueue ?x] =>
    destruct (processQueue_order x) as [A B] end.
  { st_simpl. apply (inv_flag _ H). }
  split; [|by rewrite B]. rewrite A. unfold call_order, waiting. st_simpl.
  rewrite map_app. cbn [map resolve]. by rewrite !app_assoc.
Qed.

Lemma callTools_order cs st :
  Inv st → call_order st = seq 0 (promises st) →
  call_order (foldl (λ acc c, callTool c acc) st cs) =
    seq 0 (promises (foldl (λ acc c, callTool c acc) st cs)).
Proof.
  revert st. induction cs as [|c cs IH]; intros st H Ho; cbn [foldl]; [done|].
  destruct (callTool_order c st H) as [A B].
  apply IH; [by apply callTool_Inv|]. rewrite A, B, Ho. by rewrite seq_S.
Qed.

Lemma res_order id r st : same_order st (res id r st).
Proof.
  unfold res. destruct (loop st) as [|id' rq| |] eqn:Hl; try done.
  case_decide; [|done]. split; [|done].
  unfold call_order, waiting. st_simpl. by rewrite Hl.
Qed.

Lemma call_waiter_order w r st : same_order st (call_waiter w r st).
Proof.
  unfold call_waiter. eapply same_order_trans; [|apply res_order]. still.
Qed.

Lemma on_tool_result_order id result st :
  same_order st (on_tool_result id result st).
Proof.
  unfold on_tool_result. destruct (pendingRequests st !! id) as [w|]; [|done].
  apply (same_order_trans _ (call_waiter w (PeerResult result) st));
    [apply call_waiter_order|still].
Qed.

Lemma timeout_fired_order id st : same_order st (timeout_fired id st).
Proof.
  unfold timeout_fired. destruct (timers st !! id); [|done].
  cbv zeta. eapply same_order_trans; [|apply res_order]. still.
Qed.

Lemma fail_pending_order st : same_order st (fail_pending st).
Proof.
  unfold fail_pending. cbv zeta.
  match goal with |- same_order _ (set_pendingRequests _ ?x) =>
    apply (same_order_trans _ x); [|still] end.
  apply (map_fold_weak_ind (λ acc _, same_order st acc)); [done|].
  intros i w m acc _ IH. eapply same_order_trans; [exact IH|apply call_waiter_order].
Qed.

Lemma try_send_order ws f failed st : same_order st (try_send ws f failed st).
Proof. unfold try_send. destruct (send_throws ws f); still. Qed.

Lemma on_message_order ws m st : same_order st (on_message ws m st).
Proof.
  unfold on_message. destruct role, m; try done; try apply try_send_order;
    try apply on_tool_result_order; try still.
  - apply (same_order_trans _ (set_isAlive ws true st)); [still|].
    eapply same_order_trans; [|apply try_send_order]. still.
  - apply (same_order_trans _ (set_isAlive ws true st)); [still|].
    apply try_send_order.
  - apply (same_order_trans _ (set_isAlive ws true st)); [still|].
    apply on_tool_result_order.
Qed.

Lemma on_close_order ws st : same_order st (on_close ws st).
Proof.
  unfold on_close. case_decide.
  - eapply same_order_trans; [|apply fail_pending_order]. destruct role; still.
  - destruct role; [still|done].
Qed.

Lemma ping_tick_order ws st : same_order st (ping_tick ws st).
Proof.
  unfold ping_tick. destruct (socks st !! ws) as [s|]; [|done].
  destruct (pinging s && _); [|done]. destruct (isAlive s); still.
Qed.

Lemma delay_elapsed_order st : same_order st (delay_elapsed st).
Proof.
  unfold delay_elapsed. destruct (loop st) eqn:Hl; try done.
  destruct (drain_order (requestQueue st) st) as [A B]. split; [|done].
  rewrite A. unfold call_order, waiting. by rewrite Hl.
Qed.

Lemma microtasks_order st : same_order st (microtasks st).
Proof.
  unfold microtasks. destruct (loop st) as [| |rq r|] eqn:Hl; try done.
  unfold resume_after_result. st_simpl.
  destruct (requestQueue st) as [|rq' q] eqn:Hq; cbn [drain]; split; try done;
    unfold call_order, waiting; st_simpl;
    rewrite resolved_snoc_resolve, Hl, ?Hq, <- app_assoc; done.
Qed.

Lemma handle_order e st :
  Inv st → call_order st = seq 0 (promises st) →
  call_order (handle e st) = seq 0 (promises (handle e st)).
Proof.
  intros H Ho. unfold handle.
  destruct (microtasks_order (macrotask e st)) as [A B]. rewrite A, B. clear A B.
  assert (Hs : ∀ st', same_order st st' → call_order st' = seq 0 (promises st')).
  { intros st' [A B]. by rewrite A, B. }
  destruct e; cbn [macrotask].
  - by apply callTools_order.
  - apply Hs. destruct role; [still|done].
  - apply Hs. destruct role; [done|still].
  - apply Hs. apply on_message_order.
  - apply Hs. destruct role; [still|done].
  - apply Hs. destruct role; [apply ping_tick_order|done].
  - apply Hs. destruct role; still.
  - apply Hs. still.
  - apply Hs. eapply same_order_trans; [|apply on_close_order]. still.
  - apply Hs. apply timeout_fired_order.
  - apply Hs. apply delay_elapsed_order.
Qed.

Lemma run_order tr st :
  Inv st → call_order st = seq 0 (promises st) →
  call_order (run tr st) = seq 0 (promises (run tr st)).
Proof.
  revert st. induction tr as [|e tr IH]; intros st H Ho; [done|].
  cbn. apply IH; [by apply handle_Inv|by apply handle_order].
Qed.

Lemma app_seq_inv (l1 l2 : list nat) a n :
  l1 ++ l2 = seq a n →
  l1 = seq a (length l1) ∧ l2 = seq (a + length l1) (length l2).
Proof.
  revert a n. induction l1 as [|x l1 IH]; intros a n E; cbn in *.
  - rewrite Nat.add_0_r. split; [done|]. by rewrite E, length_seq.
  - destruct n as [|n]; [done|]. cbn in E. injection E as -> E.
    destruct (IH _ _ E) as [A B]. split; [by f_equal|].
    by rewrite <- Nat.add_succ_comm.
Qed.

(** X1.  Callers are served first come, first served.  In every reachable
    state the callers resolved so far are the first [k] callers, in the
    order in which they called [callTool], and the callers that wait (the
    one in flight, then the queue) are the next ones, again in call order:
    no caller is resolved before one that called earlier. *)
Theorem served_in_call_order tr :
  let st := run tr init in
  resolved (out st) = seq 0 (length (resolved (out st))) ∧
  waiting st = seq (length (resolved (out st))) (length (waiting st)).
Proof.
  intros st.
  assert (E : call_order st = seq 0 (promises st)).
  { apply run_order; [apply Inv_init|done]. }
  apply (app_seq_inv _ _ 0 (promises st)). exact E.
Qed.

(** *** Calls made while no agent is connected *)

Lemma peer_ready_view st st' :
  chromeClient st' = chromeClient st → socks st' = socks st →
  peer_ready st' = peer_ready st.
Proof. unfold peer_ready, is_open. by intros -> ->. Qed.

Lemma drain_unready q st :
  peer_ready st = false →
  drain q st =
    mkState (chromeClient st) (pendingRequests st) (requestId st) [] false
      (timers st) LIdle (socks st) (promises st)
      (out st ++ map (λ rq, OResolve (resolve rq) (ErrorObj "Not connected")) q).
Proof.
  revert st. induction q as [|rq q IH]; intros st Hr; cbn [drain]; st_simpl.
  - apply relay_state_eq; st_simpl; rewrite ?app_nil_r; done.
  - assert (E : drain q (emit (OResolve (resolve rq) (ErrorObj "Not connected"))
                           (set_requestQueue q st)) =
                mkState (chromeClient st) (pendingRequests st) (requestId st) []
                  false (timers st) LIdle (socks st) (promises st)
                  (out st ++
                   map (λ rq, OResolve (resolve rq) (ErrorObj "Not connected"))
                     (rq :: q))).
    { rewrite IH by (rewrite <- Hr; by apply peer_ready_view).
      apply relay_state_eq; st_simpl; rewrite <- ?app_assoc; done. }
    unfold peer_ready in Hr. destruct (chromeClient st) as [ws|]; [|exact E].
    change (is_open (set_requestQueue q st) ws) with (is_open st ws).
    rewrite Hr. exact E.
Qed.

Lemma callTool_unready c st :
  peer_ready st = false → isProcessingQueue st = false → requestQueue st = [] →
  callTool c st =
    mkState (chromeClient st) (pendingRequests st) (requestId st) [] false
      (timers st) LIdle (socks st) (S (promises st))
      (out st ++ not_connected (promises st) 1).
Proof.
  intros Hr Hf Hq. unfold callTool, processQueue. st_simpl. rewrite Hf, Hq.
  cbn [app]. rewrite drain_unready by (rewrite <- Hr; by apply peer_ready_view).
  by st_simpl.
Qed.

Lemma callTools_unready cs st :
  peer_ready st = false → isProcessingQueue st = false → requestQueue st = [] →
  loop st = LIdle →
  foldl (λ acc c, callTool c acc) st cs =
    mkState (chromeClient st) (pendingRequests st) (requestId st) [] false
      (timers st) LIdle (socks st) (promises st + length cs)
      (out st ++ not_connected (promises st) (length cs)).
Proof.
  revert st. induction cs as [|c cs IH]; intros st Hr Hf Hq Hl; cbn [foldl length].
  - apply relay_state_eq; st_simpl; unfold not_connected; cbn;
      rewrite ?app_nil_r, ?Nat.add_0_r; done.
  - rewrite (callTool_unready c st Hr Hf Hq).
    rewrite IH by (st_simpl; first [done | by rewrite <- Hr]). st_simpl.
    apply relay_state_eq; st_simpl; try done; [lia|].
    unfold not_connected. cbn [seq map]. by rewrite <- app_assoc.
Qed.

(** X2.  Calls made while the relay has no open agent connection fail at
    once.  When the queue loop is idle and [chromeClient] is [null] or its
    socket is not [OPEN], a batch of [callTool] calls resolves every caller
    with [{ error: 'Not connected' }] in the same turn and in call order.
    No correlation id is consumed, nothing is sent, no timer is armed and
    the queue is empty again afterwards. *)
Theorem calls_without_peer tr cs :
  let st := run tr init in
  peer_ready st = false → loop st = LIdle →
  handle (EvCallTools cs) st =
    mkState (chromeClient st) ∅ (requestId st) [] false ∅ LIdle (socks st)
      (promises st + length cs)
      (out st ++ not_connected (promises st) (length cs)).
Proof.
  intros st Hr Hl. destruct (reachable_Inv tr) as [H _]. fold st in H.
  assert (Hf : isProcessingQueue st = false) by (by rewrite (inv_flag _ H), Hl).
  pose proof (inv_idle _ H Hl) as Hq.
  pose proof (inv_pending _ H) as Hp. rewrite Hl in Hp. destruct Hp as [Hp Ht].
  unfold handle. cbn [macrotask].
  rewrite (callTools_unready cs st Hr Hf Hq Hl). unfold microtasks. st_simpl.
  by rewrite Hp, Ht.
Qed.

(** *** A [send] that throws *)

Lemma callTools_busy_state cs st :
  isProcessingQueue st = true →
  foldl (λ acc c, callTool c acc) st cs =
    set_requestQueue (requestQueue st ++ requests_from (promises st) cs)
      (set_promises (promises st + length cs) st).
Proof.
  revert st. induction cs as [|c cs IH]; intros st Hf; cbn [foldl].
  - apply relay_state_eq; st_simpl; cbn; rewrite ?app_nil_r, ?Nat.add_0_r; done.
  - assert (E : callTool c st =
              set_requestQueue (requestQueue st ++ [mkRequest c.1 c.2 (promises st)])
                (set_promises (S (promises st)) st)).
    { unfold callTool, processQueue. st_simpl. by rewrite Hf. }
    rewrite E, IH by done.
    apply relay_state_eq; st_simpl; cbn [requests_from length];
      rewrite <- ?app_assoc; try done. lia.
Qed.

(** X3.  A [send] that throws is reported to the caller and does not stall
    the queue.  When the first call of a batch finds the agent connected but
    [chromeClient.send] throws an error with message [e], that caller is
    resolved with [{ error: 'Send failed: ' + e }] in the same turn.  The
    correlation id is consumed, but no pending entry and no timer are left
    behind.  The other calls of the batch are queued; the loop takes its
    50 ms pause before the next one, or ends if there is none. *)
Theorem send_failure_is_reported tr ws c cs e :
  let st := run tr init in
  loop st = LIdle → chromeClient st = Some ws → is_open st ws = true →
  send_throws ws (FToolCall (S (requestId st)) c.1 c.2) = Some e →
  handle (EvCallTools (c :: cs)) st =
    mkState (Some ws) ∅ (S (requestId st)) (requests_from (S (promises st)) cs)
      (match cs with [] => false | _ :: _ => true end) ∅
      (match cs with [] => LIdle | _ :: _ => LDelay INTER_CALL_DELAY end)
      (socks st) (S (promises st) + length cs)
      (out st ++ [OLog (LSendError e);
                  OResolve (promises st) (ErrorObj ("Send failed: " +:+ e))]).
Proof.
  intros st Hl Hc Ho Hs. destruct (reachable_Inv tr) as [H _]. fold st in H.
  assert (Hf : isProcessingQueue st = false) by (by rewrite (inv_flag _ H), Hl).
  pose proof (inv_idle _ H Hl) as Hq.
  pose proof (inv_pending _ H) as Hp. rewrite Hl in Hp. destruct Hp as [Hp Ht].
  unfold handle. cbn [macrotask foldl].
  assert (E : callTool c st =
            mkState (Some ws) ∅ (S (requestId st)) [] true ∅
              (LResumed (mkRequest c.1 c.2 (promises st))
                 (ErrorObj ("Send failed: " +:+ e)))
              (socks st) (S (promises st)) (out st ++ [OLog (LSendError e)])).
  { unfold callTool, processQueue. st_simpl. rewrite Hf, Hq. cbn [app drain].
    st_simpl. rewrite Hc.
    match goal with |- context [is_open ?x ws] =>
      replace (is_open x ws) with true by (by rewrite <- Ho) end.
    cbn [name args]. rewrite Hs. apply relay_state_eq; st_simpl; try done.
    - by rewrite Hp, delete_insert_eq, delete_empty.
    - by rewrite Ht, delete_insert_eq, delete_empty. }
  rewrite E, callTools_busy_state by done. unfold microtasks. st_simpl.
  unfold resume_after_result. st_simpl.
  destruct cs as [|c' cs]; cbn [requests_from app length drain];
    apply relay_state_eq; st_simpl; rewrite <- ?app_assoc, ?Nat.add_0_r; done.
Qed.

(** *** Correlation ids *)

Lemma increasing_snoc l x :
  increasing l → (∀ a, a ∈ l → a < x) → increasing (l ++ [x]).
Proof.
  intros Hl Hx i j a b Hij Hi Hj.
  destruct (decide (j < length l)) as [Hjl|Hjl].
  - rewrite lookup_app_l in Hi by lia. rewrite lookup_app_l in Hj by lia.
    by apply (Hl i j).
  - assert (j = length l) as ->.
    { apply lookup_lt_Some in Hj. rewrite length_app in Hj. cbn in Hj. lia. }
    rewrite lookup_app_l in Hi by lia.
    rewrite lookup_app_r, Nat.sub_diag in Hj by lia. injection Hj as <-.
    apply Hx. by eapply list_elem_of_lookup_2.
Qed.

(** X4.  Correlation ids are never reused.  In every reachable state the
    ids of the [tool_call] frames sent so far increase strictly in the
    order of sending, and each lies between 1 and the current value of
    [requestId]. *)
Theorem correlation_ids_increase tr :
  let st := run tr init in
  increasing (calls_sent (out st)) ∧
  ∀ id, id ∈ calls_sent (out st) → 1 ≤ id ≤ requestId st.
Proof.
  induction tr as [|e tr IH] using rev_ind.
  - split; [by intros i j a b _ ?|]. intros id Hid. by apply elem_of_nil in Hid.
  - rewrite run_snoc. cbv zeta in IH. destruct IH as [Hinc Hb].
    destruct (reachable_Inv tr) as [H _].
    destruct (handle_fresh e (run tr init)) as [Hle Hfr].
    destruct (step_calls e _ H) as [E|(id & rq & E & Hl & Hn)]; cbv zeta; rewrite E.
    + split; [done|]. intros id Hid. specialize (Hb id Hid). lia.
    + destruct (handle_Inv e _ H) as [H' _].
      pose proof (inv_pending _ H') as H3. rewrite Hl in H3.
      destruct H3 as (_ & _ & Hid').
      assert (Hlt : requestId (run tr init) < id).
      { destruct (Hfr id rq Hl) as [Hl0|?]; [|done].
        exfalso. apply Hn. unfold in_flight. by rewrite Hl0. }
      split.
      * apply increasing_snoc; [done|]. intros a Ha. specialize (Hb a Ha). lia.
      * intros a Ha. apply elem_of_app in Ha as [Ha|Ha].
        -- specialize (Hb a Ha). lia.
        -- apply list_elem_of_singleton in Ha as ->. lia.
Qed.

(** *** The heartbeat of a server-side connection *)

Lemma res_socks id r st : socks (res id r st) = socks st.
Proof. unfold res. destruct (loop st); try done. by case_decide. Qed.

Lemma call_waiter_socks w r st : socks (call_waiter w r st) = socks st.
Proof. unfold call_waiter. by rewrite res_socks. Qed.

Lemma drain_socks q st : socks (drain q st) = socks st.
Proof.
  revert st. induction q as [|rq q IH]; intros st; cbn [drain]; st_simpl; [done|].
  destruct (chromeClient st) as [ws|]; [|by rewrite IH].
  destruct (is_open _ ws); [|by rewrite IH]. by destruct (send_throws ws _).
Qed.

Lemma callTools_socks cs st :
  socks (foldl (λ acc c, callTool c acc) st cs) = socks st.
Proof.
  revert st. induction cs as [|c cs IH]; intros st; cbn [foldl]; [done|].
  rewrite IH. unfold callTool, processQueue. st_simpl.
  destruct (isProcessingQueue st); [done|].
  destruct (requestQueue st ++ _); [done|]. by rewrite drain_socks.
Qed.

Lemma microtasks_socks st : socks (microtasks st) = socks st.
Proof.
  unfold microtasks. destruct (loop st); try done.
  unfold resume_after_result. st_simpl.
  destruct (requestQueue st); cbn [drain]; by st_simpl.
Qed.

Lemma on_tool_result_socks id result st :
  socks (on_tool_result id result st) = socks st.
Proof.
  unfold on_tool_result. destruct (pendingRequests st !! id); [|done].
  st_simpl. by rewrite call_waiter_socks.
Qed.

Lemma timeout_fired_socks id st : socks (timeout_fired id st) = socks st.
Proof.
  unfold timeout_fired. destruct (timers st !! id); [|done].
  by rewrite res_socks.
Qed.

Lemma fail_pending_socks st : socks (fail_pending st) = socks st.
Proof.
  unfold fail_pending. st_simpl.
  apply (map_fold_weak_ind (λ acc _, socks acc = socks st)); [done|].
  intros i w m acc _ IH. by rewrite call_waiter_socks.
Qed.

Lemma try_send_socks ws f failed st : socks (try_send ws f failed st) = socks st.
Proof. unfold try_send. by destruct (send_throws ws f). Qed.

Lemma delay_elapsed_socks st : socks (delay_elapsed st) = socks st.
Proof. unfold delay_elapsed. destruct (loop st); try done. apply drain_socks. Qed.

(** An event of another connection, a call or a timer leaves the record of
    connection [ws] as it is. *)
Lemma other_event_keeps_sock e ws st :
  about ws e = false → socks (handle e st) !! ws = socks st !! ws.
Proof.
  intros Ha. unfold handle. rewrite microtasks_socks.
  destruct e; cbn [macrotask about] in *;
    try apply bool_decide_eq_false in Ha.
  - by rewrite callTools_socks.
  - destruct role; st_simpl; [by rewrite lookup_insert_ne|done].
  - destruct role; st_simpl; [done|by rewrite lookup_insert_ne].
  - unfold on_message.
    destruct role, m; rewrite ?try_send_socks, ?on_tool_result_socks; st_simpl;
      rewrite ?lookup_alter_ne by done; done.
  - destruct role; st_simpl; rewrite ?lookup_alter_ne by done; done.
  - destruct role; [|done]. unfold ping_tick.
    destruct (socks st !! ws0) as [s|]; [|done].
    destruct (pinging s && _); [|done].
    destruct (isAlive s); st_simpl; by rewrite lookup_alter_ne.
  - destruct role; st_simpl; rewrite ?lookup_alter_ne by done; done.
  - st_simpl. by rewrite lookup_alter_ne.
  - unfold on_close.
    destruct role; st_simpl; case_decide; rewrite ?fail_pending_socks; st_simpl;
      rewrite ?lookup_alter_ne by done; done.
  - by rewrite timeout_fired_socks.
  - by rewrite delay_elapsed_socks.
Qed.

Lemma others_keep_sock tr ws st :
  forallb (λ e, negb (about ws e)) tr = true →
  socks (run tr st) !! ws = socks st !! ws.
Proof.
  revert st. induction tr as [|e tr IH]; intros st Ha; [done|].
  cbn in Ha. apply andb_true_iff in Ha as [Ha1 Ha2].
  apply negb_true_iff in Ha1.
  change (run (e :: tr) st) with (run tr (handle e st)).
  rewrite IH by done. by apply other_event_keeps_sock.
Qed.

Lemma microtasks_quiescent st : quiescent st → microtasks st = st.
Proof. unfold microtasks, quiescent. by destruct (loop st). Qed.

Lemma handle_ping_tick ws st :
  quiescent st → handle (EvPingTick ws) st = macrotask (EvPingTick ws) st.
Proof.
  intros Hq. unfold handle. apply microtasks_quiescent.
  cbn [macrotask]. unfold quiescent in *.
  destruct role; [by rewrite ping_tick_loop|done].
Qed.

(** X5.  The heartbeat of a server-side connection.  Every 15 s tick on an
    open connection from which something was heard since the last tick
    sends a ping.  If the following tick comes and in between the relay has
    handled only calls, timers and events of other connections, the
    connection is declared stale and terminated, and later ticks do nothing
    for it.  A pong or any frame from the peer before that tick saves the
    connection: the tick sends the next ping instead. *)
Theorem silent_peer_is_terminated tr tr' ws :
  role = ServerRole →
  let st := run tr init in
  socks st !! ws = Some (mkSock OPEN true true) →
  forallb (λ e, negb (about ws e)) tr' = true →
  let st1 := handle (EvPingTick ws) st in
  let st2 := run tr' st1 in
  let st3 := handle (EvPingTick ws) st2 in
  out st1 = out st ++ [OPing ws] ∧
  out st3 = out st2 ++ [OLog LConnectionStale; OTerminate ws] ∧
  handle (EvPingTick ws) st3 = st3 ∧
  ∀ e, e = EvPong ws ∨ (∃ m, e = EvMessage ws m) →
    out (handle (EvPingTick ws) (handle e st2)) =
      out (handle e st2) ++ [OPing ws].
Proof.
  intros Hrole st Hs Htr st1 st2 st3.
  destruct (reachable_Inv tr) as [H Hq]. fold st in H, Hq.
  destruct (handle_Inv (EvPingTick ws) st H) as [H1 Hq1]. fold st1 in H1, Hq1.
  destruct (run_Inv tr' st1 H1 Hq1) as [H2 Hq2]. fold st2 in H2, Hq2.
  destruct (handle_Inv (EvPingTick ws) st2 H2) as [H3 Hq3]. fold st3 in H3, Hq3.
  assert (E1 : st1 = emit (OPing ws) (set_isAlive ws false st)).
  { unfold st1. rewrite handle_ping_tick by done. cbn [macrotask].
    rewrite Hrole. unfold ping_tick. by rewrite Hs. }
  assert (Hs2 : socks st2 !! ws = Some (mkSock OPEN false true)).
  { unfold st2. rewrite others_keep_sock by done. rewrite E1. st_simpl.
    by rewrite lookup_alter_eq, Hs. }
  assert (E3 : st3 = emit (OTerminate ws)
                       (set_ready ws CLOSING (log LConnectionStale st2))).
  { unfold st3. rewrite handle_ping_tick by done. cbn [macrotask].
    rewrite Hrole. unfold ping_tick. by rewrite Hs2. }
  split_and!.
  - by rewrite E1.
  - rewrite E3. st_simpl. by rewrite <- app_assoc.
  - rewrite handle_ping_tick by done. cbn [macrotask]. rewrite Hrole.
    unfold ping_tick. rewrite E3 at 1. st_simpl.
    by rewrite lookup_alter_eq, Hs2.
  - intros e He.
    destruct (handle_Inv e st2 H2) as [_ Hqe].
    assert (Hse : socks (handle e st2) !! ws = Some (mkSock OPEN true true)).
    { unfold handle. rewrite microtasks_socks.
      destruct He as [->|[m ->]]; cbn [macrotask].
      - rewrite Hrole. st_simpl. by rewrite lookup_alter_eq, Hs2.
      - unfold on_message. rewrite Hrole.
        destruct m; rewrite ?try_send_socks, ?on_tool_result_socks; st_simpl;
          by rewrite lookup_alter_eq, Hs2. }
    rewrite handle_ping_tick by done. cbn [macrotask]. rewrite Hrole.
    unfold ping_tick. by rewrite Hse.
Qed.

(** *** Registration and stale connections *)

(** X6.  A second registration takes the agent role over without touching
    the call in flight, and from then on the first connection is stale.
    In the server role, a [register] frame on [ws2] makes [ws2] the
    [chromeClient] while the call awaited stays pending with its timer
    armed.  The close of the connection the call was sent on then fails
    nothing: relay variables, timers, queue loop and output are as before,
    so the call can only end by a [tool_result] or by its timeout. *)
Theorem takeover_keeps_call tr ws1 ws2 id rq :
  role = ServerRole →
  let st := run tr init in
  loop st = LAwait id rq → ws1 ≠ ws2 →
  let st1 := handle (EvMessage ws2 MRegister) st in
  let st2 := handle (EvClose ws1) st1 in
  chromeClient st1 = Some ws2 ∧ loop st1 = LAwait id rq ∧
  pendingRequests st1 = {[id := mkWaiter id id]} ∧
  timers st1 = {[id := mkTimer CALL_TIMEOUT (name rq)]} ∧
  resolved (out st1) = resolved (out st) ∧
  relay_variables st2 = relay_variables st1 ∧ timers st2 = timers st1 ∧
  loop st2 = loop st1 ∧ out st2 = out st1.
Proof.
  intros Hrole st Hl Hne st1 st2.
  destruct (reachable_Inv tr) as [H Hq]. fold st in H, Hq.
  await_facts H Hl Hp Ht.
  assert (E1 : st1 = try_send ws2 FRegistered LSendRegisteredFailed
                       (log LExtensionRegistered
                          (set_chromeClient (Some ws2) (set_isAlive ws2 true st)))).
  { unfold st1, handle. cbn [macrotask]. unfold on_message. rewrite Hrole.
    apply microtasks_quiescent. unfold quiescent. rewrite try_send_loop.
    st_simpl. by rewrite Hl. }
  assert (E2 : st2 = clearInterval ws1 (set_ready ws1 CLOSED st1)).
  { unfold st2, handle. cbn [macrotask]. unfold on_close. rewrite Hrole.
    rewrite decide_False.
    - apply microtasks_quiescent. unfold quiescent. st_simpl.
      rewrite E1, try_send_loop. st_simpl. by rewrite Hl.
    - st_simpl. rewrite E1. unfold try_send.
      destruct (send_throws ws2 FRegistered); st_simpl; congruence. }
  rewrite E2. rewrite E1. unfold try_send.
  destruct (send_throws ws2 FRegistered); st_simpl;
    rewrite ?resolved_snoc_other by done; split_and!; done.
Qed.

(** *** The result of a call *)

(** X7.  A [tool_result] that carries the id of the call in flight settles
    it, whatever connection the frame arrives on: the relay does not check
    that the sender is [chromeClient].  The caller is resolved with exactly
    the [result] of the frame, the pending entry is removed and the 30 s
    timer is cleared, so that the timeout of that call, were it to be
    delivered afterwards, changes nothing. *)
Theorem result_settles_call tr ws id rq result :
  let st := run tr init in
  loop st = LAwait id rq →
  let st' := handle (EvMessage ws (MToolResult id result)) st in
  out st' = out st ++ [OResolve (resolve rq) (PeerResult result)] ∧
  pendingRequests st' = ∅ ∧ timers st' = ∅ ∧
  handle (EvTimeout id) st' = st'.
Proof.
  intros st Hl st'. destruct (reachable_Inv tr) as [H Hq]. fold st in H, Hq.
  assert (E : st' = after_settle (match role with
                                  | ServerRole => set_isAlive ws true st
                                  | ClientRole => st
                                  end)
                      [OResolve (resolve rq) (PeerResult result)])
    by (by apply handle_tool_result).
  assert (Ht : timers st' = ∅) by (by rewrite E).
  split_and!; try done.
  - rewrite E. unfold after_settle. by destruct role.
  - by rewrite E.
  - unfold handle. cbn [macrotask]. unfold timeout_fired.
    rewrite Ht, lookup_empty. apply microtasks_quiescent.
    rewrite E. unfold quiescent, after_settle. st_simpl.
    by destruct (requestQueue _).
Qed.

End WithTransport.

(** ** Concrete runs *)

(** A transport on which [ws.send] never throws. *)
Definition never_throws : Sock → Frame → option string := λ _ _, None.

(** An agent connects to the listening relay and registers. *)
Definition peer_registers (ws : Sock) : list Event :=
  [EvConnection ws; EvMessage ws MRegister].

(** The agent on socket 1 has registered and [callTool] ran for tools [a]
    and [b]: the call for [a] is in flight with id 1, [b] is queued. *)
Definition one_in_flight_one_queued : State :=
  run never_throws ServerRole
    (peer_registers 1 ++ [EvCallTools [("a", "{}"); ("b", "{}")]]) init.

(** C1, counterexample to the strict wording.  The agent registers on
    socket 1 and the call for [a] is sent with id 1; socket 1 closes
    (resolving the call with "Connection closed"); the agent registers
    again on socket 2 and the call for [b] is sent with id 2.  Between the
    two frames no [tool_result] for id 1 was received and no timeout
    fired. *)
Lemma strict_single_flight_counterexample :
  sends never_throws ServerRole (EvCallTools [("a", "{}")])
    (run never_throws ServerRole (peer_registers 1) init) 1 ∧
  sends never_throws ServerRole (EvCallTools [("b", "{}")])
    (run never_throws ServerRole
       (peer_registers 1 ++ EvCallTools [("a", "{}")]
          :: (EvClose 1 :: peer_registers 2)) init) 2 ∧
  existsb (is_result_or_timeout 1) (EvClose 1 :: peer_registers 2) = false.
Proof. split_and!; vm_compute; reflexivity. Qed.

Lemma strict_single_flight_refuted :
  ¬ strict_single_flight never_throws ServerRole.
Proof.
  intros Hs.
  specialize (Hs (peer_registers 1) (EvCallTools [("a", "{}")])
                (EvClose 1 :: peer_registers 2) (EvCallTools [("b", "{}")]) 1 2).
  assert (existsb (is_result_or_timeout 1) (EvClose 1 :: peer_registers 2) = false)
    as Hf by reflexivity.
  rewrite Hs in Hf; [done| |]; vm_compute; reflexivity.
Qed.

(** C3, counterexample to the clearing of the queue.  With the call for
    [a] in flight and [b] queued, the close of the registered socket
    leaves [b] in [requestQueue]. *)
Lemma close_keeps_queue_counterexample :
  chromeClient one_in_flight_one_queued = Some 1 ∧
  size (pendingRequests one_in_flight_one_queued) = 1 ∧
  pendingRequests
    (handle never_throws ServerRole (EvClose 1) one_in_flight_one_queued) = ∅ ∧
  requestQueue
    (handle never_throws ServerRole (EvClose 1) one_in_flight_one_queued) =
    [mkRequest "b" "{}" 1].
Proof. split_and!; vm_compute; reflexivity. Qed.

Lemma single_flight_witness :
  sends never_throws ServerRole (EvCallTools [("a", "{}")])
    (run never_throws ServerRole (peer_registers 1) init) 1 ∧
  sends never_throws ServerRole (EvCallTools [("b", "{}")])
    (run never_throws ServerRole [EvMessage 1 (MToolResult 1 "{}")]
       (handle never_throws ServerRole (EvCallTools [("a", "{}")])
          (run never_throws ServerRole (peer_registers 1) init))) 2 ∧
  settled_within never_throws ServerRole 1
    (handle never_throws ServerRole (EvCallTools [("a", "{}")])
       (run never_throws ServerRole (peer_registers 1) init))
    [EvMessage 1 (MToolResult 1 "{}")] = true.
Proof.
  assert (S1 : sends never_throws ServerRole (EvCallTools [("a", "{}")])
                 (run never_throws ServerRole (peer_registers 1) init) 1)
    by (vm_compute; reflexivity).
  assert (S2 : sends never_throws ServerRole (EvCallTools [("b", "{}")])
                 (run never_throws ServerRole [EvMessage 1 (MToolResult 1 "{}")]
                    (handle never_throws ServerRole (EvCallTools [("a", "{}")])
                       (run never_throws ServerRole (peer_registers 1) init))) 2)
    by (vm_compute; reflexivity).
  split; [exact S1|]. split; [exact S2|].
  exact (proj1 (proj2 (proj2 (single_flight never_throws ServerRole
                                (peer_registers 1))))
           (EvCallTools [("a", "{}")]) [EvMessage 1 (MToolResult 1 "{}")]
           (EvCallTools [("b", "{}")]) 1 2 S1 S2).
Defined.

Lemma exactly_one_resolution_witness :
  resolutions 1 one_in_flight_one_queued = 0 ∧
  resolutions 1
    (expire never_throws ServerRole
       (2 * length (requestQueue one_in_flight_one_queued) + 2)
       one_in_flight_one_queued) = 1.
Proof.
  split; [reflexivity|].
  exact (proj2 (proj2 (proj2 (proj2
           (exactly_one_resolution never_throws ServerRole
              (peer_registers 1 ++ [EvCallTools [("a", "{}"); ("b", "{}")]])))))
           1 ltac:(vm_compute; lia)).
Defined.

Lemma close_fails_pending_witness :
  chromeClient one_in_flight_one_queued = Some 1 ∧
  pendingRequests
    (handle never_throws ServerRole (EvClose 1) one_in_flight_one_queued) = ∅.
Proof.
  split; [reflexivity|].
  exact (proj1 (close_fails_pending never_throws ServerRole
                  (peer_registers 1 ++ [EvCallTools [("a", "{}"); ("b", "{}")]])
                  1 eq_refl)).
Defined.

(** C4, counterexample.  The agent registers on socket 1 and the call for
    [a] is sent with id 1.  No [tool_result] arrives, but socket 1 closes:
    the caller is resolved with "Connection closed", not with a timeout
    error; no timer is left, and the timeout of id 1 does nothing.  And
    when the timer does fire, after a ping tick on socket 1, the late
    [tool_result] for id 1 changes the state: it sets the [isAlive] flag of
    the socket. *)
Lemma timeout_after_close_counterexample :
  sends never_throws ServerRole (EvCallTools [("a", "{}")])
    (run never_throws ServerRole (peer_registers 1) init) 1 ∧
  (let st := run never_throws ServerRole
               (peer_registers 1 ++ [EvCallTools [("a", "{}")]; EvClose 1]) init in
   resolved (out st) = [0] ∧
   last (out st) = Some (OResolve 0 (ErrorObj "Connection closed")) ∧
   timers st = ∅ ∧
   handle never_throws ServerRole (EvTimeout 1) st = st) ∧
  (let st2 := run never_throws ServerRole
                (peer_registers 1 ++
                   [EvCallTools [("a", "{}")]; EvPingTick 1; EvTimeout 1]) init in
   let st3 := handle never_throws ServerRole
                (EvMessage 1 (MToolResult 1 "{}")) st2 in
   isAlive <$> socks st2 !! 1 = Some false ∧
   isAlive <$> socks st3 !! 1 = Some true ∧
   st3 ≠ st2).
Proof.
  split; [vm_compute; reflexivity|]. split.
  - intros st. split_and!; vm_compute; reflexivity.
  - intros st2 st3.
    assert (E2 : isAlive <$> socks st2 !! 1 = Some false)
      by (vm_compute; reflexivity).
    assert (E3 : isAlive <$> socks st3 !! 1 = Some true)
      by (vm_compute; reflexivity).
    split_and!; [done..|]. intros E. rewrite E, E2 in E3. discriminate E3.
Qed.

Lemma timeout_then_late_result_witness :
  sends never_throws ServerRole (EvCallTools [("a", "{}"); ("b", "{}")])
    (run never_throws ServerRole (peer_registers 1) init) 1 ∧
  settled_within never_throws ServerRole 1
    (handle never_throws ServerRole (EvCallTools [("a", "{}"); ("b", "{}")])
       (run never_throws ServerRole (peer_registers 1) init))
    [EvPingTick 1] = false ∧
  ∃ rq,
    loop (run never_throws ServerRole [EvPingTick 1]
            (handle never_throws ServerRole
               (EvCallTools [("a", "{}"); ("b", "{}")])
               (run never_throws ServerRole (peer_registers 1) init))) =
      LAwait 1 rq.
Proof.
  assert (S1 : sends never_throws ServerRole
                 (EvCallTools [("a", "{}"); ("b", "{}")])
                 (run never_throws ServerRole (peer_registers 1) init) 1)
    by (vm_compute; reflexivity).
  split; [exact S1|]. split; [reflexivity|].
  destruct (timeout_then_late_result never_throws ServerRole
              (peer_registers 1) (EvCallTools [("a", "{}"); ("b", "{}")])
              [EvPingTick 1] 1 S1 eq_refl) as (rq & Hl & _).
  exists rq. exact Hl.
Defined.

(** A transport on which every [ws.send] throws. *)
Definition always_throws : Sock → Frame → option string :=
  λ _ _, Some "WebSocket is not open".

(** The agent on socket 1 has registered and the call for [a] is in flight
    with id 1. *)
Definition one_in_flight : list Event :=
  peer_registers 1 ++ [EvCallTools [("a", "{}")]].

Lemma calls_without_peer_witness :
  peer_ready init = false ∧
  out (handle never_throws ServerRole
         (EvCallTools [("a", "{}"); ("b", "{}")]) init) =
    [OResolve 0 (ErrorObj "Not connected"); OResolve 1 (ErrorObj "Not connected")].
Proof.
  split; [reflexivity|].
  pose proof (calls_without_peer never_throws ServerRole []
                [("a", "{}"); ("b", "{}")] eq_refl eq_refl) as E.
  apply (f_equal out) in E. vm_compute in E |- *. exact E.
Defined.

Lemma send_failure_is_reported_witness :
  always_throws 1 (FToolCall 1 "a" "{}") = Some "WebSocket is not open" ∧
  resolved
    (out (handle always_throws ServerRole (EvCallTools [("a", "{}"); ("b", "{}")])
            (run always_throws ServerRole (peer_registers 1) init))) = [0] ∧
  loop (handle always_throws ServerRole (EvCallTools [("a", "{}"); ("b", "{}")])
          (run always_throws ServerRole (peer_registers 1) init)) =
    LDelay INTER_CALL_DELAY.
Proof.
  split; [reflexivity|].
  pose proof (send_failure_is_reported always_throws ServerRole
                (peer_registers 1) 1 ("a", "{}") [("b", "{}")]
                "WebSocket is not open"
                ltac:(vm_compute; reflexivity) ltac:(vm_compute; reflexivity)
                ltac:(vm_compute; reflexivity) ltac:(vm_compute; reflexivity)) as E.
  split.
  - apply (f_equal (λ s, resolved (out s))) in E. vm_compute in E |- *. exact E.
  - apply (f_equal loop) in E. vm_compute in E |- *. exact E.
Defined.

Lemma silent_peer_is_terminated_witness :
  socks (run never_throws ServerRole [EvConnection 1] init) !! 1 =
    Some (mkSock OPEN true true) ∧
  out (run never_throws ServerRole
         [EvConnection 1; EvPingTick 1; EvTimeout 7; EvPingTick 1] init) =
    [OLog LExtensionConnected; OPing 1; OLog LConnectionStale; OTerminate 1].
Proof.
  split; [vm_compute; reflexivity|].
  pose proof (proj1 (proj2 (silent_peer_is_terminated never_throws ServerRole
                [EvConnection 1] [EvTimeout 7] 1 eq_refl
                ltac:(vm_compute; reflexivity) ltac:(vm_compute; reflexivity)))) as E.
  vm_compute in E |- *. exact E.
Defined.

Lemma takeover_keeps_call_witness :
  loop (run never_throws ServerRole one_in_flight init) =
    LAwait 1 (mkRequest "a" "{}" 0) ∧
  loop (handle never_throws ServerRole (EvMessage 2 MRegister)
          (run never_throws ServerRole one_in_flight init)) =
    LAwait 1 (mkRequest "a" "{}" 0).
Proof.
  split; [reflexivity|].
  exact (proj1 (proj2 (takeover_keeps_call never_throws ServerRole one_in_flight
                         1 2 1 (mkRequest "a" "{}" 0) eq_refl eq_refl
                         ltac:(lia)))).
Defined.

Lemma result_settles_call_witness :
  chromeClient (run never_throws ServerRole one_in_flight init) = Some 1 ∧
  resolved
    (out (handle never_throws ServerRole (EvMessage 2 (MToolResult 1 "done"))
            (run never_throws ServerRole one_in_flight init))) = [0].
Proof.
  split; [vm_compute; reflexivity|].
  pose proof (proj1 (result_settles_call never_throws ServerRole one_in_flight 2 1
                       (mkRequest "a" "{}" 0) "done"
                       ltac:(vm_compute; reflexivity))) as E.
  apply (f_equal resolved) in E. vm_compute in E |- *. exact E.
Defined.

End Relay.

Module Agent.

(** ** Data *)

Definition Json := string.
Definition TabId := Z.

(** One entry of [debuggerAttached]: [{ attached, domains }]. *)
Record DebugSession := mkSession { attached : bool; domains : gset string }.

(** An entry of [networkRequests.get(tabId)]: the fields copied from
    [Network.requestWillBeSent], and those [Network.responseReceived]
    writes into it later. *)
Record NetRequest := mkNetRequest {
  requestId : string;
  request : Json;
  response : option Json
}.

(** An entry of [consoleLogs.get(tabId)]. *)
Inductive ConsoleLog :=
| LogCall (type : string) (detail : Json)
| LogException (detail : Json).

(** Entries of the [errors] and [console] arrays of an extension's store. *)
Inductive ErrorEntry :=
| ExceptionError (timestamp : N) (detail : Json)
| RuntimeError (timestamp : N) (message : string).

Record ConsoleEntry := mkConsoleEntry {
  at_time : N;
  level : string;
  detail : Json
}.

(** A value of [extensionErrorStore]. *)
Record ErrorStore := mkStore {
  errors : list ErrorEntry;
  console : list ConsoleEntry;
  store_tabId : option TabId
}.

(** The events [chrome.debugger.onEvent] delivers, by [method]; the
    payload [params] is kept as it came. *)
Inductive CdpEvent :=
| NetworkRequestWillBeSent (requestId : string) (params : Json)
| NetworkResponseReceived (requestId : string) (params : Json)
| RuntimeConsoleAPICalled (type : string) (params : Json)
| RuntimeExceptionThrown (params : Json)
| ConsoleMessageAdded (level : string) (params : Json)
| AnimationCreated (params : Json)
| AnimationStarted (params : Json)
| OtherEvent (method : string) (params : Json).

(** An event with its [source.tabId] and the clock when it is handled. *)
Record DebuggerEvent := mkEvent { source : TabId; clock : N; event : CdpEvent }.

(** Calls into the browser, in the order they are made. *)
Inductive ChromeCall :=
| DebuggerAttach (tabId : TabId)
| DebuggerDetach (tabId : TabId)
| DebuggerSendCommand (tabId : TabId) (method : string) (params : Json)
| TabsQueryActive
| TabsCreate (url : string)
| TabsRemove (tabId : TabId)
| ManagementGet (extensionId : string).

(** What [chrome.management.get] resolves with. *)
Record ExtensionInfo := mkExtInfo { ext_name : string; optionsUrl : string }.

(** The browser.  Every function receives the calls made before; a promise
    either resolves ([inr], [None] when it carries no value) or rejects
    with an error whose [message] is given. *)
Record Browser := mkBrowser {
  debugger_attach : list ChromeCall → TabId → option string;
  debugger_detach : list ChromeCall → TabId → option string;
  debugger_sendCommand : list ChromeCall → TabId → string → Json → string + Json;
  tabs_query_active : list ChromeCall → option TabId;
  tabs_create : list ChromeCall → string → string + TabId;
  tabs_remove : list ChromeCall → TabId → option string;
  management_get : list ChromeCall → string → string + ExtensionInfo
}.

(** The argument [params] of a tool call, as far as the tools below read
    it. *)
Record Params := mkParams {
  p_extensionId : option string;
  p_method : string;
  p_params : Json;
  p_page : option string;
  p_closeTab : option bool
}.

(** What the functions return. *)
Inductive Result :=
| Success (already : bool)
| SuccessMessage (message : string)
| Failure (error : string)
| Value (v : Json)
| Profile (v : Result)
| Requests (l : list NetRequest)
| Captured (extensionId : string) (extensionName : string) (page : string)
    (errs : list ErrorEntry) (cons : list ConsoleEntry)
    (totalErrors totalConsoleMessages : nat).

Record State := mkState {
  agentEnabled : bool;
  debuggerAttached : gmap TabId DebugSession;
  networkRequests : gmap TabId (list NetRequest);
  consoleLogs : gmap TabId (list ConsoleLog);
  animations : gmap TabId (list Json);
  extensionErrorStore : gmap string ErrorStore;
  calls : list ChromeCall
}.

(** The module as loaded: [agentEnabled = true], every map empty. *)
Definition init : State := mkState true ∅ ∅ ∅ ∅ ∅ [].

Definition set_debuggerAttached (v : gmap TabId DebugSession) (st : State) : State :=
  mkState (agentEnabled st) v (networkRequests st) (consoleLogs st)
    (animations st) (extensionErrorStore st) (calls st).

Definition set_networkRequests (v : gmap TabId (list NetRequest)) (st : State) : State :=
  mkState (agentEnabled st) (debuggerAttached st) v (consoleLogs st)
    (animations st) (extensionErrorStore st) (calls st).

Definition set_consoleLogs (v : gmap TabId (list ConsoleLog)) (st : State) : State :=
  mkState (agentEnabled st) (debuggerAttached st) (networkRequests st) v
    (animations st) (extensionErrorStore st) (calls st).

Definition set_animations (v : gmap TabId (list Json)) (st : State) : State :=
  mkState (agentEnabled st) (debuggerAttached st) (networkRequests st)
    (consoleLogs st) v (extensionErrorStore st) (calls st).

Definition set_extensionErrorStore (v : gmap string ErrorStore) (st : State) : State :=
  mkState (agentEnabled st) (debuggerAttached st) (networkRequests st)
    (consoleLogs st) (animations st) v (calls st).

Definition set_agentEnabled (v : bool) (st : State) : State :=
  mkState v (debuggerAttached st) (networkRequests st) (consoleLogs st)
    (animations st) (extensionErrorStore st) (calls st).

(** The browser is called: the call joins the history. *)
Definition call (c : ChromeCall) (st : State) : State :=
  mkState (agentEnabled st) (debuggerAttached st) (networkRequests st)
    (consoleLogs st) (animations st) (extensionErrorStore st) (calls st ++ [c]).

(** JavaScript truthiness of a string: only the empty string is falsy. *)
Definition truthy (s : string) : bool :=
  match s with EmptyString => false | String _ _ => true end.

(** [r.error], as the test of an [if].  The result object of a CDP command
    has no [error] property. *)
Definition has_error (r : Result) : bool :=
  match r with Failure e => truthy e | _ => false end.

(** [debuggerAttached.get(tabId)?.attached] *)
Definition is_attached (st : State) (tabId : TabId) : bool :=
  match debuggerAttached st !! tabId with
  | Some d => attached d
  | None => false
  end.

(** The two policy tables of [executeToolCall]. *)
Definition noAgentRequired : list string :=
  ["browser_snapshot"; "get_page_info";
   "list_extensions"; "reload_extension"; "get_extension_info";
   "enable_extension"; "disable_extension";
   "open_extension_popup"; "open_extension_options"; "open_extension_devtools";
   "open_extension_errors"; "trigger_extension_action"; "get_extension_popup_content";
   "interact_with_extension"; "close_tab"; "cdp_attach"; "cdp_detach"; "cdp_command"].

Definition noTabRequired : list string :=
  ["list_extensions"; "reload_extension"; "get_extension_info";
   "enable_extension"; "disable_extension";
   "open_extension_popup"; "open_extension_options"; "open_extension_devtools";
   "open_extension_errors"; "trigger_extension_action"; "get_extension_popup_content";
   "interact_with_extension"; "close_tab"].

(** [array.includes(tool)] *)
Definition includes (table : list string) (tool : string) : bool :=
  bool_decide (tool ∈ table).

Section WithBrowser.

Variable chrome : Browser.

(** ** CDP debugger manager *)

Definition attachDebugger (tabId : TabId) (st : State) : Result * State :=
  if is_attached st tabId then (Success true, st)
  else
    match debugger_attach chrome (calls st) tabId with
    | None =>
        (Success false,
         set_debuggerAttached
           (<[tabId := mkSession true ∅]> (debuggerAttached st))
           (call (DebuggerAttach tabId) st))
    | Some e => (Failure e, call (DebuggerAttach tabId) st)
    end.

Definition detachDebugger (tabId : TabId) (st : State) : Result * State :=
  if negb (is_attached st tabId) then (Success true, st)
  else
    match debugger_detach chrome (calls st) tabId with
    | None =>
        (Success false,
         set_debuggerAttached (delete tabId (debuggerAttached st))
           (call (DebuggerDetach tabId) st))
    | Some e => (Failure e, call (DebuggerDetach tabId) st)
    end.

(** [chrome.debugger.sendCommand] inside its [try]. *)
Definition issue (tabId : TabId) (method : string) (params : Json)
    (st : State) : Result * State :=
  match debugger_sendCommand chrome (calls st) tabId method params with
  | inr v => (Value v, call (DebuggerSendCommand tabId method params) st)
  | inl e => (Failure e, call (DebuggerSendCommand tabId method params) st)
  end.

Definition sendCDPCommand (tabId : TabId) (method : string) (params : Json)
    (st : State) : Result * State :=
  if negb (is_attached st tabId) then
    let '(attachResult, st1) := attachDebugger tabId st in
    if has_error attachResult then (attachResult, st1)
    else issue tabId method params st1
  else issue tabId method params st.

(** [tabData?.domains?.add(domain)]: [tabData] is what
    [debuggerAttached.get(tabId)] returned when [enableCDPDomain] started.
    When it was [undefined] nothing is added; otherwise it is the object
    under [tabId] in the map, which no step of the call replaces. *)
Definition record_domain (tabData : option DebugSession) (tabId : TabId)
    (domain : string) (st : State) : State :=
  match tabData with
  | Some _ =>
      set_debuggerAttached
        (alter (λ d, mkSession (attached d) ({[domain]} ∪ domains d)) tabId
           (debuggerAttached st)) st
  | None => st
  end.

Definition enableCDPDomain (tabId : TabId) (domain : string)
    (st : State) : Result * State :=
  let tabData := debuggerAttached st !! tabId in
  let enabled :=
    match tabData with
    | Some d => bool_decide (domain ∈ domains d)
    | None => false
    end in
  if enabled then (Success true, st)
  else
    let '(result, st1) := sendCDPCommand tabId (domain +:+ ".enable") "{}" st in
    if negb (has_error result) then (result, record_domain tabData tabId domain st1)
    else (result, st1).

(** ** Tools built on the manager *)

Definition startNetworkMonitoring (tabId : TabId) (st : State) : Result * State :=
  let '(_, st1) := enableCDPDomain tabId "Network" st in
  (SuccessMessage "Network monitoring started",
   set_networkRequests (<[tabId := []]> (networkRequests st1)) st1).

Definition getNetworkRequests (tabId : TabId) (st : State) : Result * State :=
  (Requests (default [] (networkRequests st !! tabId)), st).

Definition startCPUProfile (tabId : TabId) (st : State) : Result * State :=
  let '(_, st1) := enableCDPDomain tabId "Profiler" st in
  let '(_, st2) := sendCDPCommand tabId "Profiler.start" "{}" st1 in
  (SuccessMessage "CPU profiling started", st2).

Definition stopCPUProfile (tabId : TabId) (st : State) : Result * State :=
  let '(profile, st1) := sendCDPCommand tabId "Profiler.stop" "{}" st in
  (Profile profile, st1).

(** ** Listeners *)

(** [if (list.length > bound) list.shift()] after a [push] *)
Definition bounded {A} (bound : nat) (l : list A) : list A :=
  if decide (bound < length l) then tail l else l.

(** [requests.find(r => r.requestId === id)], then the assignment of the
    response fields to the object found. *)
Fixpoint set_response (id : string) (resp : Json) (l : list NetRequest)
    : list NetRequest :=
  match l with
  | [] => []
  | r :: l' =>
      if decide (requestId r = id)
      then mkNetRequest (requestId r) (request r) (Some resp) :: l'
      else r :: set_response id resp l'
  end.

(** The listener of [chrome.debugger.onEvent] installed when the module
    loads. *)
Definition onDebuggerEvent (ev : DebuggerEvent) (st : State) : State :=
  let tabId := source ev in
  match event ev with
  | NetworkRequestWillBeSent id params =>
      let requests := default [] (networkRequests st !! tabId) in
      let requests := bounded 100 (requests ++ [mkNetRequest id params None]) in
      set_networkRequests (<[tabId := requests]> (networkRequests st)) st
  | NetworkResponseReceived id params =>
      set_networkRequests
        (alter (set_response id params) tabId (networkRequests st)) st
  | RuntimeConsoleAPICalled type params =>
      let logs := default [] (consoleLogs st !! tabId) in
      let logs := bounded 100 (logs ++ [LogCall type params]) in
      set_consoleLogs (<[tabId := logs]> (consoleLogs st)) st
  | RuntimeExceptionThrown params =>
      let logs := default [] (consoleLogs st !! tabId) in
      set_consoleLogs (<[tabId := logs ++ [LogException params]]> (consoleLogs st)) st
  | AnimationCreated params | AnimationStarted params =>
      let anims := default [] (animations st !! tabId) in
      let anims := bounded 50 (anims ++ [params]) in
      set_animations (<[tabId := anims]> (animations st)) st
  | ConsoleMessageAdded _ _ | OtherEvent _ _ => st
  end.

(** The listener of [chrome.tabs.onRemoved]. *)
Definition onTabRemoved (tabId : TabId) (st : State) : State :=
  let st :=
    match debuggerAttached st !! tabId with
    | Some _ => set_debuggerAttached (delete tabId (debuggerAttached st)) st
    | None => st
    end in
  let st := set_networkRequests (delete tabId (networkRequests st)) st in
  let st := set_consoleLogs (delete tabId (consoleLogs st)) st in
  set_animations (delete tabId (animations st)) st.

(** The listener of [chrome.debugger.onDetach]. *)
Definition onDebuggerDetach (tabId : TabId) (st : State) : State :=
  set_debuggerAttached (delete tabId (debuggerAttached st)) st.

(** ** Extension error capture *)

(** [errorHandler], the listener [captureExtensionErrors] installs for the
    tab it opened; [store] is the object under the extension id. *)
Definition errorHandler (tab : TabId) (ev : DebuggerEvent)
    (store : ErrorStore) : ErrorStore :=
  if decide (source ev = tab) then
    match event ev with
    | RuntimeExceptionThrown params =>
        mkStore (errors store ++ [ExceptionError (clock ev) params])
          (console store) (store_tabId store)
    | ConsoleMessageAdded level params =>
        mkStore (errors store)
          (console store ++ [mkConsoleEntry (clock ev) level params])
          (store_tabId store)
    | RuntimeConsoleAPICalled type params =>
        mkStore (errors store)
          (console store ++ [mkConsoleEntry (clock ev) type params])
          (store_tabId store)
    | _ => store
    end
  else store.

(** An event that arrives while [errorHandler] is installed reaches both
    listeners. *)
Definition deliver (tab : TabId) (extensionId : string) (ev : DebuggerEvent)
    (st : State) : State :=
  let st := onDebuggerEvent ev st in
  set_extensionErrorStore
    (alter (errorHandler tab ev) extensionId (extensionErrorStore st)) st.

Definition extension_url (extensionId path : string) : string :=
  "chrome-extension://" +:+ extensionId +:+ "/" +:+ path.

Definition page_url (extensionId pagePath : string) (extInfo : ExtensionInfo)
    : string :=
  if decide (pagePath = "popup") then extension_url extensionId "popup.html"
  else if decide (pagePath = "options") then
    (if truthy (optionsUrl extInfo) then optionsUrl extInfo
     else extension_url extensionId "options.html")
  else if decide (pagePath = "background" ∨ pagePath = "service_worker") then
    extension_url extensionId "_generated_background_page.html"
  else extension_url extensionId pagePath.

(** The [params] of the [Runtime.evaluate] probe. *)
Definition probe : Json :=
  "{expression: window.__lastError, chrome.runtime.lastError; returnByValue: true}".

(** [evalResult?.result?.value] as an array of messages; empty when the
    reply has none. *)
Variable probe_values : Json → list string.

Definition probe_errors (evalResult : Result) (now : N) : list ErrorEntry :=
  match evalResult with
  | Value v => map (RuntimeError now) (probe_values v)
  | _ => []
  end.

(** What happens around one capture besides the calls to the browser: the
    events that arrive before and while [errorHandler] is installed, and the
    clock when the probe's reply is read. *)
Record Window := mkWindow {
  early : list DebuggerEvent;
  during : list DebuggerEvent;
  probe_clock : N
}.

(** [c.level === 'error' || c.level === 'warning'] *)
Definition error_or_warning (c : ConsoleEntry) : bool :=
  bool_decide (level c = "error") || bool_decide (level c = "warning").

(** The object returned at the end of a capture. *)
Definition capture_report (extensionId : string) (extInfo : ExtensionInfo)
    (pagePath : string) (st : State) : Result :=
  match extensionErrorStore st !! extensionId with
  | Some store =>
      Captured extensionId (ext_name extInfo) pagePath (errors store)
        (filter (λ c, error_or_warning c = true) (console store))
        (length (errors store)) (length (console store))
  | None => Failure "Cannot read properties of undefined (reading 'errors')"
  end.

Definition error_of (r : Result) : string :=
  match r with Failure e => e | _ => "undefined" end.

Definition captureExtensionErrors (extensionId : option string)
    (options : Params) (w : Window) (st : State) : Result * State :=
  match extensionId with
  | None => (Failure "Extension ID is required", st)
  | Some extId =>
    if negb (truthy extId) then (Failure "Extension ID is required", st)
    else
    match management_get chrome (calls st) extId with
    | inl e => (Failure e, call (ManagementGet extId) st)
    | inr extInfo =>
      let st := call (ManagementGet extId) st in
      let pagePath :=
        match p_page options with
        | Some p => if truthy p then p else "popup"
        | None => "popup"
        end in
      let pageUrl := page_url extId pagePath extInfo in
      match tabs_create chrome (calls st) pageUrl with
      | inl e => (Failure e, call (TabsCreate pageUrl) st)
      | inr tab =>
        let st := call (TabsCreate pageUrl) st in
        let st := foldl (λ acc ev, onDebuggerEvent ev acc) st (early w) in
        let '(attachResult, st) := attachDebugger tab st in
        if has_error attachResult then
          match tabs_remove chrome (calls st) tab with
          | None =>
              (Failure ("Failed to attach debugger: " +:+ error_of attachResult),
               call (TabsRemove tab) st)
          | Some e => (Failure e, call (TabsRemove tab) st)
          end
        else
        let '(_, st) := sendCDPCommand tab "Console.enable" "{}" st in
        let '(_, st) := sendCDPCommand tab "Runtime.enable" "{}" st in
        let st :=
          match extensionErrorStore st !! extId with
          | Some _ => st
          | None =>
              set_extensionErrorStore
                (<[extId := mkStore [] [] (Some tab)]> (extensionErrorStore st)) st
          end in
        let st :=
          set_extensionErrorStore
            (alter (λ s, mkStore (errors s) (console s) (Some tab)) extId
               (extensionErrorStore st)) st in
        let st := foldl (λ acc ev, deliver tab extId ev acc) st (during w) in
        let '(evalResult, st) := sendCDPCommand tab "Runtime.evaluate" probe st in
        let st :=
          set_extensionErrorStore
            (alter (λ s, mkStore (errors s ++ probe_errors evalResult (probe_clock w))
                           (console s) (store_tabId s)) extId
               (extensionErrorStore st)) st in
        if bool_decide (p_closeTab options = Some false) then
          (capture_report extId extInfo pagePath st, st)
        else
          let '(_, st) := detachDebugger tab st in
          match tabs_remove chrome (calls st) tab with
          | None => (capture_report extId extInfo pagePath (call (TabsRemove tab) st),
                     call (TabsRemove tab) st)
          | Some e => (Failure e, call (TabsRemove tab) st)
          end
      end
    end
  end.

(** ** The dispatcher *)

(** The tools whose [case] is not spelled out below: content-script
    forwarding, extension management, the remaining CDP tools, and the
    [default] case. *)
Variable other_tool : string → Params → option TabId → State → Result * State.

(** [tab.id] inside the [try] of [executeToolCall]: reading it from [null]
    throws, and the [catch] returns the message. *)
Definition with_tab (tab : option TabId) (st : State)
    (k : TabId → Result * State) : Result * State :=
  match tab with
  | Some id => k id
  | None => (Failure "Cannot read properties of null (reading 'id')", st)
  end.

(** The [switch (tool)] of [executeToolCall]. *)
Definition dispatch (tool : string) (params : Params) (w : Window)
    (tab : option TabId) (st : State) : Result * State :=
  if decide (tool = "capture_extension_errors") then
    captureExtensionErrors (p_extensionId params) params w st
  else if decide (tool = "clear_extension_errors") then
    match p_extensionId params with
    | Some extId =>
        (SuccessMessage ("Cleared errors for " +:+ extId),
         set_extensionErrorStore (delete extId (extensionErrorStore st)) st)
    | None => (SuccessMessage "Cleared errors for undefined", st)
    end
  else if decide (tool = "cdp_attach") then
    with_tab tab st (λ id, attachDebugger id st)
  else if decide (tool = "cdp_detach") then
    with_tab tab st (λ id, detachDebugger id st)
  else if decide (tool = "cdp_command") then
    with_tab tab st (λ id, sendCDPCommand id (p_method params) (p_params params) st)
  else if decide (tool = "start_network_monitor") then
    with_tab tab st (λ id, startNetworkMonitoring id st)
  else if decide (tool = "get_network_requests") then
    with_tab tab st (λ id, getNetworkRequests id st)
  else if decide (tool = "start_cpu_profile") then
    with_tab tab st (λ id, startCPUProfile id st)
  else if decide (tool = "stop_cpu_profile") then
    with_tab tab st (λ id, stopCPUProfile id st)
  else other_tool tool params tab st.

(** The second gate of [executeToolCall] and what follows it. *)
Definition with_target (tool : string) (params : Params) (w : Window)
    (st : State) : Result * State :=
  if negb (includes noTabRequired tool) then
    match tabs_query_active chrome (calls st) with
    | None => (Failure "No active tab", call TabsQueryActive st)
    | Some activeTab => dispatch tool params w (Some activeTab) (call TabsQueryActive st)
    end
  else dispatch tool params w None st.

Definition executeToolCall (tool : string) (params : Params) (w : Window)
    (st : State) : Result * State :=
  if negb (agentEnabled st) && negb (includes noAgentRequired tool) then
    (Failure "Agent control is disabled", st)
  else with_target tool params w st.

(** ** What can happen to the agent *)

Inductive Action :=
| Tool (tool : string) (params : Params) (w : Window)
| Capture (extensionId : option string) (options : Params) (w : Window)
| Attach (tabId : TabId)
| Detach (tabId : TabId)
| SendCommand (tabId : TabId) (method : string) (params : Json)
| EnableDomain (tabId : TabId) (domain : string)
| TabRemoved (tabId : TabId)
| DebuggerDetached (tabId : TabId)
| DebuggerEventArrived (ev : DebuggerEvent)
| SetAgentEnabled (enabled : bool).

Definition step (a : Action) (st : State) : State :=
  match a with
  | Tool tool params w => (executeToolCall tool params w st).2
  | Capture extensionId options w => (captureExtensionErrors extensionId options w st).2
  | Attach tabId => (attachDebugger tabId st).2
  | Detach tabId => (detachDebugger tabId st).2
  | SendCommand tabId method params => (sendCDPCommand tabId method params st).2
  | EnableDomain tabId domain => (enableCDPDomain tabId domain st).2
  | TabRemoved tabId => onTabRemoved tabId st
  | DebuggerDetached tabId => onDebuggerDetach tabId st
  | DebuggerEventArrived ev => onDebuggerEvent ev st
  | SetAgentEnabled enabled => set_agentEnabled enabled st
  end.

(** The tools whose [case] is spelled out in [dispatch]. *)
Definition spelled_out : list string :=
  ["capture_extension_errors"; "clear_extension_errors"; "cdp_attach";
   "cdp_detach"; "cdp_command"; "start_network_monitor";
   "get_network_requests"; "start_cpu_profile"; "stop_cpu_profile"].

(** [a] is the tool call that clears the store of [extensionId]. *)
Definition clears (extensionId : string) (a : Action) : Prop :=
  match a with
  | Tool tool params _ =>
      tool = "clear_extension_errors" ∧ p_extensionId params = Some extensionId
  | _ => False
  end.

(** [a] runs code of this file only. *)
Definition known (a : Action) : Prop :=
  match a with
  | Tool tool _ _ => tool ∈ spelled_out
  | _ => True
  end.

(** The entries [errorHandler] appends for the events of one window. *)
Definition window_errors (tab : TabId) (evs : list DebuggerEvent) : list ErrorEntry :=
  flat_map (λ ev,
    if decide (source ev = tab) then
      match event ev with
      | RuntimeExceptionThrown params => [ExceptionError (clock ev) params]
      | _ => []
      end
    else []) evs.

Definition window_console (tab : TabId) (evs : list DebuggerEvent) : list ConsoleEntry :=
  flat_map (λ ev,
    if decide (source ev = tab) then
      match event ev with
      | ConsoleMessageAdded level params => [mkConsoleEntry (clock ev) level params]
      | RuntimeConsoleAPICalled type params => [mkConsoleEntry (clock ev) type params]
      | _ => []
      end
    else []) evs.

(** The entries an extension has before a capture: those of its store, or
    none when it has no store. *)
Definition errors_before (st : State) (extId : string) : list ErrorEntry :=
  match extensionErrorStore st !! extId with Some s => errors s | None => [] end.

Definition console_before (st : State) (extId : string) : list ConsoleEntry :=
  match extensionErrorStore st !! extId with Some s => console s | None => [] end.

(** The store of [extId], once it exists, is only appended to. *)
Definition grows (extId : string) (st st' : State) : Prop :=
  ∀ s, extensionErrorStore st !! extId = Some s →
    ∃ s', extensionErrorStore st' !! extId = Some s' ∧
          errors s `prefix_of` errors s' ∧ console s `prefix_of` console s'.

(** The bounds the [onEvent] listener enforces with [shift]: 100 requests
    and 50 animations per tab. *)
Definition logs_bounded (st : State) : Prop :=
  (∀ tab l, networkRequests st !! tab = Some l → length l ≤ 100) ∧
  (∀ tab l, animations st !! tab = Some l → length l ≤ 50).

(** A run of the agent from the state in which the module is loaded. *)
Definition steps (acts : list Action) (st : State) : State :=
  foldl (λ acc a, step a acc) st acts.

(** [n] exceptions thrown in tab [tabId]. *)
Definition exceptions (n : nat) (tabId : TabId) (detail : Json)
    : list DebuggerEvent :=
  replicate n (mkEvent tabId 0 (RuntimeExceptionThrown detail)).

(** [array.slice(-n)] *)
Definition last_n {A} (n : nat) (l : list A) : list A :=
  drop (length l - n) l.

(** What [getExtensionConsole] returns. *)
Inductive ConsoleReply :=
| ConsoleData (extensionId : string) (entries : list ConsoleEntry) (total : nat)
| ConsoleMissing (error hint : string).

Definition no_console_data : ConsoleReply :=
  ConsoleMissing "No console data captured. Run capture_extension_errors first."
    "Use capture_extension_errors to start monitoring an extension".

(** [getExtensionConsole(extensionId, options)]; [wanted] is
    [options.level]. *)
Definition getExtensionConsole (extensionId : option string)
    (wanted : option string) (st : State) : ConsoleReply :=
  match extensionId with
  | None => no_console_data
  | Some x =>
      match extensionErrorStore st !! x with
      | None => no_console_data
      | Some store =>
          let logs := console store in
          let logs :=
            match wanted with
            | Some lv =>
                if truthy lv then filter (λ l, level l = lv) logs else logs
            | None => logs
            end in
          ConsoleData x (last_n 50 logs) (length logs)
      end
  end.

(** The ids of the [Network.requestWillBeSent] events of [tabId] among
    [evs], in order. *)
Definition request_ids (tabId : TabId) (evs : list DebuggerEvent) : list string :=
  omap (λ ev, match event ev with
              | NetworkRequestWillBeSent id _ =>
                  if decide (source ev = tabId) then Some id else None
              | _ => None
              end) evs.

(** [networkRequests.get(tabId) || []] *)
Definition request_log (tabId : TabId) (st : State) : list NetRequest :=
  default [] (networkRequests st !! tabId).

Ltac ag_simpl :=
  cbn [agentEnabled debuggerAttached networkRequests consoleLogs animations
       extensionErrorStore calls set_agentEnabled set_debuggerAttached
       set_networkRequests set_consoleLogs set_animations
       set_extensionErrorStore call fst snd] in *.

Lemma agent_state_eq st st' :
  agentEnabled st = agentEnabled st' → debuggerAttached st = debuggerAttached st' →
  networkRequests st = networkRequests st' → consoleLogs st = consoleLogs st' →
  animations st = animations st' → extensionErrorStore st = extensionErrorStore st' →
  calls st = calls st' → st = st'.
Proof. destruct st, st'; cbn; intros; by subst. Qed.

(** ** Attach and detach *)

Lemma attach_when_attached tabId st :
  is_attached st tabId = true → attachDebugger tabId st = (Success true, st).
Proof. intros H. unfold attachDebugger. by rewrite H. Qed.

Lemma detach_when_detached tabId st :
  is_attached st tabId = false → detachDebugger tabId st = (Success true, st).
Proof. intros H. unfold detachDebugger. by rewrite H. Qed.

Lemma is_attached_insert tabId d m st :
  attached d = true →
  is_attached (set_debuggerAttached (<[tabId := d]> m) st) tabId = true.
Proof. intros H. unfold is_attached. ag_simpl. by rewrite lookup_insert_eq. Qed.

Lemma is_attached_delete tabId m st :
  is_attached (set_debuggerAttached (delete tabId m) st) tabId = false.
Proof. unfold is_attached. ag_simpl. by rewrite lookup_delete_eq. Qed.

(** C6, as amended.  Two calls of [attachDebugger] in a row.  When the
    first returns success (its [already] flag tells whether the tab was
    attached before), the second returns success with [already: true] and
    changes nothing, the tab is attached, and the two calls together call
    [chrome.debugger.attach] once if the tab was not attached before and
    not at all if it was.  When the first returns an error, the tab was not
    attached and [chrome.debugger.attach] rejected with that message; the
    tab is still not attached, and the second call attaches again: the two
    calls make two calls of [chrome.debugger.attach].  The first call
    returns one or the other. *)
Theorem attach_idempotent tabId st :
  let first := attachDebugger tabId st in
  let second := attachDebugger tabId first.2 in
  (∀ already,
     first.1 = Success already →
     already = is_attached st tabId ∧
     second = (Success true, first.2) ∧
     is_attached first.2 tabId = true ∧
     calls second.2 =
       calls st ++ (if already then [] else [DebuggerAttach tabId])) ∧
  (∀ e,
     first.1 = Failure e →
     is_attached st tabId = false ∧
     debugger_attach chrome (calls st) tabId = Some e ∧
     first.2 = call (DebuggerAttach tabId) st ∧
     is_attached first.2 tabId = false ∧
     calls second.2 = calls st ++ [DebuggerAttach tabId; DebuggerAttach tabId]) ∧
  ((∃ already, first.1 = Success already) ∨ (∃ e, first.1 = Failure e)).
Proof.
  intros first second. unfold second, first. clear first second.
  destruct (is_attached st tabId) eqn:Ha.
  - rewrite (attach_when_attached tabId st Ha). cbn [fst snd].
    rewrite (attach_when_attached tabId st Ha). split_and!.
    + intros already [= <-]. split_and!; try done. cbn [snd].
      by rewrite app_nil_r.
    + by intros e.
    + left. by eexists.
  - destruct (debugger_attach chrome (calls st) tabId) as [e|] eqn:Hb.
    + assert (E1 : attachDebugger tabId st =
                     (Failure e, call (DebuggerAttach tabId) st))
        by (unfold attachDebugger; by rewrite Ha, Hb).
      rewrite E1. cbn [fst snd]. split_and!.
      * by intros already.
      * assert (Hc : is_attached (call (DebuggerAttach tabId) st) tabId = false)
          by exact Ha.
        intros e' [= <-]. split_and!; try done.
        unfold attachDebugger. rewrite Hc.
        case_match; ag_simpl; by rewrite <- app_assoc.
      * right. by eexists.
    + assert (E1 : attachDebugger tabId st =
                     (Success false,
                      set_debuggerAttached
                        (<[tabId := mkSession true ∅]> (debuggerAttached st))
                        (call (DebuggerAttach tabId) st)))
        by (unfold attachDebugger; by rewrite Ha, Hb).
      rewrite E1. cbn [fst snd].
      assert (Hi : is_attached
                     (set_debuggerAttached
                        (<[tabId := mkSession true ∅]> (debuggerAttached st))
                        (call (DebuggerAttach tabId) st)) tabId = true)
        by (by apply is_attached_insert).
      rewrite (attach_when_attached _ _ Hi). split_and!.
      * intros already [= <-]. by split_and!.
      * by intros e.
      * left. by eexists.
Qed.

(** C10.  On a tab with no attached session [detachDebugger] returns
    success with [already: true], changes nothing and does not call
    [chrome.debugger.detach].  Hence a detach that follows a successful
    detach is such a call: the two together do what the first did. *)
Theorem detach_idempotent tabId st :
  is_attached st tabId = false →
  detachDebugger tabId st = (Success true, st) ∧
  ∀ st0 already,
    (detachDebugger tabId st0).1 = Success already →
    detachDebugger tabId (detachDebugger tabId st0).2 =
      (Success true, (detachDebugger tabId st0).2).
Proof.
  intros Hd. split; [by apply detach_when_detached|].
  intros st0 already Hs. apply detach_when_detached.
  revert Hs. unfold detachDebugger.
  destruct (is_attached st0 tabId) eqn:Ha; cbn [negb fst snd]; [|done].
  destruct (debugger_detach chrome (calls st0) tabId); [done|].
  intros _. cbn [snd]. apply is_attached_delete.
Qed.

(** C9.  The [chrome.tabs.onRemoved] listener deletes the key [tabId] from
    [debuggerAttached], [networkRequests], [consoleLogs] and [animations],
    and nothing else: other tabs keep their entries, [extensionErrorStore]
    and [agentEnabled] are as before, and the browser is not called. *)
Theorem tab_close_purges_tab_only tabId st :
  let st' := onTabRemoved tabId st in
  debuggerAttached st' = delete tabId (debuggerAttached st) ∧
  networkRequests st' = delete tabId (networkRequests st) ∧
  consoleLogs st' = delete tabId (consoleLogs st) ∧
  animations st' = delete tabId (animations st) ∧
  extensionErrorStore st' = extensionErrorStore st ∧
  agentEnabled st' = agentEnabled st ∧
  calls st' = calls st.
Proof.
  unfold onTabRemoved.
  destruct (debuggerAttached st !! tabId) eqn:E; ag_simpl; split_and!; try done.
  symmetry. by apply delete_id.
Qed.

(** ** The gates of [executeToolCall] *)

(** C7.  With [agentEnabled] false, a tool outside [noAgentRequired] gets
    the permission error and nothing happens: the state is unchanged and no
    tool code runs.  Past that gate, a tool outside [noTabRequired] with no
    active tab gets the no-target error after the one [chrome.tabs.query],
    and again no tool code runs.  A tool in [noAgentRequired] passes the
    first gate whatever [agentEnabled] is, and a tool in [noTabRequired]
    reaches the [switch] without any tab being looked up. *)
Theorem gates_before_work tool params w st :
  (agentEnabled st = false → includes noAgentRequired tool = false →
     executeToolCall tool params w st = (Failure "Agent control is disabled", st)) ∧
  (agentEnabled st = true ∨ includes noAgentRequired tool = true →
     includes noTabRequired tool = false →
     tabs_query_active chrome (calls st) = None →
     executeToolCall tool params w st =
       (Failure "No active tab", call TabsQueryActive st)) ∧
  (includes noAgentRequired tool = true →
     executeToolCall tool params w st = with_target tool params w st) ∧
  (includes noTabRequired tool = true →
     with_target tool params w st = dispatch tool params w None st).
Proof.
  unfold executeToolCall, with_target. split_and!.
  - by intros -> ->.
  - intros Hg -> ->. by destruct Hg as [-> | ->]; rewrite ?andb_false_r.
  - intros ->. by rewrite andb_false_r.
  - by intros ->.
Qed.

(** ** Commands and domains *)

Lemma issue_calls tabId method params st :
  calls (issue tabId method params st).2 =
    calls st ++ [DebuggerSendCommand tabId method params] ∧
  debuggerAttached (issue tabId method params st).2 = debuggerAttached st.
Proof. unfold issue. by destruct (debugger_sendCommand _ _ _ _ _). Qed.

Lemma sendCDPCommand_attached tabId method params st :
  is_attached st tabId = true →
  sendCDPCommand tabId method params st = issue tabId method params st.
Proof. intros H. unfold sendCDPCommand. by rewrite H. Qed.

Lemma is_attached_call c st tabId : is_attached (call c st) tabId = is_attached st tabId.
Proof. done. Qed.

Lemma is_attached_issue tabId' method params st tabId :
  is_attached (issue tabId' method params st).2 tabId = is_attached st tabId.
Proof. unfold issue. by destruct (debugger_sendCommand _ _ _ _ _). Qed.

(** [enableCDPDomain] on a tab whose session exists and is attached, for a
    domain the session does not record: [domain.enable] is issued and
    nothing else; when the command does not fail the domain is recorded in
    the session and a further call returns [already: true]; when it fails
    the sessions are as before. *)
Lemma enable_records_domain tabId d domain st :
  debuggerAttached st !! tabId = Some d → attached d = true →
  domain ∉ domains d →
  let e := enableCDPDomain tabId domain st in
  calls e.2 = calls st ++ [DebuggerSendCommand tabId (domain +:+ ".enable") "{}"] ∧
  (has_error e.1 = false →
     debuggerAttached e.2 =
       <[tabId := mkSession true ({[domain]} ∪ domains d)]> (debuggerAttached st) ∧
     enableCDPDomain tabId domain e.2 = (Success true, e.2)) ∧
  (has_error e.1 = true → debuggerAttached e.2 = debuggerAttached st).
Proof.
  clear probe_values other_tool.
  intros Hd Hatt Hnin e.
  assert (Ha : is_attached st tabId = true) by (unfold is_attached; by rewrite Hd).
  unfold e, enableCDPDomain. rewrite Hd.
  rewrite bool_decide_eq_false_2 by done.
  rewrite sendCDPCommand_attached by done.
  destruct (issue tabId (domain +:+ ".enable") "{}" st) as [result st1] eqn:Ei.
  destruct (issue_calls tabId (domain +:+ ".enable") "{}" st) as [Ec Ed].
  rewrite Ei in Ec, Ed. cbn [snd] in Ec, Ed.
  destruct (has_error result) eqn:Herr; cbn [negb fst snd].
  - split_and!; try done. intros ?; congruence.
  - unfold record_domain. ag_simpl. split_and!; try done;
      [|intros ?; congruence].
    intros _. split.
    + rewrite Ed. apply map_eq. intros i.
      destruct (decide (i = tabId)) as [->|Hne].
      * rewrite lookup_alter_eq, lookup_insert_eq, Hd. cbn. by rewrite Hatt.
      * by rewrite lookup_alter_ne, lookup_insert_ne.
    + rewrite Ed, lookup_alter_eq, Hd. cbn.
      rewrite bool_decide_eq_true_2; [done|set_solver].
Qed.

(** C5, as amended.  [sendCDPCommand] attaches the debugger when the tab is
    not attached and then issues the requested command and no other: no
    enable command goes out before it, on the first command of a domain or
    on a later one; when the attach fails it returns that error and issues
    nothing.  The enable command of a domain comes from [enableCDPDomain].
    For a domain that the session of the tab records, it returns
    [already: true], issues nothing and changes nothing.  For a domain
    that is not recorded, or on a tab with no session, it returns what
    [sendCDPCommand] returns for [domain.enable] and makes the same calls.
    On a tab whose session exists and is attached, that is the one call
    of [domain.enable]; when it does not fail the domain is recorded in the
    session, and a further call returns [already: true]. *)
Theorem domain_enabled_once tabId st :
  (∀ method params,
     let r := sendCDPCommand tabId method params st in
     if is_attached st tabId then
       calls r.2 = calls st ++ [DebuggerSendCommand tabId method params]
     else
       match debugger_attach chrome (calls st) tabId with
       | None =>
           calls r.2 = calls st ++ [DebuggerAttach tabId;
                                    DebuggerSendCommand tabId method params] ∧
           is_attached r.2 tabId = true
       | Some e =>
           truthy e = true → r = (Failure e, call (DebuggerAttach tabId) st)
       end) ∧
  (∀ d domain,
     debuggerAttached st !! tabId = Some d → domain ∈ domains d →
     enableCDPDomain tabId domain st = (Success true, st)) ∧
  (∀ domain,
     (∀ d, debuggerAttached st !! tabId = Some d → domain ∉ domains d) →
     let e := enableCDPDomain tabId domain st in
     let s := sendCDPCommand tabId (domain +:+ ".enable") "{}" st in
     e.1 = s.1 ∧ calls e.2 = calls s.2) ∧
  (∀ d domain,
     debuggerAttached st !! tabId = Some d → attached d = true →
     domain ∉ domains d →
     let e := enableCDPDomain tabId domain st in
     calls e.2 = calls st ++ [DebuggerSendCommand tabId (domain +:+ ".enable") "{}"] ∧
     (has_error e.1 = false →
        debuggerAttached e.2 =
          <[tabId := mkSession true ({[domain]} ∪ domains d)]> (debuggerAttached st) ∧
        enableCDPDomain tabId domain e.2 = (Success true, e.2)) ∧
     (has_error e.1 = true → debuggerAttached e.2 = debuggerAttached st)).
Proof.
  clear probe_values other_tool.
  split_and!.
  - intros method params r. unfold r, sendCDPCommand.
    destruct (is_attached st tabId) eqn:Ha; cbn [negb].
    + apply issue_calls.
    + unfold attachDebugger. rewrite Ha.
      destruct (debugger_attach chrome (calls st) tabId) as [e|]; cbn [has_error].
      * by intros ->.
      * split.
        -- destruct (issue_calls tabId method params
             (set_debuggerAttached (<[tabId:=mkSession true ∅]> (debuggerAttached st))
                (call (DebuggerAttach tabId) st))) as [-> _].
           ag_simpl. by rewrite <- app_assoc.
        -- rewrite is_attached_issue. by apply is_attached_insert.
  - intros d domain Hd Hin. unfold enableCDPDomain. rewrite Hd.
    by rewrite bool_decide_eq_true_2.
  - intros domain Hnin e s. unfold e, s, enableCDPDomain.
    assert (En : match debuggerAttached st !! tabId with
                 | Some d => bool_decide (domain ∈ domains d)
                 | None => false
                 end = false).
    { destruct (debuggerAttached st !! tabId) as [d|]; [|done].
      apply bool_decide_eq_false_2. by apply Hnin. }
    rewrite En.
    destruct (sendCDPCommand tabId (domain +:+ ".enable") "{}" st)
      as [result st1].
    destruct (has_error result); cbn [negb fst snd]; [done|].
    split; [done|]. unfold record_domain.
    by destruct (debuggerAttached st !! tabId).
  - intros d domain. apply enable_records_domain.
Qed.

(** ** The extension error store *)

(** What leaves [extensionErrorStore] alone. *)
Lemma attachDebugger_store tabId st :
  extensionErrorStore (attachDebugger tabId st).2 = extensionErrorStore st.
Proof. unfold attachDebugger. by repeat case_match. Qed.

Lemma detachDebugger_store tabId st :
  extensionErrorStore (detachDebugger tabId st).2 = extensionErrorStore st.
Proof. unfold detachDebugger. by repeat case_match. Qed.

Lemma issue_store tabId method params st :
  extensionErrorStore (issue tabId method params st).2 = extensionErrorStore st.
Proof. unfold issue. by repeat case_match. Qed.

Lemma sendCDPCommand_store tabId method params st :
  extensionErrorStore (sendCDPCommand tabId method params st).2 = extensionErrorStore st.
Proof.
  unfold sendCDPCommand. destruct (negb _); [|apply issue_store].
  pose proof (attachDebugger_store tabId st) as E.
  destruct (attachDebugger tabId st) as [r st1]. cbn [snd] in E.
  destruct (has_error r); [done|]. by rewrite issue_store.
Qed.

Lemma enableCDPDomain_store tabId domain st :
  extensionErrorStore (enableCDPDomain tabId domain st).2 = extensionErrorStore st.
Proof.
  unfold enableCDPDomain. destruct (match _ with Some _ => _ | None => _ end); [done|].
  pose proof (sendCDPCommand_store tabId (domain +:+ ".enable") "{}" st) as E.
  destruct (sendCDPCommand _ _ _ st) as [r st1]. cbn [snd] in E.
  destruct (negb _); [|done]. unfold record_domain. by destruct (_ !! _).
Qed.

Lemma onDebuggerEvent_store ev st :
  extensionErrorStore (onDebuggerEvent ev st) = extensionErrorStore st.
Proof. unfold onDebuggerEvent. by destruct (event ev). Qed.

Lemma onDebuggerEvents_store evs st :
  extensionErrorStore (foldl (λ acc ev, onDebuggerEvent ev acc) st evs) =
    extensionErrorStore st.
Proof.
  revert st. induction evs as [|ev evs IH]; intros st; [done|].
  cbn [foldl]. by rewrite IH, onDebuggerEvent_store.
Qed.

Lemma errorHandler_appends tab ev store :
  errorHandler tab ev store =
    mkStore (errors store ++ window_errors tab [ev])
      (console store ++ window_console tab [ev]) (store_tabId store).
Proof.
  unfold errorHandler, window_errors, window_console. cbn [flat_map].
  destruct store as [es cs t]. cbn [errors console store_tabId].
  case_decide; [|by rewrite !app_nil_r].
  by destruct (event ev); cbn; rewrite ?app_nil_r.
Qed.

Lemma window_errors_cons tab ev evs :
  window_errors tab (ev :: evs) = window_errors tab [ev] ++ window_errors tab evs.
Proof. unfold window_errors. cbn [flat_map]. by rewrite app_nil_r. Qed.

Lemma window_console_cons tab ev evs :
  window_console tab (ev :: evs) = window_console tab [ev] ++ window_console tab evs.
Proof. unfold window_console. cbn [flat_map]. by rewrite app_nil_r. Qed.

Lemma deliver_all tab extId evs st store :
  extensionErrorStore st !! extId = Some store →
  extensionErrorStore (foldl (λ acc ev, deliver tab extId ev acc) st evs) =
    <[extId := mkStore (errors store ++ window_errors tab evs)
                 (console store ++ window_console tab evs) (store_tabId store)]>
      (extensionErrorStore st).
Proof.
  revert st store. induction evs as [|ev evs IH]; intros st store Hs.
  - cbn. rewrite !app_nil_r. symmetry. apply insert_id. by destruct store.
  - cbn [foldl].
    assert (Hd : extensionErrorStore (deliver tab extId ev st) =
                   <[extId := errorHandler tab ev store]> (extensionErrorStore st)).
    { unfold deliver. ag_simpl. rewrite onDebuggerEvent_store.
      apply map_eq. intros i. destruct (decide (i = extId)) as [->|Hne].
      - by rewrite lookup_alter_eq, lookup_insert_eq, Hs.
      - by rewrite lookup_alter_ne, lookup_insert_ne. }
    rewrite (IH _ (errorHandler tab ev store)) by (by rewrite Hd, lookup_insert_eq).
    rewrite Hd, insert_insert_eq. rewrite errorHandler_appends.
    cbn [errors console store_tabId].
    by rewrite (window_errors_cons tab ev evs), (window_console_cons tab ev evs),
      !app_assoc.
Qed.

Lemma capture_store extensionId options w st :
  let st' := (captureExtensionErrors extensionId options w st).2 in
  extensionErrorStore st' = extensionErrorStore st ∨
  ∃ extId tab r,
    extensionId = Some extId ∧
    extensionErrorStore st' =
      <[extId := mkStore
                   (errors_before st extId ++ window_errors tab (during w)
                      ++ probe_errors r (probe_clock w))
                   (console_before st extId ++ window_console tab (during w))
                   (Some tab)]> (extensionErrorStore st).
Proof.
  unfold captureExtensionErrors.
  destruct extensionId as [extId|]; [|by left].
  destruct (negb (truthy extId)); [by left|].
  destruct (management_get chrome (calls st) extId) as [e|extInfo]; [by left|].
  set (st0 := call (ManagementGet extId) st).
  set (pagePath := match p_page options with
                   | Some p => if truthy p then p else "popup"
                   | None => "popup" end).
  destruct (tabs_create chrome (calls st0) _) as [e|tab]; [by left|].
  set (st1 := foldl _ _ (early w)).
  assert (E1 : extensionErrorStore st1 = extensionErrorStore st)
    by (unfold st1; by rewrite onDebuggerEvents_store).
  pose proof (attachDebugger_store tab st1) as E2.
  destruct (attachDebugger tab st1) as [attachResult st2]. cbn [snd] in E2.
  destruct (has_error attachResult).
  { left. destruct (tabs_remove chrome (calls st2) tab); cbn; congruence. }
  pose proof (sendCDPCommand_store tab "Console.enable" "{}" st2) as E3.
  destruct (sendCDPCommand tab "Console.enable" "{}" st2) as [r3 st3]. cbn [snd] in E3.
  pose proof (sendCDPCommand_store tab "Runtime.enable" "{}" st3) as E4.
  destruct (sendCDPCommand tab "Runtime.enable" "{}" st3) as [r4 st4]. cbn [snd] in E4.
  assert (E04 : extensionErrorStore st4 = extensionErrorStore st) by congruence.
  set (st5 := match extensionErrorStore st4 !! extId with
              | Some _ => st4 | None => _ end).
  set (st6 := set_extensionErrorStore _ st5).
  set (s0 := mkStore (errors_before st extId) (console_before st extId) (Some tab)).
  assert (E6 : extensionErrorStore st6 = <[extId := s0]> (extensionErrorStore st)).
  { assert (E5 : extensionErrorStore st5 =
              match extensionErrorStore st !! extId with
              | Some _ => extensionErrorStore st
              | None => <[extId := mkStore [] [] (Some tab)]> (extensionErrorStore st)
              end).
    { unfold st5. rewrite E04.
      destruct (extensionErrorStore st !! extId); ag_simpl; by rewrite ?E04. }
    unfold st6, s0, errors_before, console_before. ag_simpl. rewrite E5.
    apply map_eq. intros i. destruct (decide (i = extId)) as [->|Hne].
    - rewrite lookup_alter_eq, lookup_insert_eq.
      destruct (extensionErrorStore st !! extId) as [s|] eqn:Hs.
      + by rewrite Hs.
      + by rewrite lookup_insert_eq.
    - rewrite lookup_alter_ne, lookup_insert_ne by done.
      destruct (extensionErrorStore st !! extId); [done|].
      by rewrite lookup_insert_ne. }
  set (st7 := foldl _ st6 (during w)).
  assert (E7 : extensionErrorStore st7 =
     <[extId := mkStore (errors s0 ++ window_errors tab (during w))
                  (console s0 ++ window_console tab (during w)) (store_tabId s0)]>
       (extensionErrorStore st)).
  { unfold st7. rewrite (deliver_all tab extId (during w) st6 s0)
      by (by rewrite E6, lookup_insert_eq).
    by rewrite E6, insert_insert_eq. }
  pose proof (sendCDPCommand_store tab "Runtime.evaluate" probe st7) as E8.
  destruct (sendCDPCommand tab "Runtime.evaluate" probe st7) as [evalResult st8].
  cbn [snd] in E8.
  set (st9 := set_extensionErrorStore _ st8).
  assert (E9 : extensionErrorStore st9 =
     <[extId := mkStore
                  (errors_before st extId ++ window_errors tab (during w)
                     ++ probe_errors evalResult (probe_clock w))
                  (console_before st extId ++ window_console tab (during w))
                  (Some tab)]> (extensionErrorStore st)).
  { unfold st9. ag_simpl. rewrite E8, E7. cbn [errors console store_tabId s0].
    apply map_eq. intros i. destruct (decide (i = extId)) as [->|Hne].
    - rewrite lookup_alter_eq, !lookup_insert_eq. cbn. by rewrite <- app_assoc.
    - by rewrite lookup_alter_ne, !lookup_insert_ne. }
  right. exists extId, tab, evalResult. split; [done|].
  destruct (bool_decide _); [done|].
  pose proof (detachDebugger_store tab st9) as E10.
  destruct (detachDebugger tab st9) as [r10 st10]. cbn [snd] in E10.
  destruct (tabs_remove chrome (calls st10) tab); cbn [snd]; ag_simpl; congruence.
Qed.

Lemma grows_same extId st st' :
  extensionErrorStore st' = extensionErrorStore st → grows extId st st'.
Proof. intros E s Hs. exists s. by rewrite E. Qed.

Lemma capture_grows extId extensionId options w st :
  grows extId st (captureExtensionErrors extensionId options w st).2.
Proof.
  destruct (capture_store extensionId options w st) as [E|(x & tab & r & -> & E)].
  - by apply grows_same.
  - intros s Hs. rewrite E. destruct (decide (x = extId)) as [->|Hne].
    + rewrite lookup_insert_eq. eexists. split; [done|].
      unfold errors_before, console_before. rewrite Hs. cbn [errors console].
      split; by apply prefix_app_r.
    + rewrite lookup_insert_ne by done. by exists s.
Qed.

Lemma startNetworkMonitoring_store tabId st :
  extensionErrorStore (startNetworkMonitoring tabId st).2 = extensionErrorStore st.
Proof.
  unfold startNetworkMonitoring.
  pose proof (enableCDPDomain_store tabId "Network" st) as E.
  by destruct (enableCDPDomain tabId "Network" st).
Qed.

Lemma startCPUProfile_store tabId st :
  extensionErrorStore (startCPUProfile tabId st).2 = extensionErrorStore st.
Proof.
  unfold startCPUProfile.
  pose proof (enableCDPDomain_store tabId "Profiler" st) as E.
  destruct (enableCDPDomain tabId "Profiler" st) as [r st1]. cbn [snd] in E.
  pose proof (sendCDPCommand_store tabId "Profiler.start" "{}" st1) as E'.
  destruct (sendCDPCommand tabId "Profiler.start" "{}" st1). cbn [snd] in *. congruence.
Qed.

Lemma stopCPUProfile_store tabId st :
  extensionErrorStore (stopCPUProfile tabId st).2 = extensionErrorStore st.
Proof.
  unfold stopCPUProfile.
  pose proof (sendCDPCommand_store tabId "Profiler.stop" "{}" st) as E.
  by destruct (sendCDPCommand tabId "Profiler.stop" "{}" st).
Qed.

Lemma dispatch_grows extId tool params w tab st :
  tool ∈ spelled_out →
  ¬ (tool = "clear_extension_errors" ∧ p_extensionId params = Some extId) →
  grows extId st (dispatch tool params w tab st).2.
Proof.
  intros Hk Hc. unfold dispatch.
  case_decide; [apply capture_grows|].
  case_decide.
  { destruct (p_extensionId params) as [x|] eqn:Hx; [|by apply grows_same].
    intros s Hs. exists s. split; [|done]. cbn [snd]. ag_simpl.
    rewrite lookup_delete_ne; [done|]. intros ->. by apply Hc. }
  unfold with_tab.
  repeat (case_decide;
          [destruct tab; apply grows_same; cbn [snd];
           first [done | apply attachDebugger_store | apply detachDebugger_store
                 | apply sendCDPCommand_store | apply startNetworkMonitoring_store
                 | apply startCPUProfile_store | apply stopCPUProfile_store]|]).
  exfalso. unfold spelled_out in Hk.
  repeat (apply elem_of_cons in Hk as [->|Hk]; [done|]).
  by apply elem_of_nil in Hk.
Qed.

(** C8.  While it is not cleared, the store of an extension only grows:
    every action of the agent other than the [clear_extension_errors] tool
    for that extension — a capture, a tab close, an attach or detach, a
    debugger event, any tool spelled out here — leaves each earlier entry
    of [errors] and [console] in place, in order, at the front.  The clear
    tool deletes the store, and a capture that finds no store ends with a
    store holding only what its own window produced. *)
Theorem error_store_append_only extId st :
  (∀ a, known a → ¬ clears extId a → grows extId st (step a st)) ∧
  (∀ params w tab,
     p_extensionId params = Some extId →
     agentEnabled st = true → tabs_query_active chrome (calls st) = Some tab →
     extensionErrorStore
       (executeToolCall "clear_extension_errors" params w st).2 !! extId = None) ∧
  (∀ options w,
     extensionErrorStore st !! extId = None →
     let st' := (captureExtensionErrors (Some extId) options w st).2 in
     extensionErrorStore st' = extensionErrorStore st ∨
     ∃ tab r,
       extensionErrorStore st' !! extId =
         Some (mkStore (window_errors tab (during w) ++ probe_errors r (probe_clock w))
                 (window_console tab (during w)) (Some tab))).
Proof.
  split_and!.
  - intros a Hk Hc. destruct a; cbn [step known clears] in *;
      try (apply grows_same;
           first [apply attachDebugger_store | apply detachDebugger_store
                 | apply sendCDPCommand_store | apply enableCDPDomain_store
                 | apply onDebuggerEvent_store | done]).
    + unfold executeToolCall, with_target.
      destruct (_ && _); [by apply grows_same|].
      destruct (negb _).
      * destruct (tabs_query_active chrome (calls st)); [|by apply grows_same].
        intros s Hs. by apply (dispatch_grows extId tool params w _ (call TabsQueryActive st)).
      * by apply dispatch_grows.
    + apply capture_grows.
    + apply grows_same. unfold onTabRemoved.
      by destruct (debuggerAttached st !! tabId).
  - intros params w tab Hx He Ht. unfold executeToolCall, with_target.
    rewrite He. cbn [negb andb].
    replace (includes noTabRequired "clear_extension_errors") with false
      by (by vm_compute).
    cbn [negb]. rewrite Ht. unfold dispatch.
    rewrite decide_False by done. rewrite decide_True by done.
    rewrite Hx. cbn [snd]. ag_simpl. apply lookup_delete_eq.
  - intros options w Hn st'.
    destruct (capture_store (Some extId) options w st)
      as [E|(x & tab & r & [= <-] & E)]; [by left|].
    right. exists tab, r. fold st' in E. rewrite E, lookup_insert_eq.
    unfold errors_before, console_before. by rewrite Hn.
Qed.

(** ** Further properties of the agent *)

(** *** The event logs are bounded *)

Lemma bounded_snoc_length {A} (n : nat) (l : list A) (x : A) :
  length l ≤ n → length (bounded n (l ++ [x])) ≤ n.
Proof.
  intros Hl. unfold bounded.
  case_decide as Hc; rewrite ?length_tl, length_app in *; cbn [length] in *; lia.
Qed.

Lemma set_response_length id resp l : length (set_response id resp l) = length l.
Proof.
  induction l as [|r l IH]; [done|]. cbn [set_response].
  case_decide; cbn [length]; by rewrite ?IH.
Qed.

Lemma logs_bounded_same st st' :
  networkRequests st' = networkRequests st → animations st' = animations st →
  logs_bounded st → logs_bounded st'.
Proof.
  intros E1 E2 [Hn Ha]. split; intros tab l.
  - rewrite E1. apply Hn.
  - rewrite E2. apply Ha.
Qed.

Lemma onDebuggerEvent_bounded ev st :
  logs_bounded st → logs_bounded (onDebuggerEvent ev st).
Proof.
  intros [Hn Ha]. unfold onDebuggerEvent.
  destruct (event ev) as [id params|id params|type params|params|lv params
                         |params|params|m params]; try done.
  - split; [|done]. ag_simpl. intros tab l.
    destruct (decide (tab = source ev)) as [->|Hne].
    + rewrite lookup_insert_eq. intros [= <-]. apply bounded_snoc_length.
      destruct (networkRequests st !! source ev) eqn:E; cbn; [by eapply Hn|lia].
    + rewrite lookup_insert_ne by done. apply Hn.
  - split; [|done]. ag_simpl. intros tab l.
    destruct (decide (tab = source ev)) as [->|Hne].
    + rewrite lookup_alter_eq.
      destruct (networkRequests st !! source ev) eqn:E; cbn; [|done].
      intros [= <-]. rewrite set_response_length. by eapply Hn.
    + rewrite lookup_alter_ne by done. apply Hn.
  - split; [done|]. ag_simpl. intros tab l.
    destruct (decide (tab = source ev)) as [->|Hne].
    + rewrite lookup_insert_eq. intros [= <-]. apply bounded_snoc_length.
      destruct (animations st !! source ev) eqn:E; cbn; [by eapply Ha|lia].
    + rewrite lookup_insert_ne by done. apply Ha.
  - split; [done|]. ag_simpl. intros tab l.
    destruct (decide (tab = source ev)) as [->|Hne].
    + rewrite lookup_insert_eq. intros [= <-]. apply bounded_snoc_length.
      destruct (animations st !! source ev) eqn:E; cbn; [by eapply Ha|lia].
    + rewrite lookup_insert_ne by done. apply Ha.
Qed.

Lemma onDebuggerEvents_bounded evs st :
  logs_bounded st → logs_bounded (foldl (λ acc ev, onDebuggerEvent ev acc) st evs).
Proof.
  revert st. induction evs as [|ev evs IH]; intros st H; [done|].
  cbn [foldl]. apply IH. by apply onDebuggerEvent_bounded.
Qed.

Lemma deliver_bounded tab extId evs st :
  logs_bounded st → logs_bounded (foldl (λ acc ev, deliver tab extId ev acc) st evs).
Proof.
  revert st. induction evs as [|ev evs IH]; intros st H; [done|].
  cbn [foldl]. apply IH. unfold deliver.
  apply (logs_bounded_same (onDebuggerEvent ev st)); [done|done|].
  by apply onDebuggerEvent_bounded.
Qed.

Lemma attachDebugger_bounded tabId st :
  logs_bounded st → logs_bounded (attachDebugger tabId st).2.
Proof. unfold attachDebugger. by repeat case_match. Qed.

Lemma detachDebugger_bounded tabId st :
  logs_bounded st → logs_bounded (detachDebugger tabId st).2.
Proof. unfold detachDebugger. by repeat case_match. Qed.

Lemma issue_bounded tabId method params st :
  logs_bounded st → logs_bounded (issue tabId method params st).2.
Proof. unfold issue. by repeat case_match. Qed.

Lemma sendCDPCommand_bounded tabId method params st :
  logs_bounded st → logs_bounded (sendCDPCommand tabId method params st).2.
Proof.
  intros H. unfold sendCDPCommand. destruct (negb _); [|by apply issue_bounded].
  pose proof (attachDebugger_bounded tabId st H) as H1.
  destruct (attachDebugger tabId st) as [r st1]. cbn [snd] in H1.
  destruct (has_error r); [done|]. by apply issue_bounded.
Qed.

Lemma enableCDPDomain_bounded tabId domain st :
  logs_bounded st → logs_bounded (enableCDPDomain tabId domain st).2.
Proof.
  intros H. unfold enableCDPDomain.
  destruct (match _ with Some _ => _ | None => _ end); [done|].
  pose proof (sendCDPCommand_bounded tabId (domain +:+ ".enable") "{}" st H) as H1.
  destruct (sendCDPCommand _ _ _ st) as [r st1]. cbn [snd] in H1.
  destruct (negb _); [|done]. unfold record_domain. by destruct (_ !! _).
Qed.

Lemma startNetworkMonitoring_bounded tabId st :
  logs_bounded st → logs_bounded (startNetworkMonitoring tabId st).2.
Proof.
  intros H. unfold startNetworkMonitoring.
  pose proof (enableCDPDomain_bounded tabId "Network" st H) as [Hn Ha].
  destruct (enableCDPDomain tabId "Network" st) as [r st1]. cbn [snd] in *.
  split; [|done]. ag_simpl. intros tab l.
  destruct (decide (tab = tabId)) as [->|Hne].
  - rewrite lookup_insert_eq. intros [= <-]. cbn. lia.
  - rewrite lookup_insert_ne by done. apply Hn.
Qed.

Lemma startCPUProfile_bounded tabId st :
  logs_bounded st → logs_bounded (startCPUProfile tabId st).2.
Proof.
  intros H. unfold startCPUProfile.
  pose proof (enableCDPDomain_bounded tabId "Profiler" st H) as H1.
  destruct (enableCDPDomain tabId "Profiler" st) as [r st1]. cbn [snd] in H1.
  pose proof (sendCDPCommand_bounded tabId "Profiler.start" "{}" st1 H1) as H2.
  by destruct (sendCDPCommand tabId "Profiler.start" "{}" st1).
Qed.

Lemma stopCPUProfile_bounded tabId st :
  logs_bounded st → logs_bounded (stopCPUProfile tabId st).2.
Proof.
  intros H. unfold stopCPUProfile.
  pose proof (sendCDPCommand_bounded tabId "Profiler.stop" "{}" st H) as H1.
  by destruct (sendCDPCommand tabId "Profiler.stop" "{}" st).
Qed.

Lemma onTabRemoved_bounded tabId st :
  logs_bounded st → logs_bounded (onTabRemoved tabId st).
Proof.
  intros [Hn Ha]. unfold onTabRemoved.
  destruct (debuggerAttached st !! tabId); split; intros tab l Hl; ag_simpl;
    apply lookup_delete_Some in Hl as [_ Hl]; eauto.
Qed.

Lemma capture_bounded extensionId options w st :
  logs_bounded st →
  logs_bounded (captureExtensionErrors extensionId options w st).2.
Proof.
  intros Hb. unfold captureExtensionErrors.
  destruct extensionId as [extId|]; [|done].
  destruct (negb (truthy extId)); [done|].
  destruct (management_get chrome (calls st) extId) as [e|extInfo]; [done|].
  set (st0 := call (ManagementGet extId) st).
  destruct (tabs_create chrome (calls st0) _) as [e|tab]; [done|].
  set (st1 := foldl _ _ (early w)).
  assert (H1 : logs_bounded st1) by (by apply onDebuggerEvents_bounded).
  pose proof (attachDebugger_bounded tab st1 H1) as H2.
  destruct (attachDebugger tab st1) as [attachResult st2]. cbn [snd] in H2.
  destruct (has_error attachResult).
  { by destruct (tabs_remove chrome (calls st2) tab). }
  pose proof (sendCDPCommand_bounded tab "Console.enable" "{}" st2 H2) as H3.
  destruct (sendCDPCommand tab "Console.enable" "{}" st2) as [r3 st3]. cbn [snd] in H3.
  pose proof (sendCDPCommand_bounded tab "Runtime.enable" "{}" st3 H3) as H4.
  destruct (sendCDPCommand tab "Runtime.enable" "{}" st3) as [r4 st4]. cbn [snd] in H4.
  set (st5 := match extensionErrorStore st4 !! extId with
              | Some _ => st4 | None => _ end).
  assert (H5 : logs_bounded st5) by (unfold st5; by destruct (_ !! _)).
  set (st6 := set_extensionErrorStore _ st5).
  assert (H6 : logs_bounded st6) by done.
  set (st7 := foldl _ st6 (during w)).
  assert (H7 : logs_bounded st7) by (by apply deliver_bounded).
  pose proof (sendCDPCommand_bounded tab "Runtime.evaluate" probe st7 H7) as H8.
  destruct (sendCDPCommand tab "Runtime.evaluate" probe st7) as [evalResult st8].
  cbn [snd] in H8.
  set (st9 := set_extensionErrorStore _ st8).
  assert (H9 : logs_bounded st9) by done.
  destruct (bool_decide _); [done|].
  pose proof (detachDebugger_bounded tab st9 H9) as H10.
  destruct (detachDebugger tab st9) as [r10 st10]. cbn [snd] in H10.
  by destruct (tabs_remove chrome (calls st10) tab).
Qed.

Lemma dispatch_bounded tool params w tab st :
  tool ∈ spelled_out → logs_bounded st →
  logs_bounded (dispatch tool params w tab st).2.
Proof.
  intros Hk Hb. unfold dispatch.
  case_decide; [by apply capture_bounded|].
  case_decide; [by destruct (p_extensionId params)|].
  unfold with_tab.
  repeat (case_decide;
          [destruct tab; cbn [snd];
           first [done | by apply attachDebugger_bounded
                 | by apply detachDebugger_bounded
                 | by apply sendCDPCommand_bounded
                 | by apply startNetworkMonitoring_bounded
                 | by apply startCPUProfile_bounded
                 | by apply stopCPUProfile_bounded]|]).
  exfalso. unfold spelled_out in Hk.
  repeat (apply elem_of_cons in Hk as [->|Hk]; [done|]).
  by apply elem_of_nil in Hk.
Qed.

Lemma step_bounded a st : known a → logs_bounded st → logs_bounded (step a st).
Proof.
  intros Hk Hb. destruct a; cbn [step known] in *.
  - unfold executeToolCall, with_target.
    destruct (_ && _); [done|]. destruct (negb _).
    + destruct (tabs_query_active chrome (calls st)); [|done].
      by apply dispatch_bounded.
    + by apply dispatch_bounded.
  - by apply capture_bounded.
  - by apply attachDebugger_bounded.
  - by apply detachDebugger_bounded.
  - by apply sendCDPCommand_bounded.
  - by apply enableCDPDomain_bounded.
  - by apply onTabRemoved_bounded.
  - done.
  - by apply onDebuggerEvent_bounded.
  - done.
Qed.

Lemma exceptions_logged n tabId detail st :
  default [] (consoleLogs
    (foldl (λ acc ev, onDebuggerEvent ev acc) st (exceptions n tabId detail))
      !! tabId) =
  default [] (consoleLogs st !! tabId) ++ replicate n (LogException detail).
Proof.
  revert st. induction n as [|n IH]; intros st; cbn [exceptions replicate foldl].
  - by rewrite app_nil_r.
  - fold (exceptions n tabId detail). rewrite IH. unfold onDebuggerEvent.
    cbn [event source]. ag_simpl. rewrite lookup_insert_eq. cbn [default id].
    by rewrite <- app_assoc.
Qed.

(** X8.  The network and animation logs are bounded, the console log is
    not.  Whatever the agent does from the state in which it is loaded —
    tool calls spelled out here, captures, attach and detach, debugger
    events, tab closes — no tab ever has more than 100 recorded network
    requests or more than 50 recorded animations.  The console log has no
    such bound: the listener pushes a [Runtime.exceptionThrown] entry
    without the [shift] that follows the other pushes, so [n] exceptions in
    a tab leave [n] entries. *)
Theorem event_logs_stay_bounded :
  (∀ acts, Forall known acts → logs_bounded (steps acts init)) ∧
  (∀ n tabId detail,
     default [] (consoleLogs
       (foldl (λ acc ev, onDebuggerEvent ev acc) init (exceptions n tabId detail))
         !! tabId) = replicate n (LogException detail)).
Proof.
  split.
  - intros acts Hk. unfold steps.
    assert (Hi : logs_bounded init) by (split; intros tab l Hl; done).
    revert Hi. generalize init. induction Hk as [|a acts Ha _ IH]; intros st Hb;
      [done|].
    cbn [foldl]. apply IH. by apply step_bounded.
  - intros n tabId detail. by rewrite exceptions_logged.
Qed.

(** *** Responses are matched to requests *)

Lemma set_response_ids id resp l :
  map requestId (set_response id resp l) = map requestId l ∧
  map request (set_response id resp l) = map request l.
Proof.
  induction l as [|r l [IH1 IH2]]; [done|]. cbn [set_response].
  case_decide; cbn [map requestId request]; by rewrite ?IH1, ?IH2.
Qed.

Lemma set_response_absent id resp l :
  id ∉ map requestId l → set_response id resp l = l.
Proof.
  induction l as [|r l IH]; [done|]. cbn [set_response map]. intros Hn.
  apply not_elem_of_cons in Hn as [Hne Hn].
  rewrite decide_False by done. by rewrite IH.
Qed.

Lemma set_response_first id resp l i r :
  l !! i = Some r → requestId r = id →
  (∀ j r', j < i → l !! j = Some r' → requestId r' ≠ id) →
  set_response id resp l = <[i := mkNetRequest id (request r) (Some resp)]> l.
Proof.
  revert i. induction l as [|x l IH]; intros i Hi Hr Hfirst; [done|].
  cbn [set_response]. destruct i as [|i].
  - injection Hi as ->. rewrite decide_True by done. by rewrite Hr.
  - rewrite decide_False by (apply (Hfirst 0 x); [lia|done]).
    cbn. f_equal. apply IH; [done|done|].
    intros j r' Hj Hl. apply (Hfirst (S j) r'); [lia|done].
Qed.

(** X9.  A [Network.responseReceived] event touches at most one recorded
    request.  In the log of its tab it keeps the number, the order, the ids
    and the request fields of all entries, and it leaves the logs of other
    tabs alone.  When no recorded request has the id of the event (the
    request was never recorded, or was shifted out by the bound), the event
    changes nothing at all.  Otherwise the response fields are written into
    the first entry with that id and every other entry is as before. *)
Theorem response_updates_first_match tabId now id resp st :
  let st' := onDebuggerEvent (mkEvent tabId now (NetworkResponseReceived id resp)) st in
  let l := default [] (networkRequests st !! tabId) in
  let l' := default [] (networkRequests st' !! tabId) in
  map requestId l' = map requestId l ∧ map request l' = map request l ∧
  (∀ tab, tab ≠ tabId → networkRequests st' !! tab = networkRequests st !! tab) ∧
  (id ∉ map requestId l → st' = st) ∧
  (∀ i r, l !! i = Some r → requestId r = id →
     (∀ j r', j < i → l !! j = Some r' → requestId r' ≠ id) →
     l' = <[i := mkNetRequest id (request r) (Some resp)]> l).
Proof.
  intros st' l l'. unfold st', onDebuggerEvent in l' |- *. cbn [event source] in *.
  assert (El : l' = set_response id resp l).
  { unfold l', l. ag_simpl. rewrite lookup_alter_eq.
    by destruct (networkRequests st !! tabId). }
  split_and!.
  - rewrite El. apply set_response_ids.
  - rewrite El. apply set_response_ids.
  - intros tab Hne. ag_simpl. by rewrite lookup_alter_ne.
  - intros Hn. apply agent_state_eq; ag_simpl; try done.
    apply alter_id. intros x Hx. apply set_response_absent.
    unfold l in Hn. by rewrite Hx in Hn.
  - intros i r Hi Hr Hfirst. rewrite El. by apply set_response_first.
Qed.

(** *** Monitoring tools report success whatever the browser says *)

Lemma enable_refused tabId domain e st :
  debuggerAttached st !! tabId = None →
  debugger_attach chrome (calls st) tabId = Some e → truthy e = true →
  enableCDPDomain tabId domain st = (Failure e, call (DebuggerAttach tabId) st).
Proof.
  intros Hd He Ht.
  unfold enableCDPDomain, sendCDPCommand, attachDebugger, is_attached.
  rewrite Hd. cbn [negb]. rewrite He. cbn [has_error]. rewrite Ht.
  cbn [negb has_error]. by rewrite Ht.
Qed.

(** X10.  [startNetworkMonitoring] and [startCPUProfile] discard the
    results of the commands they issue: both always return their success
    message.  [startNetworkMonitoring] also resets the request log of the
    tab to the empty list.  In particular, when the tab has no session and
    the browser refuses the attach, the tool still reports that monitoring
    has started although no session exists and only the failed attach was
    attempted. *)
Theorem monitor_start_hides_failures tabId st :
  let r := startNetworkMonitoring tabId st in
  r.1 = SuccessMessage "Network monitoring started" ∧
  networkRequests r.2 !! tabId = Some [] ∧
  getNetworkRequests tabId r.2 = (Requests [], r.2) ∧
  (startCPUProfile tabId st).1 = SuccessMessage "CPU profiling started" ∧
  (∀ e, debuggerAttached st !! tabId = None →
        debugger_attach chrome (calls st) tabId = Some e → truthy e = true →
        is_attached r.2 tabId = false ∧
        calls r.2 = calls st ++ [DebuggerAttach tabId]).
Proof.
  clear probe_values other_tool.
  intros r. unfold r, startNetworkMonitoring, startCPUProfile, getNetworkRequests.
  split_and!.
  - by destruct (enableCDPDomain tabId "Network" st).
  - destruct (enableCDPDomain tabId "Network" st). cbn [snd]. ag_simpl.
    by rewrite lookup_insert_eq.
  - destruct (enableCDPDomain tabId "Network" st). cbn [snd]. ag_simpl.
    by rewrite lookup_insert_eq.
  - destruct (enableCDPDomain tabId "Profiler" st) as [r1 st1].
    by destruct (sendCDPCommand tabId "Profiler.start" "{}" st1).
  - intros e Hd He Ht. rewrite (enable_refused tabId "Network" e st) by done.
    cbn [snd]. unfold is_attached. ag_simpl. by rewrite Hd.
Qed.

(** *** A session ends when the browser detaches *)

(** X11.  The [chrome.debugger.onDetach] listener ends the session of the
    tab and nothing else: the tab is no longer attached, other sessions and
    the network, console and animation logs are as before (unlike a tab
    close, which purges them), and the browser is not called.  The
    domains recorded for the session are forgotten with it: the next
    command for the tab attaches again before it is issued, and the next
    [enableCDPDomain] issues the enable command again, whether or not the
    domain had been enabled before. *)
Theorem detach_event_ends_session tabId st :
  let st1 := onDebuggerDetach tabId st in
  is_attached st1 tabId = false ∧
  (∀ tab, tab ≠ tabId → debuggerAttached st1 !! tab = debuggerAttached st !! tab) ∧
  networkRequests st1 = networkRequests st ∧ consoleLogs st1 = consoleLogs st ∧
  animations st1 = animations st ∧ calls st1 = calls st ∧
  (debugger_attach chrome (calls st) tabId = None →
   (∀ method params,
      let r := sendCDPCommand tabId method params st1 in
      calls r.2 = calls st ++ [DebuggerAttach tabId;
                               DebuggerSendCommand tabId method params] ∧
      debuggerAttached r.2 !! tabId = Some (mkSession true ∅)) ∧
   (∀ domain,
      calls (enableCDPDomain tabId domain st1).2 =
        calls st ++ [DebuggerAttach tabId;
                     DebuggerSendCommand tabId (domain +:+ ".enable") "{}"])).
Proof.
  clear probe_values other_tool.
  intros st1. unfold st1, onDebuggerDetach.
  assert (Hs : ∀ method params,
    let r := sendCDPCommand tabId method params
               (set_debuggerAttached (delete tabId (debuggerAttached st)) st) in
    debugger_attach chrome (calls st) tabId = None →
    calls r.2 = calls st ++ [DebuggerAttach tabId;
                             DebuggerSendCommand tabId method params] ∧
    debuggerAttached r.2 !! tabId = Some (mkSession true ∅)).
  { intros method params r Hok. unfold r, sendCDPCommand.
    rewrite is_attached_delete. cbn [negb]. unfold attachDebugger.
    rewrite is_attached_delete. ag_simpl. rewrite Hok. cbn [has_error].
    match goal with |- context [issue tabId method params ?s] =>
      destruct (issue_calls tabId method params s) as [-> ->] end.
    ag_simpl. rewrite <- app_assoc. split; [done|]. by rewrite lookup_insert_eq. }
  split_and!; try done.
  - apply is_attached_delete.
  - intros tab Hne. ag_simpl. by rewrite lookup_delete_ne.
  - intros Hok. split; [intros method params; by apply Hs|].
    intros domain. unfold enableCDPDomain. ag_simpl. rewrite lookup_delete_eq.
    destruct (Hs (domain +:+ ".enable") "{}" Hok) as [Hc _].
    destruct (sendCDPCommand tabId (domain +:+ ".enable") "{}" _) as [r s1].
    cbn [snd] in Hc. by destruct (negb (has_error r)).
Qed.

(** *** What a capture leaves behind *)

Lemma onDebuggerEvents_session evs st :
  debuggerAttached (foldl (λ acc ev, onDebuggerEvent ev acc) st evs) =
    debuggerAttached st ∧
  calls (foldl (λ acc ev, onDebuggerEvent ev acc) st evs) = calls st.
Proof.
  revert st. induction evs as [|ev evs IH]; intros st; [done|].
  cbn [foldl]. destruct (IH (onDebuggerEvent ev st)) as [-> ->].
  unfold onDebuggerEvent. by destruct (event ev).
Qed.

(** X12.  A capture closes the tab it opened.  Once [chrome.tabs.create]
    has returned the tab, every path through [captureExtensionErrors] ends
    with [chrome.tabs.remove] for that tab as its last call to the browser,
    unless the caller passed [closeTab: false].  When the debugger cannot
    be attached to the new tab, the tab is removed whatever [closeTab]
    says, the call fails, nothing else is asked of the browser and the
    error store is left as it was. *)
Theorem capture_closes_its_tab extId options w extInfo tab st :
  truthy extId = true →
  management_get chrome (calls st) extId = inr extInfo →
  let pagePath := match p_page options with
                  | Some p => if truthy p then p else "popup"
                  | None => "popup"
                  end in
  let pageUrl := page_url extId pagePath extInfo in
  tabs_create chrome (calls st ++ [ManagementGet extId]) pageUrl = inr tab →
  let r := captureExtensionErrors (Some extId) options w st in
  (p_closeTab options ≠ Some false → last (calls r.2) = Some (TabsRemove tab)) ∧
  (∀ e, is_attached st tab = false →
        debugger_attach chrome
          (calls st ++ [ManagementGet extId] ++ [TabsCreate pageUrl]) tab = Some e →
        truthy e = true →
        (∃ msg, r.1 = Failure msg) ∧
        calls r.2 = calls st ++ [ManagementGet extId; TabsCreate pageUrl;
                                 DebuggerAttach tab; TabsRemove tab] ∧
        extensionErrorStore r.2 = extensionErrorStore st).
Proof.
  clear other_tool.
  intros Hx Hget pagePath pageUrl Hcreate r.
  unfold r, captureExtensionErrors. rewrite Hx. cbn [negb]. rewrite Hget.
  ag_simpl. fold pagePath. fold pageUrl. rewrite Hcreate.
  set (st1 := foldl _ _ (early w)).
  destruct (onDebuggerEvents_session (early w)
              (call (TabsCreate pageUrl) (call (ManagementGet extId) st)))
    as [Ed1 Ec1]. fold st1 in Ed1, Ec1. ag_simpl.
  pose proof (onDebuggerEvents_store (early w)
                (call (TabsCreate pageUrl) (call (ManagementGet extId) st))) as Es1.
  fold st1 in Es1. ag_simpl.
  split.
  - intros Hclose.
    destruct (attachDebugger tab st1) as [attachResult st2].
    destruct (has_error attachResult).
    { destruct (tabs_remove chrome (calls st2) tab); cbn [snd]; ag_simpl;
        apply last_snoc. }
    destruct (sendCDPCommand tab "Console.enable" "{}" st2) as [r3 st3].
    destruct (sendCDPCommand tab "Runtime.enable" "{}" st3) as [r4 st4].
    destruct (sendCDPCommand tab "Runtime.evaluate" probe _) as [evalResult st8].
    rewrite bool_decide_eq_false_2 by done.
    destruct (detachDebugger tab _) as [r10 st10].
    destruct (tabs_remove chrome (calls st10) tab); cbn [snd]; ag_simpl;
      apply last_snoc.
  - intros e Ha He Ht.
    assert (E : attachDebugger tab st1 = (Failure e, call (DebuggerAttach tab) st1)).
    { unfold attachDebugger.
      replace (is_attached st1 tab) with false
        by (unfold is_attached in *; by rewrite Ed1).
      rewrite Ec1. rewrite <- app_assoc. by rewrite He. }
    rewrite E. cbn [has_error]. rewrite Ht. ag_simpl. rewrite Ec1.
    destruct (tabs_remove chrome _ tab); cbn [fst snd]; ag_simpl;
      rewrite ?Ec1, ?Es1, <- ?app_assoc; split_and!; eauto.
Qed.

Lemma capture_result extensionId options w st :
  let r := captureExtensionErrors extensionId options w st in
  (∃ e, r.1 = Failure e) ∨
  (∃ extId extInfo pagePath,
     extensionId = Some extId ∧ r.1 = capture_report extId extInfo pagePath r.2).
Proof.
  intros r. unfold r, captureExtensionErrors.
  destruct extensionId as [extId|]; [|left; by eexists].
  destruct (negb (truthy extId)); [left; by eexists|].
  destruct (management_get chrome (calls st) extId) as [e|extInfo];
    [left; by eexists|].
  set (pagePath := match p_page options with
                   | Some p => if truthy p then p else "popup"
                   | None => "popup" end).
  destruct (tabs_create chrome _ _) as [e|tab]; [left; by eexists|].
  destruct (attachDebugger tab _) as [attachResult st2].
  destruct (has_error attachResult).
  { left. destruct (tabs_remove chrome (calls st2) tab); by eexists. }
  destruct (sendCDPCommand tab "Console.enable" "{}" st2) as [r3 st3].
  destruct (sendCDPCommand tab "Runtime.enable" "{}" st3) as [r4 st4].
  destruct (sendCDPCommand tab "Runtime.evaluate" probe _) as [evalResult st8].
  destruct (bool_decide _).
  { right. by exists extId, extInfo, pagePath. }
  destruct (detachDebugger tab _) as [r10 st10].
  destruct (tabs_remove chrome (calls st10) tab); [left; by eexists|].
  right. by exists extId, extInfo, pagePath.
Qed.

(** X13.  A capture reports the whole store of the extension, not only
    what it captured itself.  When [captureExtensionErrors] returns its
    report, the store of the extension exists; [errors] of the report is
    the [errors] array of the store, which starts with every error the
    store held before the capture; [totalErrors] is its length; [console]
    holds the stored console entries of level error or warning, and
    [totalConsoleMessages] counts all stored console entries.  A query of
    the console right after the capture finds the store and gives the same
    total. *)
Theorem capture_reports_whole_store extensionId options w st x n p errs cons te tc :
  let r := captureExtensionErrors extensionId options w st in
  r.1 = Captured x n p errs cons te tc →
  extensionId = Some x ∧
  ∃ s, extensionErrorStore r.2 !! x = Some s ∧
       errs = errors s ∧ te = length (errors s) ∧
       errors_before st x `prefix_of` errs ∧
       cons = filter (λ c, error_or_warning c = true) (console s) ∧
       tc = length (console s) ∧ length cons ≤ tc ∧
       getExtensionConsole (Some x) None r.2 =
         ConsoleData x (last_n 50 (console s)) tc.
Proof.
  clear other_tool.
  intros r Hr. subst r.
  destruct (capture_result extensionId options w st)
    as [[e He]|(extId & extInfo & pagePath & -> & Hrep)].
  { by rewrite He in Hr. }
  rewrite Hrep in Hr. unfold capture_report in Hr.
  destruct (extensionErrorStore _ !! extId) as [s|] eqn:Hs; [|done].
  injection Hr as <- _ _ <- <- <- <-. split; [done|].
  exists s. split_and!; try done.
  - destruct (capture_store (Some extId) options w st)
      as [E|(x' & tab & r' & [= <-] & E)].
    + unfold errors_before. rewrite <- E, Hs. done.
    + rewrite E, lookup_insert_eq in Hs. injection Hs as <-.
      cbn [errors]. by apply prefix_app_r.
  - apply length_filter.
  - unfold getExtensionConsole. by rewrite Hs.
Qed.

(** *** Reading the captured console *)

Lemma last_n_length {A} n (l : list A) : length (last_n n l) = n `min` length l.
Proof. unfold last_n. rewrite length_drop. lia. Qed.

(** X14.  [getExtensionConsole] answers from the store and only from it.
    Without an extension id, or for an extension that has no store (never
    captured, or cleared), it returns the error that tells the caller to
    run a capture first.  Otherwise [total] counts the stored entries that
    match: all of them when no level is asked for (or the empty string),
    those of exactly the level asked for otherwise.  The entries returned
    are the last 50 of the matching ones — at most 50, the most recent, in
    stored order, each of the level asked for. *)
Theorem console_query_is_last_fifty x wanted st :
  getExtensionConsole None wanted st = no_console_data ∧
  (extensionErrorStore st !! x = None →
     getExtensionConsole (Some x) wanted st = no_console_data) ∧
  (∀ s, extensionErrorStore st !! x = Some s →
     ∃ entries total,
       getExtensionConsole (Some x) wanted st = ConsoleData x entries total ∧
       length entries = 50 `min` total ∧ total ≤ length (console s) ∧
       entries `sublist_of` console s ∧
       (wanted = None ∨ wanted = Some EmptyString →
          total = length (console s) ∧ entries `suffix_of` console s) ∧
       (∀ lv, wanted = Some lv → truthy lv = true →
          Forall (λ c, level c = lv) entries ∧
          entries `suffix_of` filter (λ c, level c = lv) (console s) ∧
          total = length (filter (λ c, level c = lv) (console s)))).
Proof.
  clear chrome probe_values other_tool.
  split_and!; [done|by intros Hn; unfold getExtensionConsole; rewrite Hn|].
  intros s Hs. unfold getExtensionConsole. rewrite Hs. cbv zeta.
  eexists _, _. split; [done|].
  assert (Hsub : ∀ l : list ConsoleEntry, last_n 50 l `sublist_of` l).
  { intros l. apply sublist_drop. }
  destruct wanted as [lv|]; [destruct (truthy lv) eqn:Ht|].
  - split_and!.
    + apply last_n_length.
    + apply length_filter.
    + etrans; [apply Hsub|apply sublist_filter].
    + intros [?|[= ->]]; done.
    + intros lv' [= <-] _. split_and!; try done; [|apply suffix_drop].
      apply Forall_forall. intros c Hc.
      assert (c ∈ filter (λ c, level c = lv) (console s)) as Hf.
      { eapply elem_of_sublist; [done|apply Hsub]. }
      by apply list_elem_of_filter in Hf as [? _].
  - split_and!; try done.
    + apply last_n_length.
    + intros _. split; [done|apply suffix_drop].
    + intros lv' [= <-]. by rewrite Ht.
  - split_and!; try done.
    + apply last_n_length.
    + intros _. split; [done|apply suffix_drop].
Qed.

(** *** The request log as a window *)

Lemma last_n_short {A} n (l : list A) : length l ≤ n → last_n n l = l.
Proof. intros H. unfold last_n. by replace (length l - n) with 0 by lia. Qed.

Lemma bounded_last_n {A} n (l : list A) (x : A) :
  length l ≤ n → bounded n (l ++ [x]) = last_n n (l ++ [x]).
Proof.
  intros H. unfold bounded, last_n. rewrite length_app. cbn [length].
  case_decide as Hc.
  - replace (length l + 1 - n) with 1 by lia. by destruct (l ++ [x]).
  - by replace (length l + 1 - n) with 0 by lia.
Qed.

Lemma last_n_snoc {A} n (l : list A) (x : A) :
  last_n n (last_n n l ++ [x]) = last_n n (l ++ [x]).
Proof.
  unfold last_n. rewrite !length_app, length_drop. cbn [length].
  destruct (decide (length l ≤ n)) as [Hs|Hl].
  - replace (length l - n) with 0 by lia. cbn [drop]. f_equal. lia.
  - rewrite <- (drop_app_le l [x] (length l - n)) by lia.
    rewrite drop_drop. f_equal. lia.
Qed.

Lemma map_last_n {A B} (f : A → B) n (l : list A) :
  map f (last_n n l) = last_n n (map f l).
Proof. unfold last_n. by rewrite <- fmap_drop, length_map. Qed.

Lemma request_ids_snoc tabId evs ev :
  request_ids tabId (evs ++ [ev]) =
  request_ids tabId evs ++
  match event ev with
  | NetworkRequestWillBeSent id _ => if decide (source ev = tabId) then [id] else []
  | _ => []
  end.
Proof.
  unfold request_ids. rewrite omap_app. f_equal. cbn.
  destruct (event ev); try done. by case_decide.
Qed.

Lemma onDebuggerEvent_window tabId ev st ids :
  map requestId (request_log tabId st) = last_n 100 ids →
  map requestId (request_log tabId (onDebuggerEvent ev st)) =
  last_n 100 (ids ++ match event ev with
                     | NetworkRequestWillBeSent id _ =>
                         if decide (source ev = tabId) then [id] else []
                     | _ => []
                     end).
Proof.
  intros H. unfold request_log, onDebuggerEvent in *.
  destruct (event ev) as [id p|id p|t p|p|l p|p|p|m p]; ag_simpl;
    rewrite ?app_nil_r; try done.
  - case_decide as Hs.
    + rewrite Hs, lookup_insert_eq. cbn [default].
      assert (length (default [] (networkRequests st !! tabId)) ≤ 100) as Hl.
      { rewrite <- (length_map requestId), H, last_n_length. lia. }
      rewrite bounded_last_n by done. cbn [Datatypes.id].
      rewrite map_last_n, map_app, H. cbn [map requestId]. apply last_n_snoc.
    + rewrite lookup_insert_ne by done. by rewrite app_nil_r.
  - destruct (decide (source ev = tabId)) as [Hs|Hs].
    + rewrite Hs, lookup_alter_eq.
      destruct (networkRequests st !! tabId) as [l|]; [|done].
      cbn [default fmap option_fmap option_map Datatypes.id] in *.
      by rewrite (proj1 (set_response_ids id p l)).
    + by rewrite lookup_alter_ne.
Qed.

Lemma onDebuggerEvents_window tabId evs st :
  request_log tabId st = [] →
  map requestId (request_log tabId (foldl (λ acc ev, onDebuggerEvent ev acc) st evs)) =
  last_n 100 (request_ids tabId evs).
Proof.
  intros H0. induction evs as [|ev evs IH] using rev_ind.
  - cbn. by rewrite H0.
  - rewrite foldl_app. cbn [foldl]. rewrite request_ids_snoc.
    by apply onDebuggerEvent_window.
Qed.

(** X25.  The request log is a window on the latest hundred requests.
    After [startNetworkMonitoring], whatever debugger events follow and in
    whatever tabs, [getNetworkRequests] returns for the tab the requests
    announced for it since the start, in the order announced and without
    the oldest ones once there are more than a hundred: the ids returned are
    the last hundred ids announced. *)
Theorem request_log_is_a_window tabId evs st :
  ∃ l,
    (getNetworkRequests tabId
       (foldl (λ acc ev, onDebuggerEvent ev acc)
          (startNetworkMonitoring tabId st).2 evs)).1 = Requests l ∧
    map requestId l = last_n 100 (request_ids tabId evs) ∧
    length l = 100 `min` length (request_ids tabId evs).
Proof.
  clear probe_values other_tool.
  unfold getNetworkRequests. cbn [fst]. eexists. split; [reflexivity|].
  assert (map requestId
            (request_log tabId
               (foldl (λ acc ev, onDebuggerEvent ev acc)
                  (startNetworkMonitoring tabId st).2 evs)) =
          last_n 100 (request_ids tabId evs)) as E.
  { apply onDebuggerEvents_window. unfold startNetworkMonitoring, request_log.
    destruct (enableCDPDomain tabId "Network" st) as [r st1]. ag_simpl.
    by rewrite lookup_insert_eq. }
  split; [exact E|].
  rewrite <- (length_map requestId). unfold request_log in E. rewrite E.
  apply last_n_length.
Qed.

End WithBrowser.

(** ** Concrete runs *)

Local Open Scope Z_scope.

(** A browser that grants every request: attach and detach succeed, every
    command replies with an empty object, tab 1 is active, new tabs get id
    100. *)
Definition permissive : Browser :=
  mkBrowser (λ _ _, None) (λ _ _, None) (λ _ _ _ _, inr "{}") (λ _, Some 1)
    (λ _ _, inr 100) (λ _ _, None) (λ _ _, inr (mkExtInfo "Demo" EmptyString)).

(** A browser that lets no debugger attach. *)
Definition refusing : Browser :=
  mkBrowser (λ _ _, Some "Cannot access a chrome:// URL") (λ _ _, None)
    (λ _ _ _ _, inr "{}") (λ _, None)
    (λ _ _, inr 100) (λ _ _, None) (λ _ _, inr (mkExtInfo "Demo" EmptyString)).

Definition no_probe_values : Json → list string := λ _, [].

Definition unknown_tool : string → Params → option TabId → State → Result * State :=
  λ tool _ _ st, (Failure ("Unknown tool: " +:+ tool), st).

Definition no_params : Params := mkParams None EmptyString "{}" None None.

Definition quiet_window : Window := mkWindow [] [] 0%N.

(** Tab 7 with the debugger attached and no domain enabled. *)
Definition tab7_attached : State := (attachDebugger permissive 7 init).2.

(** C5, counterexample.  The first [Network] command sent to tab 7 with
    [sendCDPCommand]: the debugger is attached and the command is issued,
    and no [Network.enable] goes out before it; the session records no
    domain.  And [enableCDPDomain] called twice for [Network] on tab 7,
    not attached at first: the first call attaches and issues
    [Network.enable], the session it leaves records no domain, and the
    second call issues [Network.enable] again in that session. *)
Lemma no_implicit_enable_counterexample :
  calls (sendCDPCommand permissive 7 "Network.getAllCookies" "{}" init).2 =
    [DebuggerAttach 7; DebuggerSendCommand 7 "Network.getAllCookies" "{}"] ∧
  debuggerAttached
    (sendCDPCommand permissive 7 "Network.getAllCookies" "{}" init).2 !! 7 =
    Some (mkSession true ∅) ∧
  debuggerAttached (enableCDPDomain permissive 7 "Network" init).2 !! 7 =
    Some (mkSession true ∅) ∧
  calls (enableCDPDomain permissive 7 "Network"
           (enableCDPDomain permissive 7 "Network" init).2).2 =
    [DebuggerAttach 7; DebuggerSendCommand 7 "Network.enable" "{}";
     DebuggerSendCommand 7 "Network.enable" "{}"].
Proof. split_and!; vm_compute; reflexivity. Qed.

(** The scenario of the specification: tab 7 is attached, network
    monitoring is started twice; one [Network.enable] is sent. *)
Lemma network_enable_sent_once :
  calls (startNetworkMonitoring permissive 7
           (startNetworkMonitoring permissive 7 tab7_attached).2).2 =
    [DebuggerAttach 7; DebuggerSendCommand 7 "Network.enable" "{}"].
Proof. vm_compute; reflexivity. Qed.

Lemma domain_enabled_once_witness :
  debuggerAttached tab7_attached !! 7 = Some (mkSession true ∅) ∧
  calls (enableCDPDomain permissive 7 "Network" tab7_attached).2 =
    calls tab7_attached ++ [DebuggerSendCommand 7 "Network.enable" "{}"].
Proof.
  split; [reflexivity|].
  exact (proj1 (proj2 (proj2 (proj2
           (domain_enabled_once permissive 7 tab7_attached)))
           (mkSession true ∅) "Network" eq_refl eq_refl
           (not_elem_of_empty "Network"))).
Defined.

(** C6, counterexample.  The browser lets no debugger attach to tab 7:
    both calls of [attachDebugger] return the error, neither is a success,
    and [chrome.debugger.attach] is called twice.  And on tab 7 already
    attached, both calls return success with [already: true] and
    [chrome.debugger.attach] is not called. *)
Lemma attach_refused_counterexample :
  (attachDebugger refusing 7 init).1 = Failure "Cannot access a chrome:// URL" ∧
  (attachDebugger refusing 7 (attachDebugger refusing 7 init).2).1 =
    Failure "Cannot access a chrome:// URL" ∧
  calls (attachDebugger refusing 7 (attachDebugger refusing 7 init).2).2 =
    [DebuggerAttach 7; DebuggerAttach 7] ∧
  (attachDebugger permissive 7 tab7_attached).1 = Success true ∧
  calls (attachDebugger permissive 7
           (attachDebugger permissive 7 tab7_attached).2).2 =
    calls tab7_attached.
Proof. split_and!; vm_compute; reflexivity. Qed.

Lemma attach_idempotent_witness :
  (attachDebugger permissive 7 init).1 = Success false ∧
  calls (attachDebugger permissive 7 (attachDebugger permissive 7 init).2).2 =
    calls init ++ [DebuggerAttach 7].
Proof.
  split; [reflexivity|].
  exact (proj2 (proj2 (proj2
           (proj1 (attach_idempotent permissive 7 init) false eq_refl)))).
Defined.

Lemma detach_idempotent_witness :
  is_attached init 7 = false ∧
  detachDebugger permissive 7 init = (Success true, init).
Proof.
  split; [reflexivity|].
  exact (proj1 (detach_idempotent permissive 7 init eq_refl)).
Defined.

Lemma gates_before_work_witness :
  agentEnabled (set_agentEnabled false init) = false ∧
  includes noAgentRequired "browser_click" = false ∧
  executeToolCall permissive no_probe_values unknown_tool "browser_click"
    no_params quiet_window (set_agentEnabled false init) =
    (Failure "Agent control is disabled", set_agentEnabled false init).
Proof.
  split; [reflexivity|]. split; [reflexivity|].
  exact (proj1 (gates_before_work permissive no_probe_values unknown_tool
                  "browser_click" no_params quiet_window
                  (set_agentEnabled false init)) eq_refl eq_refl).
Defined.

(** One exception is thrown in the page of extension [ext] while a capture
    watches it. *)
Definition one_exception : Window :=
  mkWindow [] [mkEvent 100 5%N (RuntimeExceptionThrown "boom")] 9%N.

Definition captured_once : State :=
  (captureExtensionErrors permissive no_probe_values (Some "ext")
     (mkParams (Some "ext") EmptyString "{}" None None) one_exception init).2.

Lemma error_store_append_only_witness :
  extensionErrorStore captured_once !! "ext" =
    Some (mkStore [ExceptionError 5%N "boom"] [] (Some 100)) ∧
  ∃ s', extensionErrorStore
          (step permissive no_probe_values unknown_tool (TabRemoved 100)
             captured_once) !! "ext" = Some s' ∧
        [ExceptionError 5%N "boom"] `prefix_of` errors s' ∧
        [] `prefix_of` console s'.
Proof.
  split; [vm_compute; reflexivity|].
  exact (proj1 (error_store_append_only permissive no_probe_values unknown_tool
                  "ext" captured_once)
           (TabRemoved 100) I (λ H, H)
           (mkStore [ExceptionError 5%N "boom"] [] (Some 100))
           ltac:(vm_compute; reflexivity)).
Defined.

(** A request is recorded for tab 7. *)
Definition one_request : State :=
  onDebuggerEvent (mkEvent 7 1%N (NetworkRequestWillBeSent "r1" "GET /")) init.

Lemma event_logs_stay_bounded_witness :
  Forall known [DebuggerEventArrived
                  (mkEvent 7 1%N (NetworkRequestWillBeSent "r1" "GET /"));
                TabRemoved 7] ∧
  logs_bounded
    (steps permissive no_probe_values unknown_tool
       [DebuggerEventArrived (mkEvent 7 1%N (NetworkRequestWillBeSent "r1" "GET /"));
        TabRemoved 7] init).
Proof.
  assert (Hk : Forall known
                 [DebuggerEventArrived
                    (mkEvent 7 1%N (NetworkRequestWillBeSent "r1" "GET /"));
                  TabRemoved 7]) by (repeat constructor).
  split; [exact Hk|].
  exact (proj1 (event_logs_stay_bounded permissive no_probe_values unknown_tool)
           _ Hk).
Defined.

Lemma response_updates_first_match_witness :
  networkRequests one_request !! 7 = Some [mkNetRequest "r1" "GET /" None] ∧
  default []
    (networkRequests
       (onDebuggerEvent (mkEvent 7 2%N (NetworkResponseReceived "r1" "200 OK"))
          one_request) !! 7) =
    <[0%nat := mkNetRequest "r1" "GET /" (Some "200 OK")]>
      (default [] (networkRequests one_request !! 7)).
Proof.
  split; [vm_compute; reflexivity|].
  exact (proj2 (proj2 (proj2 (proj2
           (response_updates_first_match 7 2%N "r1" "200 OK" one_request))))
           0%nat (mkNetRequest "r1" "GET /" None)
           ltac:(vm_compute; reflexivity) eq_refl ltac:(intros; lia)).
Defined.

Lemma monitor_start_hides_failures_witness :
  debuggerAttached init !! 7 = None ∧
  (startNetworkMonitoring refusing 7 init).1 =
    SuccessMessage "Network monitoring started" ∧
  is_attached (startNetworkMonitoring refusing 7 init).2 7 = false.
Proof.
  split; [reflexivity|].
  split; [exact (proj1 (monitor_start_hides_failures refusing 7 init))|].
  exact (proj1 (proj2 (proj2 (proj2 (proj2
           (monitor_start_hides_failures refusing 7 init))))
           "Cannot access a chrome:// URL" eq_refl eq_refl eq_refl)).
Defined.

Lemma detach_event_ends_session_witness :
  is_attached tab7_attached 7 = true ∧
  calls (sendCDPCommand permissive 7 "DOM.getDocument" "{}"
           (onDebuggerDetach 7 tab7_attached)).2 =
    calls tab7_attached ++
      [DebuggerAttach 7; DebuggerSendCommand 7 "DOM.getDocument" "{}"].
Proof.
  split; [vm_compute; reflexivity|].
  exact (proj1 (proj1 (proj2 (proj2 (proj2 (proj2 (proj2 (proj2
           (detach_event_ends_session permissive 7 tab7_attached)))))) eq_refl)
           "DOM.getDocument" "{}")).
Defined.

Lemma capture_closes_its_tab_witness :
  tabs_create permissive
    (calls init ++ [ManagementGet "ext"])
    (page_url "ext" "popup" (mkExtInfo "Demo" EmptyString)) = inr 100 ∧
  last (calls (captureExtensionErrors permissive no_probe_values (Some "ext")
                 no_params one_exception init).2) = Some (TabsRemove 100).
Proof.
  split; [reflexivity|].
  exact (proj1 (capture_closes_its_tab permissive no_probe_values "ext" no_params
                  one_exception (mkExtInfo "Demo" EmptyString) 100 init
                  eq_refl eq_refl eq_refl) ltac:(discriminate)).
Defined.

Lemma capture_reports_whole_store_witness :
  (captureExtensionErrors permissive no_probe_values (Some "ext") no_params
     one_exception init).1 =
    Captured "ext" "Demo" "popup" [ExceptionError 5%N "boom"] [] 1 0 ∧
  ∃ s, extensionErrorStore captured_once !! "ext" = Some s ∧
       [ExceptionError 5%N "boom"] = errors s.
Proof.
  assert (Hr : (captureExtensionErrors permissive no_probe_values (Some "ext")
                  no_params one_exception init).1 =
               Captured "ext" "Demo" "popup" [ExceptionError 5%N "boom"] [] 1 0)
    by (vm_compute; reflexivity).
  split; [exact Hr|].
  destruct (proj2 (capture_reports_whole_store permissive no_probe_values
                     (Some "ext") no_params one_exception init
                     "ext" "Demo" "popup" [ExceptionError 5%N "boom"] [] 1 0 Hr))
    as (s & Hs & He & _).
  exists s. split; [exact Hs|exact He].
Defined.

Lemma console_query_is_last_fifty_witness :
  extensionErrorStore captured_once !! "ext" =
    Some (mkStore [ExceptionError 5%N "boom"] [] (Some 100)) ∧
  ∃ entries total,
    getExtensionConsole (Some "ext") (Some "error") captured_once =
      ConsoleData "ext" entries total ∧
    length entries = (50 `min` total)%nat.
Proof.
  assert (Hs : extensionErrorStore captured_once !! "ext" =
               Some (mkStore [ExceptionError 5%N "boom"] [] (Some 100)))
    by (vm_compute; reflexivity).
  split; [exact Hs|].
  destruct (proj2 (proj2 (console_query_is_last_fifty "ext" (Some "error")
                            captured_once)) _ Hs)
    as (entries & total & E & Hlen & _).
  exists entries, total. split; [exact E|exact Hlen].
Defined.

End Agent.

(** * The agent's side of the connection

    [Link] follows the connection manager of
    [src/extension/background.js]: the module-level variables
    [mcpServerRunning], [mcpPort], [mcpHost], [mcpWebSocket],
    [reconnectAttempts], [reconnectTimer], [shouldReconnect],
    [keepaliveInterval], [messageQueue] and [isProcessingMessages]; the
    functions [startMCPServer], [startKeepalive], [stopKeepalive],
    [stopMCPServer], [handleMCPMessage] and [processMessageQueue]; the
    cases [SIDEBAR_TOOL_CALL], [START_MCP_SERVER], [STOP_MCP_SERVER] and
    [GET_MCP_STATUS] of [handleMessage], which the listeners of
    [chrome.runtime.onMessage] and [chrome.runtime.onConnectExternal] call;
    and the [chrome.alarms] and [chrome.tabs.onUpdated] listeners.  Every listener is a function on the state.  What
    [console.log] and [console.error] print is left out, except for the
    result that cannot be sent. *)

Module Link.

(** ** Data *)

(** A WebSocket, named by the rank of the call of [startMCPServer] that
    made it. *)
Definition Sock := nat.

Definition Json := string.

Inductive ReadyState := CONNECTING | OPEN | CLOSING | CLOSED.

(** The three looks [updateBadge] gives the toolbar icon. *)
Inductive Badge := Connected | Reconnecting | Disconnected.

(** A [tool_call] message as queued: [{ id, tool, params }]. *)
Record ToolCall := mkToolCall { id : Json; tool : Json; params : Json }.

(** How [executeToolCall] ends. *)
Inductive Outcome := Returned (result : Json) | Threw (message : string).

(** Where a message for [handleMessage] comes from: [chrome.runtime.onMessage],
    whose listener answers with [sendResponse], or a port of
    [chrome.runtime.onConnectExternal], whose listener answers with
    [port.postMessage]. *)
Inductive Caller := Runtime | External.

(** The [result] of a [tool_result] frame: what the tool returned, or
    [{ error: error.message }]. *)
Inductive Reply := Result (result : Json) | ErrorObj (error : string).

Inductive Frame :=
| FRegister
| FPing
| FToolResult (id : Json) (result : Reply)
| FPageChanged (url title : Json).

(** Frames read by [onmessage], after [JSON.parse]. *)
Inductive PeerMsg :=
| MPong
| MRegistered
| MToolCall (m : ToolCall)
| MOther
| MMalformed.

(** What the promise of [startMCPServer] is resolved with. *)
Inductive StartResult :=
| Started (port : N) (host : string)
| StartFailed (error : string).

(** What the connection manager does that is visible outside, in order. *)
Inductive Output :=
| OBadge (b : Badge)
| ONewSocket (ws : Sock) (host : string) (port : N)
| OSend (ws : Sock) (f : Frame)
| OClose (ws : Sock)
| OStatusChanged
| OResolve (call : nat) (r : StartResult)
| OExecute (m : ToolCall)
| ODropped (m : ToolCall)
| OSidebarExecute (k : nat) (tool params : Json)
| OSidebarResponse (k : nat) (c : Caller) (result : Json).

(** The module variables, then the environment: the [readyState] of the
    sockets made so far, the number of calls of [startMCPServer], the
    armed timers and intervals, the tool call that [processMessageQueue]
    awaits, the number of [SIDEBAR_TOOL_CALL] messages handled so far, and
    those among them whose [executeToolCall] has not ended, each with the
    listener that waits for it. *)
Record State := mkState {
  mcpServerRunning : bool;
  mcpPort : N;
  mcpHost : string;
  mcpWebSocket : option Sock;
  reconnectAttempts : nat;
  reconnectTimer : option nat;
  shouldReconnect : bool;
  keepaliveInterval : option nat;
  messageQueue : list ToolCall;
  isProcessingMessages : bool;
  socks : gmap Sock ReadyState;
  started : nat;
  connectTimers : gset nat;
  timers : gset nat;
  nextTimer : nat;
  intervals : gset nat;
  nextInterval : nat;
  executing : option ToolCall;
  sidebarCalls : nat;
  sidebarRunning : gmap nat Caller;
  out : list Output
}.

Definition MAX_RECONNECT_ATTEMPTS : nat := 10.
Definition RECONNECT_DELAY : N := 3000.
Definition CONNECT_TIMEOUT : N := 5000.
Definition KEEPALIVE_PERIOD : N := 10000.

#[global] Instance ReadyState_eq_dec : EqDecision ReadyState.
Proof. solve_decision. Defined.
#[global] Instance ToolCall_eq_dec : EqDecision ToolCall.
Proof. solve_decision. Defined.

(** The module as loaded; the badge has been set once, by the
    [updateBadge(false)] of the top level. *)
Definition init : State :=
  mkState false 3052 "localhost" None 0 None false None [] false
    ∅ 0 ∅ ∅ 0 ∅ 0 None 0 ∅ [OBadge Disconnected].

(** ** Field updates *)

Definition set_mcpServerRunning (v : bool) (st : State) : State :=
  mkState v (mcpPort st) (mcpHost st) (mcpWebSocket st)
    (reconnectAttempts st) (reconnectTimer st) (shouldReconnect st)
    (keepaliveInterval st) (messageQueue st) (isProcessingMessages st)
    (socks st) (started st) (connectTimers st) (timers st) (nextTimer st)
    (intervals st) (nextInterval st) (executing st) (sidebarCalls st)
    (sidebarRunning st) (out st).

Definition set_mcpPort (v : N) (st : State) : State :=
  mkState (mcpServerRunning st) v (mcpHost st) (mcpWebSocket st)
    (reconnectAttempts st) (reconnectTimer st) (shouldReconnect st)
    (keepaliveInterval st) (messageQueue st) (isProcessingMessages st)
    (socks st) (started st) (connectTimers st) (timers st) (nextTimer st)
    (intervals st) (nextInterval st) (executing st) (sidebarCalls st)
    (sidebarRunning st) (out st).

Definition set_mcpHost (v : string) (st : State) : State :=
  mkState (mcpServerRunning st) (mcpPort st) v (mcpWebSocket st)
    (reconnectAttempts st) (reconnectTimer st) (shouldReconnect st)
    (keepaliveInterval st) (messageQueue st) (isProcessingMessages st)
    (socks st) (started st) (connectTimers st) (timers st) (nextTimer st)
    (intervals st) (nextInterval st) (executing st) (sidebarCalls st)
    (sidebarRunning st) (out st).

Definition set_mcpWebSocket (v : option Sock) (st : State) : State :=
  mkState (mcpServerRunning st) (mcpPort st) (mcpHost st) v
    (reconnectAttempts st) (reconnectTimer st) (shouldReconnect st)
    (keepaliveInterval st) (messageQueue st) (isProcessingMessages st)
    (socks st) (started st) (connectTimers st) (timers st) (nextTimer st)
    (intervals st) (nextInterval st) (executing st) (sidebarCalls st)
    (sidebarRunning st) (out st).

Definition set_reconnectAttempts (v : nat) (st : State) : State :=
  mkState (mcpServerRunning st) (mcpPort st) (mcpHost st) (mcpWebSocket st)
    v (reconnectTimer st) (shouldReconnect st) (keepaliveInterval st)
    (messageQueue st) (isProcessingMessages st) (socks st) (started st)
    (connectTimers st) (timers st) (nextTimer st) (intervals st)
    (nextInterval st) (executing st) (sidebarCalls st) (sidebarRunning st)
    (out st).

Definition set_reconnectTimer (v : option nat) (st : State) : State :=
  mkState (mcpServerRunning st) (mcpPort st) (mcpHost st) (mcpWebSocket st)
    (reconnectAttempts st) v (shouldReconnect st) (keepaliveInterval st)
    (messageQueue st) (isProcessingMessages st) (socks st) (started st)
    (connectTimers st) (timers st) (nextTimer st) (intervals st)
    (nextInterval st) (executing st) (sidebarCalls st) (sidebarRunning st)
    (out st).

Definition set_shouldReconnect (v : bool) (st : State) : State :=
  mkState (mcpServerRunning st) (mcpPort st) (mcpHost st) (mcpWebSocket st)
    (reconnectAttempts st) (reconnectTimer st) v (keepaliveInterval st)
    (messageQueue st) (isProcessingMessages st) (socks st) (started st)
    (connectTimers st) (timers st) (nextTimer st) (intervals st)
    (nextInterval st) (executing st) (sidebarCalls st) (sidebarRunning st)
    (out st).

Definition set_keepaliveInterval (v : option nat) (st : State) : State :=
  mkState (mcpServerRunning st) (mcpPort st) (mcpHost st) (mcpWebSocket st)
    (reconnectAttempts st) (reconnectTimer st) (shouldReconnect st) v
    (messageQueue st) (isProcessingMessages st) (socks st) (started st)
    (connectTimers st) (timers st) (nextTimer st) (intervals st)
    (nextInterval st) (executing st) (sidebarCalls st) (sidebarRunning st)
    (out st).

Definition set_messageQueue (v : list ToolCall) (st : State) : State :=
  mkState (mcpServerRunning st) (mcpPort st) (mcpHost st) (mcpWebSocket st)
    (reconnectAttempts st) (reconnectTimer st) (shouldReconnect st)
    (keepaliveInterval st) v (isProcessingMessages st) (socks st)
    (started st) (connectTimers st) (timers st) (nextTimer st)
    (intervals st) (nextInterval st) (executing st) (sidebarCalls st)
    (sidebarRunning st) (out st).

Definition set_isProcessingMessages (v : bool) (st : State) : State :=
  mkState (mcpServerRunning st) (mcpPort st) (mcpHost st) (mcpWebSocket st)
    (reconnectAttempts st) (reconnectTimer st) (shouldReconnect st)
    (keepaliveInterval st) (messageQueue st) v (socks st) (started st)
    (connectTimers st) (timers st) (nextTimer st) (intervals st)
    (nextInterval st) (executing st) (sidebarCalls st) (sidebarRunning st)
    (out st).

Definition set_socks (v : gmap Sock ReadyState) (st : State) : State :=
  mkState (mcpServerRunning st) (mcpPort st) (mcpHost st) (mcpWebSocket st)
    (reconnectAttempts st) (reconnectTimer st) (shouldReconnect st)
    (keepaliveInterval st) (messageQueue st) (isProcessingMessages st) v
    (started st) (connectTimers st) (timers st) (nextTimer st)
    (intervals st) (nextInterval st) (executing st) (sidebarCalls st)
    (sidebarRunning st) (out st).

Definition set_started (v : nat) (st : State) : State :=
  mkState (mcpServerRunning st) (mcpPort st) (mcpHost st) (mcpWebSocket st)
    (reconnectAttempts st) (reconnectTimer st) (shouldReconnect st)
    (keepaliveInterval st) (messageQueue st) (isProcessingMessages st)
    (socks st) v (connectTimers st) (timers st) (nextTimer st)
    (intervals st) (nextInterval st) (executing st) (sidebarCalls st)
    (sidebarRunning st) (out st).

Definition set_connectTimers (v : gset nat) (st : State) : State :=
  mkState (mcpServerRunning st) (mcpPort st) (mcpHost st) (mcpWebSocket st)
    (reconnectAttempts st) (reconnectTimer st) (shouldReconnect st)
    (keepaliveInterval st) (messageQueue st) (isProcessingMessages st)
    (socks st) (started st) v (timers st) (nextTimer st) (intervals st)
    (nextInterval st) (executing st) (sidebarCalls st) (sidebarRunning st)
    (out st).

Definition set_timers (v : gset nat) (st : State) : State :=
  mkState (mcpServerRunning st) (mcpPort st) (mcpHost st) (mcpWebSocket st)
    (reconnectAttempts st) (reconnectTimer st) (shouldReconnect st)
    (keepaliveInterval st) (messageQueue st) (isProcessingMessages st)
    (socks st) (started st) (connectTimers st) v (nextTimer st)
    (intervals st) (nextInterval st) (executing st) (sidebarCalls st)
    (sidebarRunning st) (out st).

Definition set_nextTimer (v : nat) (st : State) : State :=
  mkState (mcpServerRunning st) (mcpPort st) (mcpHost st) (mcpWebSocket st)
    (reconnectAttempts st) (reconnectTimer st) (shouldReconnect st)
    (keepaliveInterval st) (messageQueue st) (isProcessingMessages st)
    (socks st) (started st) (connectTimers st) (timers st) v (intervals st)
    (nextInterval st) (executing st) (sidebarCalls st) (sidebarRunning st)
    (out st).

Definition set_intervals (v : gset nat) (st : State) : State :=
  mkState (mcpServerRunning st) (mcpPort st) (mcpHost st) (mcpWebSocket st)
    (reconnectAttempts st) (reconnectTimer st) (shouldReconnect st)
    (keepaliveInterval st) (messageQueue st) (isProcessingMessages st)
    (socks st) (started st) (connectTimers st) (timers st) (nextTimer st) v
    (nextInterval st) (executing st) (sidebarCalls st) (sidebarRunning st)
    (out st).

Definition set_nextInterval (v : nat) (st : State) : State :=
  mkState (mcpServerRunning st) (mcpPort st) (mcpHost st) (mcpWebSocket st)
    (reconnectAttempts st) (reconnectTimer st) (shouldReconnect st)
    (keepaliveInterval st) (messageQueue st) (isProcessingMessages st)
    (socks st) (started st) (connectTimers st) (timers st) (nextTimer st)
    (intervals st) v (executing st) (sidebarCalls st) (sidebarRunning st)
    (out st).

Definition set_executing (v : option ToolCall) (st : State) : State :=
  mkState (mcpServerRunning st) (mcpPort st) (mcpHost st) (mcpWebSocket st)
    (reconnectAttempts st) (reconnectTimer st) (shouldReconnect st)
    (keepaliveInterval st) (messageQueue st) (isProcessingMessages st)
    (socks st) (started st) (connectTimers st) (timers st) (nextTimer st)
    (intervals st) (nextInterval st) v (sidebarCalls st) (sidebarRunning st)
    (out st).

Definition set_sidebarCalls (v : nat) (st : State) : State :=
  mkState (mcpServerRunning st) (mcpPort st) (mcpHost st) (mcpWebSocket st)
    (reconnectAttempts st) (reconnectTimer st) (shouldReconnect st)
    (keepaliveInterval st) (messageQueue st) (isProcessingMessages st)
    (socks st) (started st) (connectTimers st) (timers st) (nextTimer st)
    (intervals st) (nextInterval st) (executing st) v (sidebarRunning st)
    (out st).

Definition set_sidebarRunning (v : gmap nat Caller) (st : State) : State :=
  mkState (mcpServerRunning st) (mcpPort st) (mcpHost st) (mcpWebSocket st)
    (reconnectAttempts st) (reconnectTimer st) (shouldReconnect st)
    (keepaliveInterval st) (messageQueue st) (isProcessingMessages st)
    (socks st) (started st) (connectTimers st) (timers st) (nextTimer st)
    (intervals st) (nextInterval st) (executing st) (sidebarCalls st) v
    (out st).

Definition set_out (v : list Output) (st : State) : State :=
  mkState (mcpServerRunning st) (mcpPort st) (mcpHost st) (mcpWebSocket st)
    (reconnectAttempts st) (reconnectTimer st) (shouldReconnect st)
    (keepaliveInterval st) (messageQueue st) (isProcessingMessages st)
    (socks st) (started st) (connectTimers st) (timers st) (nextTimer st)
    (intervals st) (nextInterval st) (executing st) (sidebarCalls st)
    (sidebarRunning st) v.

Definition emit (o : Output) (st : State) : State :=
  set_out (out st ++ [o]) st.

(** JavaScript truthiness of a string. *)
Definition truthy (s : string) : bool :=
  match s with EmptyString => false | String _ _ => true end.

(** [updateBadge(connected, reconnecting = false)] *)
Definition updateBadge (connected reconnecting : bool) : State → State :=
  emit (OBadge (if connected then Connected
                else if reconnecting then Reconnecting else Disconnected)).

(** [resolve(r)] of the promise made by call [k] of [startMCPServer]. *)
Definition resolve (k : nat) (r : StartResult) : State → State :=
  emit (OResolve k r).

Definition clearTimeout (t : nat) (st : State) : State :=
  set_timers (timers st ∖ {[t]}) st.

(** [ws.readyState], for a socket that exists. *)
Definition readyState (st : State) (ws : Sock) : option ReadyState :=
  socks st !! ws.

(** [ws.close()]: a socket that is connecting or open starts to close. *)
Definition close (ws : Sock) (st : State) : State :=
  let st := emit (OClose ws) st in
  match readyState st ws with
  | Some CONNECTING | Some OPEN => set_socks (<[ws := CLOSING]> (socks st)) st
  | _ => st
  end.

(** [mcpWebSocket && mcpWebSocket.readyState === WebSocket.OPEN] *)
Definition socket_open (st : State) : bool :=
  match mcpWebSocket st with
  | Some ws => bool_decide (readyState st ws = Some OPEN)
  | None => false
  end.

(** [ws.send(data)] as the browser does it: it throws on a socket that
    is still connecting ([None]), hands the frame over on an open one, and
    discards it on one that is closing or closed. *)
Definition send (ws : Sock) (f : Frame) (st : State) : option State :=
  match readyState st ws with
  | Some CONNECTING => None
  | Some OPEN => Some (emit (OSend ws f) st)
  | _ => Some st
  end.

(** Timer and interval ids are positive numbers in the browser, so a
    variable that holds one is truthy: [reconnectTimer] as a condition is
    [reconnectTimer !== null]. *)
Definition timer_set (st : State) : bool :=
  bool_decide (is_Some (reconnectTimer st)).

Section WithNetwork.

(** [new WebSocket(url)] returns a socket, or throws when the URL built
    from the host and the port is not a valid one. *)
Variable valid_url : string → N → bool.

(** ** Keepalive *)

Definition stopKeepalive (st : State) : State :=
  match keepaliveInterval st with
  | Some i => set_keepaliveInterval None (set_intervals (intervals st ∖ {[i]}) st)
  | None => st
  end.

(** ** [startMCPServer] *)

(** [port] and [host] are the arguments as passed; [None] is
    [undefined]. *)
Definition startMCPServer (port : option N) (host : option string)
    (st : State) : State :=
  let st := set_mcpPort (match port with
                         | Some p => if (p =? 0)%N then 3052%N else p
                         | None => 3052%N
                         end) st in
  let st := set_mcpHost (match host with
                         | Some h => if truthy h then h else "localhost"
                         | None => "localhost"
                         end) st in
  let st := match reconnectTimer st with
            | Some t => set_reconnectTimer None (clearTimeout t st)
            | None => st
            end in
  let k := started st in
  let st := set_started (S k) st in
  if valid_url (mcpHost st) (mcpPort st) then
    let st := emit (ONewSocket k (mcpHost st) (mcpPort st)) st in
    let st := set_socks (<[k := CONNECTING]> (socks st)) st in
    let st := set_mcpWebSocket (Some k) st in
    set_connectTimers ({[k]} ∪ connectTimers st) st
  else
    resolve k (StartFailed "Invalid WebSocket URL") (updateBadge false false st).

(** The tick of the interval set by [startKeepalive]. *)
Definition keepalive_tick (st : State) : State :=
  if socket_open st then
    match mcpWebSocket st with
    | Some ws => default st (send ws FPing st)
    | None => st
    end
  else if shouldReconnect st && negb (timer_set st) then
    startMCPServer (Some (mcpPort st)) (Some (mcpHost st))
      (updateBadge false true (set_mcpServerRunning false st))
  else st.

Definition startKeepalive (st : State) : State :=
  let st := stopKeepalive st in
  let i := nextInterval st in
  set_keepaliveInterval (Some i)
    (set_intervals ({[i]} ∪ intervals st) (set_nextInterval (S i) st)).

Definition stopMCPServer (st : State) : State :=
  let st := stopKeepalive st in
  let st := match mcpWebSocket st with
            | Some ws => set_mcpWebSocket None (close ws st)
            | None => st
            end in
  updateBadge false false (set_mcpServerRunning false st).

(** ** The handlers [startMCPServer] installs on socket [ws] *)

(** [onopen] of socket [ws].  [mcpWebSocket.send] is called on whatever
    socket the variable holds by now; on [null] and on a socket that is
    still connecting it throws, which ends the handler. *)
Definition on_open (ws : Sock) (st : State) : State :=
  let st := set_mcpServerRunning true st in
  let st := set_reconnectAttempts 0 st in
  let st := updateBadge true false st in
  match mcpWebSocket st with
  | None => st
  | Some cur =>
      match send cur FRegister st with
      | None => st
      | Some st =>
          let st := startKeepalive st in
          resolve ws (Started (mcpPort st) (mcpHost st)) st
      end
  end.

Definition on_error (ws : Sock) (st : State) : State :=
  let st := set_mcpServerRunning false st in
  let st := updateBadge false false st in
  resolve ws (StartFailed "Failed to connect. Make sure MCP server is running.") st.

Definition on_close (st : State) : State :=
  let st := set_mcpServerRunning false st in
  let st := stopKeepalive st in
  let st :=
    if shouldReconnect st
       && bool_decide (reconnectAttempts st < MAX_RECONNECT_ATTEMPTS)
    then
      let st := set_reconnectAttempts (S (reconnectAttempts st)) st in
      let st := updateBadge false true st in
      let t := nextTimer st in
      set_reconnectTimer (Some t)
        (set_timers ({[t]} ∪ timers st) (set_nextTimer (S t) st))
    else updateBadge false false st in
  emit OStatusChanged st.

(** ** The message queue *)

(** The head of the [while] loop of [processMessageQueue], run until the
    [await] of [executeToolCall]. *)
Definition next_message (st : State) : State :=
  match messageQueue st with
  | [] => set_executing None (set_isProcessingMessages false st)
  | m :: q => emit (OExecute m) (set_executing (Some m) (set_messageQueue q st))
  end.

Definition processMessageQueue (st : State) : State :=
  if isProcessingMessages st then st
  else match messageQueue st with
       | [] => st
       | _ :: _ => next_message (set_isProcessingMessages true st)
       end.

Definition handleMCPMessage (m : PeerMsg) (st : State) : State :=
  match m with
  | MToolCall tc => processMessageQueue (set_messageQueue (messageQueue st ++ [tc]) st)
  | MPong | MRegistered | MOther | MMalformed => st
  end.

(** The rest of the loop body once [executeToolCall] has ended with [o]:
    the result is sent if the socket is open, and the loop goes on. *)
Definition tool_done (o : Outcome) (st : State) : State :=
  match executing st with
  | None => st
  | Some m =>
      let result := match o with
                    | Returned r => Result r
                    | Threw e => ErrorObj e
                    end in
      let st :=
        if socket_open st then
          match mcpWebSocket st with
          | Some ws => default st (send ws (FToolResult (id m) result) st)
          | None => st
          end
        else emit (ODropped m) st in
      next_message st
  end.

(** ** Timers *)

(** The 5 s timer armed by call [k] of [startMCPServer]. *)
Definition connect_timeout (k : nat) (st : State) : State :=
  if bool_decide (k ∈ connectTimers st) then
    let st := set_connectTimers (connectTimers st ∖ {[k]}) st in
    match mcpWebSocket st with
    | Some ws =>
        if negb (mcpServerRunning st)
           && bool_decide (readyState st ws = Some CONNECTING)
        then resolve k (StartFailed "Connection timeout.")
               (updateBadge false false (close ws st))
        else st
    | None => st
    end
  else st.

(** The timer armed by [onclose]. *)
Definition reconnect_fired (t : nat) (st : State) : State :=
  if bool_decide (t ∈ timers st) then
    let st := set_timers (timers st ∖ {[t]}) st in
    let st := set_reconnectTimer None st in
    startMCPServer (Some (mcpPort st)) (Some (mcpHost st)) st
  else st.

(** The [keepalive] alarm. *)
Definition alarm (st : State) : State :=
  if shouldReconnect st && negb (mcpServerRunning st)
     && negb (timer_set st)
  then startMCPServer (Some (mcpPort st)) (Some (mcpHost st)) st
  else st.

(** ** [handleMessage] *)

Definition start_message (port : option N) (host : option string)
    (st : State) : State :=
  startMCPServer port host (set_reconnectAttempts 0 (set_shouldReconnect true st)).

Definition stop_message (st : State) : State :=
  let st := set_shouldReconnect false st in
  let st := match reconnectTimer st with
            | Some t => set_reconnectTimer None (clearTimeout t st)
            | None => st
            end in
  stopMCPServer st.

(** [GET_MCP_STATUS]: [{ connected, reconnecting }]. *)
Definition status (st : State) : bool * bool :=
  (mcpServerRunning st, timer_set st).

(** The [chrome.tabs.onUpdated] listener, for [changeInfo.status ===
    'complete']. *)
Definition page_changed (url title : Json) (st : State) : State :=
  if mcpServerRunning st then
    match mcpWebSocket st with
    | Some ws => default st (send ws (FPageChanged url title) st)
    | None => st
    end
  else st.

(** The case [SIDEBAR_TOOL_CALL] of [handleMessage], up to the [await]:
    [executeToolCall] is called at once.  [messageQueue] and
    [isProcessingMessages] are not looked at. *)
Definition sidebar_call (c : Caller) (tool params : Json) (st : State) : State :=
  let k := sidebarCalls st in
  emit (OSidebarExecute k tool params)
    (set_sidebarRunning (<[k := c]> (sidebarRunning st))
       (set_sidebarCalls (S k) st)).

(** The end of that call of [executeToolCall].  What it returned is what
    [handleMessage] returns, and the listener passes it to [sendResponse]
    or [port.postMessage]; when it threw, the promise of [handleMessage]
    rejects and the listener sends nothing. *)
Definition sidebar_done (k : nat) (o : Outcome) (st : State) : State :=
  match sidebarRunning st !! k with
  | Some c =>
      let st := set_sidebarRunning (delete k (sidebarRunning st)) st in
      match o with
      | Returned r => emit (OSidebarResponse k c r) st
      | Threw _ => st
      end
  | None => st
  end.

(** ** Events *)

(** What happens to the module: the messages of the popup ([EvStart],
    [EvStop]); the startup code, which reads the stored settings
    ([EvAutoConnect], with [stored.autoReconnect !== false]) and whose
    timer then connects ([EvStartupTimer]); the events of a socket; the
    timers, the keepalive interval and the alarm; a tab that has finished
    loading; the end of the tool call that [processMessageQueue] awaits;
    a [SIDEBAR_TOOL_CALL] message ([EvSidebarCall]) and the end of the
    tool call made for the [k]-th of them ([EvSidebarDone]). *)
Inductive Event :=
| EvStart (port : option N) (host : option string)
| EvStop
| EvAutoConnect (autoReconnect : bool)
| EvStartupTimer (port : option N) (host : option string)
| EvOpen (ws : Sock)
| EvError (ws : Sock)
| EvClosing (ws : Sock)
| EvClose (ws : Sock)
| EvMessage (ws : Sock) (m : PeerMsg)
| EvConnectTimeout (k : nat)
| EvReconnectTimer (t : nat)
| EvKeepalive (i : nat)
| EvAlarm
| EvTabComplete (url title : Json)
| EvToolDone (o : Outcome)
| EvSidebarCall (c : Caller) (tool params : Json)
| EvSidebarDone (k : nat) (o : Outcome).

(** The browser delivers [open] to a connecting socket, [close] once, and
    frames while the socket is open or closing; a socket may start to close
    ([EvClosing]) some time before its [close] event; a cleared timer or
    interval never fires; a call of [executeToolCall] ends once. *)
Definition handle (e : Event) (st : State) : State :=
  match e with
  | EvStart port host => start_message port host st
  | EvStop => stop_message st
  | EvAutoConnect autoReconnect =>
      if autoReconnect then set_shouldReconnect true st else st
  | EvStartupTimer port host => startMCPServer port host st
  | EvOpen ws =>
      match readyState st ws with
      | Some CONNECTING => on_open ws (set_socks (<[ws := OPEN]> (socks st)) st)
      | _ => st
      end
  | EvError ws =>
      match readyState st ws with
      | Some CONNECTING | Some OPEN | Some CLOSING => on_error ws st
      | _ => st
      end
  | EvClosing ws =>
      match readyState st ws with
      | Some CONNECTING | Some OPEN => set_socks (<[ws := CLOSING]> (socks st)) st
      | _ => st
      end
  | EvClose ws =>
      match readyState st ws with
      | Some CONNECTING | Some OPEN | Some CLOSING =>
          on_close (set_socks (<[ws := CLOSED]> (socks st)) st)
      | _ => st
      end
  | EvMessage ws m =>
      match readyState st ws with
      | Some OPEN | Some CLOSING => handleMCPMessage m st
      | _ => st
      end
  | EvConnectTimeout k => connect_timeout k st
  | EvReconnectTimer t => reconnect_fired t st
  | EvKeepalive i =>
      if bool_decide (i ∈ intervals st) then keepalive_tick st else st
  | EvAlarm => alarm st
  | EvTabComplete url title => page_changed url title st
  | EvToolDone o => tool_done o st
  | EvSidebarCall c tool params => sidebar_call c tool params st
  | EvSidebarDone k o => sidebar_done k o st
  end.

Definition run (tr : list Event) (st : State) : State :=
  foldl (λ acc e, handle e acc) st tr.

(** ** Observations *)

(** The tool calls that [processMessageQueue] has handed to
    [executeToolCall] so far, in order. *)
Definition executes (o : list Output) : list ToolCall :=
  omap (λ x, match x with OExecute m => Some m | _ => None end) o.

(** The ids of the tool calls of [processMessageQueue] whose execution has
    ended, in the order in which the result was sent or dropped. *)
Definition settled (o : list Output) : list Json :=
  omap (λ x, match x with
             | OSend _ (FToolResult i _) => Some i
             | ODropped m => Some (id m)
             | _ => None
             end) o.

(** The id of the call [processMessageQueue] is waiting for, if any. *)
Definition in_hand (st : State) : list Json :=
  match executing st with Some m => [id m] | None => [] end.

(** [o] neither makes a socket nor sends a frame. *)
Definition silent (o : Output) : bool :=
  match o with
  | ONewSocket _ _ _ | OSend _ _ => false
  | _ => true
  end.

(** The [tool_call] messages the run [tr] from [st] delivers, in order. *)
Fixpoint received (tr : list Event) (st : State) : list ToolCall :=
  match tr with
  | [] => []
  | e :: tr' =>
      match e with
      | EvMessage ws (MToolCall m) =>
          match readyState st ws with
          | Some OPEN | Some CLOSING => [m]
          | _ => []
          end
      | _ => []
      end ++ received tr' (handle e st)
  end.

(** [e] resets the attempt counter: a socket opens, or the popup asks for a
    connection. *)
Definition resets (e : Event) : bool :=
  match e with
  | EvStart _ _ | EvOpen _ => true
  | _ => false
  end.

(** [e] asks for a connection: the popup does, or the startup code. *)
Definition asks (e : Event) : bool :=
  match e with
  | EvStart _ _ | EvAutoConnect _ | EvStartupTimer _ _ => true
  | _ => false
  end.

(** [e] gives the address to connect to: the popup does, or the startup
    code. *)
Definition addresses (e : Event) : bool :=
  match e with
  | EvStart _ _ | EvStartupTimer _ _ => true
  | _ => false
  end.

(** The addresses of the sockets made in [o], in order. *)
Definition dialled (o : list Output) : list (string * N) :=
  omap (λ x, match x with ONewSocket _ h p => Some (h, p) | _ => None end) o.

(** ** Invariants *)

(** [mcpHost] and [mcpPort] hold what [||] lets through. *)
Definition well_addressed (st : State) : Prop :=
  truthy (mcpHost st) = true ∧ mcpPort st ≠ 0%N.


(** The part of the state the message loop works on. *)
Definition queue_part (st : State) :=
  (messageQueue st, isProcessingMessages st, executing st,
   executes (out st), settled (out st)).

(** [e] is a step of the message loop. *)
Definition queue_event (e : Event) : bool :=
  match e with
  | EvMessage _ (MToolCall _) | EvToolDone _ => true
  | _ => false
  end.

(** What the message loop keeps true. *)
Definition queue_inv (st : State) : Prop :=
  isProcessingMessages st = bool_decide (is_Some (executing st)) ∧
  (executing st = None → messageQueue st = []) ∧
  map id (executes (out st)) = settled (out st) ++ in_hand st.

(** [e] starts or ends a tool call made for a [SIDEBAR_TOOL_CALL]. *)
Definition sidebar_event (e : Event) : bool :=
  match e with
  | EvSidebarCall _ _ _ | EvSidebarDone _ _ => true
  | _ => false
  end.

(** The tool calls of [SIDEBAR_TOOL_CALL] messages that have not ended are
    among those started. *)
Definition sidebar_inv (st : State) : Prop :=
  ∀ k, is_Some (sidebarRunning st !! k) → k < sidebarCalls st.

(** The number of calls of [executeToolCall] that have started and not
    ended: the one [processMessageQueue] awaits, and those made for
    [SIDEBAR_TOOL_CALL] messages. *)
Definition running (st : State) : nat :=
  length (in_hand st) + size (sidebarRunning st).

(** The armed intervals are the one in [keepaliveInterval]. *)
Definition one_interval (st : State) : Prop :=
  intervals st =
  match keepaliveInterval st with Some i => {[i]} | None => ∅ end.

(** Reconnection is off, no socket is held and no timer is armed. *)
Definition stopped (st : State) : Prop :=
  shouldReconnect st = false ∧ mcpWebSocket st = None ∧
  reconnectTimer st = None ∧ timers st = ∅.

(** ** Reasoning support *)

Ltac lk_simpl :=
  cbn [mcpServerRunning mcpPort mcpHost mcpWebSocket reconnectAttempts
       reconnectTimer shouldReconnect keepaliveInterval messageQueue
       isProcessingMessages socks started connectTimers timers nextTimer
       intervals nextInterval executing sidebarCalls sidebarRunning out
       set_mcpServerRunning set_mcpPort set_mcpHost set_mcpWebSocket
       set_reconnectAttempts set_reconnectTimer set_shouldReconnect
       set_keepaliveInterval set_messageQueue set_isProcessingMessages
       set_socks set_started set_connectTimers set_timers set_nextTimer
       set_intervals set_nextInterval set_executing set_sidebarCalls
       set_sidebarRunning set_out
       emit updateBadge resolve clearTimeout default Datatypes.id] in *.

Ltac lk_unfold :=
  unfold start_message, stop_message, stopMCPServer, on_open,
    on_error, on_close, keepalive_tick, startKeepalive, stopKeepalive,
    handleMCPMessage, processMessageQueue, next_message, tool_done,
    connect_timeout, reconnect_fired, alarm, page_changed, sidebar_call,
    sidebar_done, send, close, socket_open, timer_set, readyState in *.

Ltac lk_cases :=
  repeat (lk_simpl;
          first [ case_match | case_bool_decide ]; simplify_eq/=).

Ltac lk_go := repeat (progress (lk_unfold; lk_cases)).

Ltac lk_queue :=
  repeat match goal with
         | H : messageQueue _ = _ |- _ => rewrite H in *; clear H
         | H : executing _ = _ |- _ => rewrite H in *; clear H
         | H : isProcessingMessages _ = _ |- _ => rewrite H in *; clear H
         end.

Lemma link_run_app tr tr' st : run (tr ++ tr') st = run tr' (run tr st).
Proof. unfold run. by rewrite foldl_app. Qed.

Lemma executes_snoc o x :
  executes (o ++ [x]) = executes o ++ match x with OExecute m => [m] | _ => [] end.
Proof. unfold executes. rewrite omap_app. by destruct x. Qed.

Lemma settled_snoc o x :
  settled (o ++ [x]) =
  settled o ++ match x with
               | OSend _ (FToolResult i _) => [i]
               | ODropped m => [id m]
               | _ => []
               end.
Proof. unfold settled. rewrite omap_app. destruct x as [| | ? []| | | | | | |]; done. Qed.

(** What [startMCPServer] leaves alone. *)

Ltac start_frame := intros; unfold startMCPServer; lk_cases; done.

Lemma startMCPServer_messageQueue p h st :
  messageQueue (startMCPServer p h st) = messageQueue st.
Proof. start_frame. Qed.

Lemma startMCPServer_isProcessingMessages p h st :
  isProcessingMessages (startMCPServer p h st) = isProcessingMessages st.
Proof. start_frame. Qed.

Lemma startMCPServer_executing p h st :
  executing (startMCPServer p h st) = executing st.
Proof. start_frame. Qed.

Lemma startMCPServer_reconnectAttempts p h st :
  reconnectAttempts (startMCPServer p h st) = reconnectAttempts st.
Proof. start_frame. Qed.

Lemma startMCPServer_nextTimer p h st :
  nextTimer (startMCPServer p h st) = nextTimer st.
Proof. start_frame. Qed.

Lemma startMCPServer_shouldReconnect p h st :
  shouldReconnect (startMCPServer p h st) = shouldReconnect st.
Proof. start_frame. Qed.

Lemma startMCPServer_keepaliveInterval p h st :
  keepaliveInterval (startMCPServer p h st) = keepaliveInterval st.
Proof. start_frame. Qed.

Lemma startMCPServer_intervals p h st :
  intervals (startMCPServer p h st) = intervals st.
Proof. start_frame. Qed.

Lemma startMCPServer_nextInterval p h st :
  nextInterval (startMCPServer p h st) = nextInterval st.
Proof. start_frame. Qed.

Lemma startMCPServer_mcpServerRunning p h st :
  mcpServerRunning (startMCPServer p h st) = mcpServerRunning st.
Proof. start_frame. Qed.

Lemma startMCPServer_executes p h st :
  executes (out (startMCPServer p h st)) = executes (out st).
Proof.
  unfold startMCPServer; lk_cases; by rewrite ?executes_snoc, ?app_nil_r.
Qed.

Lemma startMCPServer_settled p h st :
  settled (out (startMCPServer p h st)) = settled (out st).
Proof.
  unfold startMCPServer; lk_cases; by rewrite ?settled_snoc, ?app_nil_r.
Qed.

Lemma startMCPServer_reconnectTimer p h st :
  reconnectTimer (startMCPServer p h st) = None.
Proof. start_frame. Qed.

Lemma startMCPServer_timers p h st :
  timers (startMCPServer p h st) =
  match reconnectTimer st with Some t => timers st ∖ {[t]} | None => timers st end.
Proof. start_frame. Qed.

Lemma startMCPServer_started p h st :
  started (startMCPServer p h st) = S (started st).
Proof. start_frame. Qed.

Ltac lk_start :=
  rewrite ?startMCPServer_messageQueue, ?startMCPServer_isProcessingMessages,
    ?startMCPServer_executing, ?startMCPServer_reconnectAttempts,
    ?startMCPServer_nextTimer, ?startMCPServer_shouldReconnect,
    ?startMCPServer_keepaliveInterval, ?startMCPServer_intervals,
    ?startMCPServer_nextInterval, ?startMCPServer_mcpServerRunning,
    ?startMCPServer_executes, ?startMCPServer_settled,
    ?startMCPServer_reconnectTimer, ?startMCPServer_timers,
    ?startMCPServer_started in *.

(** ** The queue *)

Lemma other_event_queue e st :
  queue_event e = false → queue_part (handle e st) = queue_part st.
Proof.
  intros He. unfold queue_part.
  destruct e as [| | | | | | | |? []| | | | | | | |]; try done; cbn [handle].
  all: lk_go; lk_start; lk_simpl;
    rewrite ?executes_snoc, ?settled_snoc, ?app_nil_r; done.
Qed.

Lemma handle_queue e st :
  executes (out (handle e st)) ++ messageQueue (handle e st) =
  executes (out st) ++ messageQueue st ++ received [e] st.
Proof.
  destruct (queue_event e) eqn:He.
  - destruct e as [| | | | | | | |? []| | | | | | | |]; try done; cbn [received handle];
      rewrite ?app_nil_r.
    all: lk_go; rewrite ?executes_snoc, ?app_nil_r, <- ?app_assoc; try done.
    all: lk_queue; by rewrite ?app_nil_r.
  - pose proof (other_event_queue e st He) as E. unfold queue_part in E.
    injection E as Eq Ep Ee Ex Es. rewrite Ex, Eq.
    destruct e as [| | | | | | | |? []| | | | | | | |]; try done; cbn [received];
      rewrite ?app_nil_r; done.
Qed.

Lemma run_queue tr st :
  executes (out (run tr st)) ++ messageQueue (run tr st) =
  executes (out st) ++ messageQueue st ++ received tr st.
Proof.
  revert st. induction tr as [|e tr IH]; intros st.
  - cbn. by rewrite app_nil_r.
  - change (run (e :: tr) st) with (run tr (handle e st)).
    rewrite IH, app_assoc, handle_queue. cbn [received]. by rewrite app_nil_r, <- !app_assoc.
Qed.

(** X15. Tool calls are handed to [executeToolCall] in the order in which
    their [tool_call] messages arrived, none lost and none repeated: after
    any run from the loaded module, the calls executed so far followed by
    the calls still in [messageQueue] are exactly the calls received. *)
Theorem executed_in_receipt_order tr :
  executes (out (run tr init)) ++ messageQueue (run tr init) = received tr init.
Proof. rewrite run_queue. cbn [init out messageQueue executes omap]. done. Qed.

Lemma queue_inv_part st st' : queue_part st' = queue_part st → queue_inv st → queue_inv st'.
Proof.
  unfold queue_part, queue_inv, in_hand. intros E.
  injection E as Eq Ep Ee Ex Es. by rewrite Eq, Ep, Ee, Ex, Es.
Qed.

Lemma handleMCPMessage_queue_inv m st :
  queue_inv st → queue_inv (handleMCPMessage (MToolCall m) st).
Proof.
  unfold queue_inv, in_hand. intros (Hp & Hq & Hs).
  unfold handleMCPMessage, processMessageQueue, next_message. lk_simpl.
  destruct (isProcessingMessages st) eqn:E.
  - lk_simpl. rewrite E. split; [done|]. split; [|done].
    intros Hn. rewrite Hn in Hp. done.
  - symmetry in Hp. apply bool_decide_eq_false in Hp.
    assert (He : executing st = None).
    { destruct (executing st); [|done]. destruct Hp. by eexists. }
    rewrite (Hq He), He in *. cbn. lk_simpl.
    rewrite executes_snoc, settled_snoc, map_app, Hs. cbn.
    split; [done|]. split; [done|]. by rewrite !app_nil_r.
Qed.

Lemma tool_done_queue_inv o st : queue_inv st → queue_inv (tool_done o st).
Proof.
  unfold queue_inv, in_hand. intros (Hp & Hq & Hs).
  unfold tool_done. destruct (executing st) as [m|] eqn:He; [|by rewrite He].
  assert (∃ st1, (if socket_open st
            then match mcpWebSocket st with
                 | Some ws =>
                     default st
                       (send ws (FToolResult (id m)
                          match o with Returned r => Result r | Threw e => ErrorObj e end) st)
                 | None => st
                 end
            else emit (ODropped m) st) = st1 ∧
            settled (out st1) = settled (out st) ++ [id m] ∧
            executes (out st1) = executes (out st) ∧
            messageQueue st1 = messageQueue st ∧
            isProcessingMessages st1 = isProcessingMessages st)
    as (st1 & -> & Hs1 & He1 & Hq1 & Hp1).
  { unfold socket_open, send, readyState.
    clear Hp Hq Hs.
    destruct (mcpWebSocket st) as [ws|]; [case_bool_decide as Hr; [rewrite Hr|]|].
    all: lk_simpl; eexists; split; [reflexivity|]; lk_simpl;
      by rewrite ?settled_snoc, ?executes_snoc, ?app_nil_r. }
  unfold next_message. destruct (messageQueue st1) as [|m' q] eqn:Eq; lk_simpl.
  - rewrite Hs1, He1, Hs, app_nil_r. done.
  - rewrite executes_snoc, settled_snoc, map_app, Hs1, He1, Hs, app_nil_r, Hp1, Hp.
    done.
Qed.

Lemma handle_queue_inv e st : queue_inv st → queue_inv (handle e st).
Proof.
  intros H. destruct (queue_event e) eqn:He.
  - destruct e as [| | | | | | | |ws []| | | | | | | |]; try done; cbn [handle].
    + destruct (readyState st ws) as [[]|]; auto using handleMCPMessage_queue_inv.
    + by apply tool_done_queue_inv.
  - eapply queue_inv_part; [|done]. by apply other_event_queue.
Qed.

Lemma run_queue_inv tr st : queue_inv st → queue_inv (run tr st).
Proof.
  revert st. induction tr as [|e tr IH]; intros st H; [done|].
  apply IH, handle_queue_inv, H.
Qed.

Lemma init_queue_inv : queue_inv init.
Proof. done. Qed.

(** ** Tool calls of the sidebar *)

Lemma startMCPServer_sidebarCalls p h st :
  sidebarCalls (startMCPServer p h st) = sidebarCalls st.
Proof. start_frame. Qed.

Lemma startMCPServer_sidebarRunning p h st :
  sidebarRunning (startMCPServer p h st) = sidebarRunning st.
Proof. start_frame. Qed.

Lemma other_event_sidebar e st :
  sidebar_event e = false →
  sidebarCalls (handle e st) = sidebarCalls st ∧
  sidebarRunning (handle e st) = sidebarRunning st.
Proof.
  intros He. destruct e; try done; cbn [handle].
  all: lk_go;
    rewrite ?startMCPServer_sidebarCalls, ?startMCPServer_sidebarRunning;
    lk_simpl; done.
Qed.

Lemma handle_sidebar_inv e st : sidebar_inv st → sidebar_inv (handle e st).
Proof.
  intros H. destruct (sidebar_event e) eqn:He.
  - destruct e; try done; cbn [handle]; unfold sidebar_call, sidebar_done.
    + lk_simpl. intros k' [c' Hk]. lk_simpl.
      destruct (decide (k' = sidebarCalls st)) as [->|Hne]; [lia|].
      rewrite lookup_insert_ne in Hk by done.
      assert (k' < sidebarCalls st) by (apply H; by eexists). lia.
    + destruct (sidebarRunning st !! k) as [c|] eqn:Ek; [|done].
      assert (Hd : ∀ k', is_Some (delete k (sidebarRunning st) !! k') →
                         k' < sidebarCalls st).
      { intros k' [c' Hk]. apply lookup_delete_Some in Hk as [_ Hk].
        apply H. by eexists. }
      destruct o; lk_simpl; exact Hd.
  - destruct (other_event_sidebar e st He) as [Ec Er].
    unfold sidebar_inv. by rewrite Ec, Er.
Qed.

Lemma run_sidebar_inv tr st : sidebar_inv st → sidebar_inv (run tr st).
Proof.
  revert st. induction tr as [|e tr IH]; intros st H; [done|].
  apply IH, handle_sidebar_inv, H.
Qed.

Lemma init_sidebar_inv : sidebar_inv init.
Proof.
  intros k [c Hk]. cbn [init sidebarRunning] in Hk.
  by rewrite lookup_empty in Hk.
Qed.

(** X16. The tool calls that arrive over the socket are executed one at a
    time among themselves and settled in order: after any run from the
    loaded module, the ids of the calls that [processMessageQueue] handed
    to [executeToolCall] are the ids of the results sent or given up, in
    the same order, followed by the id of the one call it is still waiting
    for, if there is one.  A [SIDEBAR_TOOL_CALL] message does not go
    through that loop: whatever the loop is doing, [handleMessage] calls
    [executeToolCall] at once, the queue, its flag and the call the loop
    waits for are as before, and one more call of [executeToolCall] is
    running than before. *)
Theorem one_call_at_a_time tr :
  let st := run tr init in
  map id (executes (out st)) = settled (out st) ++ in_hand st ∧
  ∀ c tool params,
    let st' := handle (EvSidebarCall c tool params) st in
    out st' = out st ++ [OSidebarExecute (sidebarCalls st) tool params] ∧
    sidebarRunning st' = <[sidebarCalls st := c]> (sidebarRunning st) ∧
    queue_part st' = queue_part st ∧
    running st' = S (running st).
Proof.
  intros st. split; [apply (run_queue_inv tr init init_queue_inv)|].
  intros c tool params st'.
  pose proof (run_sidebar_inv tr init init_sidebar_inv) as Hi. fold st in Hi.
  assert (Hn : sidebarRunning st !! sidebarCalls st = None).
  { destruct (sidebarRunning st !! sidebarCalls st) as [c'|] eqn:E; [|done].
    assert (sidebarCalls st < sidebarCalls st) by (apply Hi; by eexists). lia. }
  unfold st', running, in_hand. cbn [handle]. unfold sidebar_call.
  lk_simpl. split_and!; [done|done| |].
  - unfold queue_part. lk_simpl.
    by rewrite executes_snoc, settled_snoc, !app_nil_r.
  - rewrite map_size_insert_None by done. lia.
Qed.

Lemma received_tool_done os st : received (map EvToolDone os) st = [].
Proof. revert st. induction os as [|o os IH]; intros st; [done|]. cbn. apply IH. Qed.

Lemma tool_done_drains os st :
  queue_inv st →
  length os = length (messageQueue st) + length (in_hand st) →
  messageQueue (run (map EvToolDone os) st) = [] ∧
  executing (run (map EvToolDone os) st) = None ∧
  isProcessingMessages (run (map EvToolDone os) st) = false.
Proof.
  revert st. induction os as [|o os IH]; intros st Hi Hl.
  - destruct Hi as (Hp & Hq & _). unfold in_hand in Hl. cbn in *.
    destruct (executing st); cbn in Hl; [lia|].
    rewrite Hp. split; [|done]. apply Hq. done.
  - change (run (map EvToolDone (o :: os)) st)
      with (run (map EvToolDone os) (handle (EvToolDone o) st)).
    apply IH; [by apply handle_queue_inv|].
    destruct Hi as (_ & Hq & _). unfold in_hand in *. cbn [handle length] in *.
    unfold tool_done. destruct (executing st) as [m|] eqn:He.
    + assert (∀ st1, messageQueue st1 = messageQueue st →
                length os = length (messageQueue (next_message st1)) +
                            length (match executing (next_message st1) with
                                    | Some m => [id m] | None => [] end)) as Hn.
      { intros st1 E. unfold next_message. rewrite E.
        destruct (messageQueue st); lk_simpl; rewrite ?E; cbn [length] in *; lia. }
      apply Hn. unfold socket_open, send, readyState.
      destruct (mcpWebSocket st); [case_bool_decide as Hr; [rewrite Hr|]|]; done.
    + rewrite (Hq eq_refl) in Hl. cbn in Hl. lia.
Qed.

(** X17. The message loop drains: once every execution that was started or
    queued has ended, whatever the outcomes and whether or not the results
    could be sent, [messageQueue] is empty, [isProcessingMessages] is false
    again, and every call received has been handed to [executeToolCall]. *)
Theorem queue_drains tr os :
  length os =
    length (messageQueue (run tr init)) + length (in_hand (run tr init)) →
  messageQueue (run (tr ++ map EvToolDone os) init) = [] ∧
  executing (run (tr ++ map EvToolDone os) init) = None ∧
  isProcessingMessages (run (tr ++ map EvToolDone os) init) = false ∧
  executes (out (run (tr ++ map EvToolDone os) init)) = received tr init.
Proof.
  intros Hl. rewrite link_run_app.
  destruct (tool_done_drains os (run tr init)
              (run_queue_inv tr init init_queue_inv) Hl) as (Hq & He & Hp).
  repeat split; try done.
  pose proof (run_queue (map EvToolDone os) (run tr init)) as E.
  rewrite Hq, received_tool_done, !app_nil_r, run_queue in E. exact E.
Qed.

(** ** Reconnection *)

Lemma handle_attempts e st :
  reconnectAttempts st ≤ MAX_RECONNECT_ATTEMPTS →
  reconnectAttempts (handle e st) ≤ MAX_RECONNECT_ATTEMPTS.
Proof.
  intros H. destruct e; cbn [handle].
  all: lk_go; lk_start; lk_simpl; unfold MAX_RECONNECT_ATTEMPTS in *; lia.
Qed.

Lemma run_attempts tr st :
  reconnectAttempts st ≤ MAX_RECONNECT_ATTEMPTS →
  reconnectAttempts (run tr st) ≤ MAX_RECONNECT_ATTEMPTS.
Proof.
  revert st. induction tr as [|e tr IH]; intros st H; [done|].
  apply IH, handle_attempts, H.
Qed.

Lemma handle_budget e st :
  resets e = false →
  nextTimer (handle e st) + reconnectAttempts st =
  nextTimer st + reconnectAttempts (handle e st).
Proof.
  intros He. destruct e; try done; cbn [handle].
  all: lk_go; lk_start; lk_simpl; lia.
Qed.

Lemma run_budget tr st :
  forallb (λ e, negb (resets e)) tr = true →
  nextTimer (run tr st) + reconnectAttempts st =
  nextTimer st + reconnectAttempts (run tr st).
Proof.
  revert st. induction tr as [|e tr IH]; intros st H; [done|].
  cbn [forallb] in H. apply andb_true_iff in H as [He H].
  apply negb_true_iff in He.
  change (run (e :: tr) st) with (run tr (handle e st)).
  pose proof (IH (handle e st) H) as E1. pose proof (handle_budget e st He) as E2. lia.
Qed.

(** X18. [onclose] arms at most [MAX_RECONNECT_ATTEMPTS] reconnect timers
    in a row: over any stretch of events in which no socket opens and the
    popup does not ask for a connection, the number of timers armed is the
    growth of [reconnectAttempts], which never exceeds ten. *)
Theorem reconnect_timers_are_bounded tr tr' :
  forallb (λ e, negb (resets e)) tr' = true →
  nextTimer (run (tr ++ tr') init) + reconnectAttempts (run tr init) =
    nextTimer (run tr init) + reconnectAttempts (run (tr ++ tr') init) ∧
  reconnectAttempts (run (tr ++ tr') init) ≤ MAX_RECONNECT_ATTEMPTS.
Proof.
  intros H. split.
  - rewrite link_run_app. by apply run_budget.
  - apply run_attempts. unfold MAX_RECONNECT_ATTEMPTS. cbn. lia.
Qed.

(** ** Keepalive *)

Lemma handle_one_interval e st : one_interval st → one_interval (handle e st).
Proof.
  intros H. destruct e; cbn [handle].
  all: lk_go; try done.
  all: unfold one_interval in *; lk_start; lk_simpl; try done.
  all: try match goal with
            | E : keepaliveInterval _ = _ |- _ => rewrite E in H; rewrite ?E
            end; try done.
  all: by rewrite H, ?difference_diag_L, ?union_empty_r_L.
Qed.

Lemma run_one_interval tr st : one_interval st → one_interval (run tr st).
Proof.
  revert st. induction tr as [|e tr IH]; intros st H; [done|].
  apply IH, handle_one_interval, H.
Qed.

(** X19. The keepalive never runs twice: after any run from the loaded
    module the only interval armed is the one recorded in
    [keepaliveInterval], and none is armed when the variable is [null]. *)
Theorem keepalive_is_single tr :
  intervals (run tr init) =
  match keepaliveInterval (run tr init) with Some i => {[i]} | None => ∅ end.
Proof. apply (run_one_interval tr init). done. Qed.

(** ** Stopping *)

Ltac lk_more :=
  first [ by exists []; rewrite app_nil_r
        | by eexists; split; [rewrite <- ?app_assoc; reflexivity|] ].

Lemma stop_message_stopped st :
  (∀ t, t ∈ timers st → reconnectTimer st = Some t) →
  stopped (stop_message st) ∧ started (stop_message st) = started st.
Proof.
  intros H. unfold stopped, stop_message, stopMCPServer, stopKeepalive, close, readyState.
  destruct (reconnectTimer st) as [t|] eqn:Et; lk_cases; repeat split; try done.
  all: apply set_eq; intros x; split; [|by intros ?%elem_of_empty].
  all: rewrite ?elem_of_difference, ?elem_of_singleton.
  all: try (intros [Hx Hn]; specialize (H x Hx); congruence).
  all: intros Hx; by specialize (H x Hx).
Qed.

Lemma handle_stopped e st :
  asks e = false → stopped st →
  stopped (handle e st) ∧ started (handle e st) = started st ∧
  ∃ more, out (handle e st) = out st ++ more ∧ forallb silent more = true.
Proof.
  unfold stopped. intros He (Hs & Hw & Hr & Ht).
  destruct st; cbn in Hs, Hw, Hr, Ht; subst.
  destruct e; try done; cbn [handle].
  all: lk_go; repeat split; try done; lk_more.
Qed.

Lemma run_stopped tr st :
  forallb (λ e, negb (asks e)) tr = true → stopped st →
  stopped (run tr st) ∧ started (run tr st) = started st ∧
  ∃ more, out (run tr st) = out st ++ more ∧ forallb silent more = true.
Proof.
  revert st. induction tr as [|e tr IH]; intros st H Hs.
  - repeat split; try apply Hs. by exists []; rewrite app_nil_r.
  - cbn [forallb] in H. apply andb_true_iff in H as [He H].
    apply negb_true_iff in He.
    change (run (e :: tr) st) with (run tr (handle e st)).
    destruct (handle_stopped e st He Hs) as (Hs1 & Hn1 & m1 & Ho1 & Hm1).
    destruct (IH (handle e st) H Hs1) as (Hs2 & Hn2 & m2 & Ho2 & Hm2).
    split; [done|]. split; [congruence|].
    exists (m1 ++ m2). rewrite Ho2, Ho1, <- app_assoc, forallb_app, Hm1, Hm2. done.
Qed.

(** X20. Stopping is final when no reconnect timer has been lost track
    of: if every armed timer is the one in [reconnectTimer], then after
    [STOP_MCP_SERVER] no event other than a new request to connect makes
    the agent create a socket or send a frame; [mcpWebSocket] stays [null],
    so results of tool calls that end later are given up. *)
Theorem stop_is_final st tr :
  (∀ t, t ∈ timers st → reconnectTimer st = Some t) →
  forallb (λ e, negb (asks e)) tr = true →
  started (run tr (handle EvStop st)) = started st ∧
  mcpWebSocket (run tr (handle EvStop st)) = None ∧
  ∃ more, out (run tr (handle EvStop st)) = out (handle EvStop st) ++ more ∧
          forallb silent more = true.
Proof.
  intros Ht Htr. cbn [handle].
  destruct (stop_message_stopped st Ht) as [Hs Hn].
  destruct (run_stopped tr (stop_message st) Htr Hs) as (Hs' & Hn' & more & Ho & Hm).
  split; [congruence|]. split; [apply Hs'|]. by exists more.
Qed.

(** ** The address *)

Lemma dialled_app a b : dialled (a ++ b) = dialled a ++ dialled b.
Proof. unfold dialled. by rewrite omap_app. Qed.

Lemma startMCPServer_well_addressed p h st :
  well_addressed (startMCPServer p h st).
Proof.
  unfold well_addressed, startMCPServer.
  destruct p as [p|], h as [h|]; lk_cases; split; try done.
  all: by apply N.eqb_neq.
Qed.

Lemma startMCPServer_mcpHost p h st :
  truthy h = true → mcpHost (startMCPServer (Some p) (Some h) st) = h.
Proof. intros Hh. unfold startMCPServer. rewrite Hh. by lk_cases. Qed.

Lemma startMCPServer_mcpPort p h st :
  p ≠ 0%N → mcpPort (startMCPServer (Some p) (Some h) st) = p.
Proof.
  intros Hp. apply N.eqb_neq in Hp. unfold startMCPServer. rewrite Hp. by lk_cases.
Qed.

Lemma startMCPServer_dialled p h st :
  truthy h = true → p ≠ 0%N →
  dialled (out (startMCPServer (Some p) (Some h) st)) =
  dialled (out st) ++ (if valid_url h p then [(h, p)] else []).
Proof.
  intros Hh Hp. apply N.eqb_neq in Hp. unfold startMCPServer. rewrite Hh, Hp.
  lk_cases; by rewrite ?dialled_app, ?app_nil_r.
Qed.

Lemma handle_address e st :
  addresses e = false → well_addressed st →
  mcpHost (handle e st) = mcpHost st ∧
  mcpPort (handle e st) = mcpPort st ∧
  ∃ n, dialled (out (handle e st)) =
       dialled (out st) ++ replicate n (mcpHost st, mcpPort st).
Proof.
  intros He [Hh Hp].
  destruct e; try done; cbn [handle].
  all: lk_go.
  all: rewrite ?(startMCPServer_mcpHost _ _ _ Hh), ?(startMCPServer_mcpPort _ _ _ Hp),
         ?(startMCPServer_dialled _ _ _ Hh Hp); lk_simpl.
  all: split; [done|]; split; [done|].
  all: rewrite ?dialled_app, ?app_nil_r.
  all: first [ by exists 0; rewrite app_nil_r
             | destruct (valid_url _ _);
               [by exists 1; cbn; rewrite ?app_nil_r | by exists 0; rewrite !app_nil_r] ].
Qed.

Lemma handle_well_addressed e st : well_addressed st → well_addressed (handle e st).
Proof.
  intros Hw. destruct (addresses e) eqn:He.
  - destruct e; try done; cbn [handle]; unfold start_message;
      apply startMCPServer_well_addressed.
  - destruct (handle_address e st He Hw) as (E1 & E2 & _).
    unfold well_addressed. by rewrite E1, E2.
Qed.

Lemma run_well_addressed tr st : well_addressed st → well_addressed (run tr st).
Proof.
  revert st. induction tr as [|e tr IH]; intros st Hw; [done|].
  apply IH, handle_well_addressed, Hw.
Qed.

Lemma run_address tr st :
  forallb (λ e, negb (addresses e)) tr = true → well_addressed st →
  mcpHost (run tr st) = mcpHost st ∧
  mcpPort (run tr st) = mcpPort st ∧
  ∃ n, dialled (out (run tr st)) =
       dialled (out st) ++ replicate n (mcpHost st, mcpPort st).
Proof.
  revert st. induction tr as [|e tr IH]; intros st H Hw.
  - split; [done|]. split; [done|]. exists 0. by rewrite app_nil_r.
  - cbn [forallb] in H. apply andb_true_iff in H as [He H].
    apply negb_true_iff in He.
    change (run (e :: tr) st) with (run tr (handle e st)).
    destruct (handle_address e st He Hw) as (Eh1 & Ep1 & n1 & Hd1).
    destruct (IH (handle e st) H (handle_well_addressed e st Hw))
      as (Eh2 & Ep2 & n2 & Hd2).
    split; [congruence|]. split; [congruence|].
    exists (n1 + n2). by rewrite Hd2, Hd1, Eh1, Ep1, <- app_assoc, replicate_add.
Qed.

(** X21. Automatic reconnection keeps the address.  After any run from the
    loaded module, over any stretch of events in which neither the popup
    nor the startup code gives an address, [mcpHost] and [mcpPort] do not
    change, and every socket made (by a reconnect timer, the keepalive tick
    or the alarm) is made for that host and port. *)
Theorem reconnects_keep_address tr tr' :
  forallb (λ e, negb (addresses e)) tr' = true →
  mcpHost (run (tr ++ tr') init) = mcpHost (run tr init) ∧
  mcpPort (run (tr ++ tr') init) = mcpPort (run tr init) ∧
  ∃ n, dialled (out (run (tr ++ tr') init)) =
       dialled (out (run tr init)) ++
       replicate n (mcpHost (run tr init), mcpPort (run tr init)).
Proof.
  intros H. rewrite link_run_app. apply run_address; [done|].
  apply run_well_addressed. done.
Qed.

(** ** Reconnecting *)

Lemma stopKeepalive_keeps st :
  ∃ iv, stopKeepalive st = set_keepaliveInterval None (set_intervals iv st).
Proof.
  unfold stopKeepalive. destruct (keepaliveInterval st) as [i|] eqn:E.
  - by eexists.
  - exists (intervals st). destruct st; cbn in *. by subst.
Qed.

Lemma close_arms_timer st ws r :
  shouldReconnect st = true →
  reconnectAttempts st < MAX_RECONNECT_ATTEMPTS →
  readyState st ws = Some r → r ≠ CLOSED →
  ∃ iv,
    handle (EvClose ws) st =
    emit OStatusChanged
      (set_reconnectTimer (Some (nextTimer st))
         (set_timers ({[nextTimer st]} ∪ timers st)
            (set_nextTimer (S (nextTimer st))
               (updateBadge false true
                  (set_reconnectAttempts (S (reconnectAttempts st))
                     (set_keepaliveInterval None
                        (set_intervals iv
                           (set_mcpServerRunning false
                              (set_socks (<[ws := CLOSED]> (socks st)) st))))))))).
Proof.
  intros Hs Ha Hr Hnc. cbn [handle]. rewrite Hr.
  destruct (stopKeepalive_keeps
              (set_mcpServerRunning false (set_socks (<[ws := CLOSED]> (socks st)) st)))
    as (iv & Ek).
  exists iv.
  assert (on_close (set_socks (<[ws:=CLOSED]> (socks st)) st) =
          emit OStatusChanged
            (set_reconnectTimer (Some (nextTimer st))
               (set_timers ({[nextTimer st]} ∪ timers st)
                  (set_nextTimer (S (nextTimer st))
                     (updateBadge false true
                        (set_reconnectAttempts (S (reconnectAttempts st))
                           (set_keepaliveInterval None
                              (set_intervals iv
                                 (set_mcpServerRunning false
                                    (set_socks (<[ws := CLOSED]> (socks st)) st)))))))))) as E.
  { unfold on_close. rewrite Ek. lk_simpl. rewrite Hs.
    rewrite bool_decide_eq_true_2 by done. done. }
  destruct r; done.
Qed.

Lemma reconnect_steps st ws r :
  well_addressed st →
  shouldReconnect st = true →
  reconnectAttempts st < MAX_RECONNECT_ATTEMPTS →
  readyState st ws = Some r → r ≠ CLOSED →
  valid_url (mcpHost st) (mcpPort st) = true →
  let k := started st in
  let st' := run [EvClose ws; EvReconnectTimer (nextTimer st); EvOpen k] st in
  mcpWebSocket st' = Some k ∧
  readyState st' k = Some OPEN ∧
  mcpServerRunning st' = true ∧
  reconnectAttempts st' = 0 ∧
  reconnectTimer st' = None ∧
  keepaliveInterval st' = Some (nextInterval st) ∧
  out st' =
    out st ++ [OBadge Reconnecting; OStatusChanged;
               ONewSocket k (mcpHost st) (mcpPort st);
               OBadge Connected; OSend k FRegister;
               OResolve k (Started (mcpPort st) (mcpHost st))].
Proof.
  intros [Hh Hp] Hs Ha Hr Hnc Hv k st'. apply N.eqb_neq in Hp.
  subst k st'. unfold run. cbn [foldl].
  destruct (close_arms_timer st ws r Hs Ha Hr Hnc) as (iv & ->).
  cbn [handle]. unfold reconnect_fired. lk_simpl.
  rewrite bool_decide_eq_true_2 by set_solver.
  unfold startMCPServer. lk_simpl. rewrite Hh, Hp, Hv. lk_simpl.
  unfold readyState. lk_simpl. rewrite lookup_insert_eq.
  unfold on_open, send, readyState. lk_simpl. rewrite lookup_insert_eq.
  unfold startKeepalive, stopKeepalive. lk_simpl.
  rewrite lookup_insert_eq, <- !app_assoc. done.
Qed.

(** X26. A lost connection is made again.  In any state reached from the
    loaded module in which reconnection is on and fewer than ten attempts
    are counted, when a socket closes, the timer armed by [onclose] fires
    and the relay accepts the new socket, the agent is connected again:
    the new socket is [mcpWebSocket] and open, [mcpServerRunning] is true,
    [reconnectAttempts] is back to zero, the keepalive is armed, and what
    was done, in order, is: the reconnecting badge, the status message, the
    socket for the same host and port, the connected badge, the [register]
    frame on the new socket, and the resolution of the promise. *)
Theorem reconnect_restores tr ws r :
  shouldReconnect (run tr init) = true →
  reconnectAttempts (run tr init) < MAX_RECONNECT_ATTEMPTS →
  readyState (run tr init) ws = Some r → r ≠ CLOSED →
  valid_url (mcpHost (run tr init)) (mcpPort (run tr init)) = true →
  let st := run tr init in
  let k := started st in
  let st' := run [EvClose ws; EvReconnectTimer (nextTimer st); EvOpen k] st in
  mcpWebSocket st' = Some k ∧
  readyState st' k = Some OPEN ∧
  mcpServerRunning st' = true ∧
  reconnectAttempts st' = 0 ∧
  reconnectTimer st' = None ∧
  keepaliveInterval st' = Some (nextInterval st) ∧
  out st' =
    out st ++ [OBadge Reconnecting; OStatusChanged;
               ONewSocket k (mcpHost st) (mcpPort st);
               OBadge Connected; OSend k FRegister;
               OResolve k (Started (mcpPort st) (mcpHost st))].
Proof.
  intros Hs Ha Hr Hnc Hv. apply (reconnect_steps _ ws r); try done.
  by apply run_well_addressed.
Qed.

(** ** A timer that was lost track of *)

Lemma timer_then_open st t :
  t ∈ timers st → well_addressed st →
  valid_url (mcpHost st) (mcpPort st) = true →
  let k := started st in
  let st' := run [EvReconnectTimer t; EvOpen k] st in
  mcpWebSocket st' = Some k ∧
  readyState st' k = Some OPEN ∧
  mcpServerRunning st' = true ∧
  shouldReconnect st' = shouldReconnect st ∧
  out st' =
    out st ++ [ONewSocket k (mcpHost st) (mcpPort st);
               OBadge Connected; OSend k FRegister;
               OResolve k (Started (mcpPort st) (mcpHost st))].
Proof.
  intros Ht [Hh Hp] Hv k st'. apply N.eqb_neq in Hp.
  subst k st'. unfold run. cbn [foldl handle]. unfold reconnect_fired.
  rewrite bool_decide_eq_true_2 by done.
  unfold startMCPServer. lk_simpl. rewrite Hh, Hp, Hv. lk_simpl.
  unfold readyState. lk_simpl. rewrite lookup_insert_eq.
  unfold on_open, send, readyState. lk_simpl. rewrite lookup_insert_eq.
  unfold startKeepalive, stopKeepalive. lk_simpl.
  destruct (keepaliveInterval st); lk_simpl;
    rewrite lookup_insert_eq, <- !app_assoc; done.
Qed.

Lemma stop_keeps_lost_timer st t :
  t ∈ timers st → reconnectTimer st ≠ Some t →
  t ∈ timers (handle EvStop st) ∧
  mcpHost (handle EvStop st) = mcpHost st ∧
  mcpPort (handle EvStop st) = mcpPort st ∧
  started (handle EvStop st) = started st ∧
  shouldReconnect (handle EvStop st) = false.
Proof.
  intros Ht Hn. cbn [handle].
  unfold stop_message, stopMCPServer, stopKeepalive, close, readyState.
  lk_cases; repeat split; try done.
  all: apply elem_of_difference; split; [done|].
  all: rewrite elem_of_singleton; congruence.
Qed.

Lemma link_run_cons e tr st : run (e :: tr) st = run tr (handle e st).
Proof. done. Qed.

Lemma lost_timer_steps st t :
  well_addressed st →
  t ∈ timers st →
  reconnectTimer st ≠ Some t →
  valid_url (mcpHost st) (mcpPort st) = true →
  let k := started st in
  let st' := run [EvStop; EvReconnectTimer t; EvOpen k] st in
  shouldReconnect st' = false ∧
  mcpWebSocket st' = Some k ∧
  readyState st' k = Some OPEN ∧
  mcpServerRunning st' = true ∧
  out st' =
    out (handle EvStop st) ++
      [ONewSocket k (mcpHost st) (mcpPort st);
       OBadge Connected; OSend k FRegister;
       OResolve k (Started (mcpPort st) (mcpHost st))].
Proof.
  intros Hw Ht Hn Hv. cbv zeta.
  destruct (stop_keeps_lost_timer st t Ht Hn) as (Ht1 & Eh & Ep & Ek & Es).
  assert (Hw1 : well_addressed (handle EvStop st))
    by (unfold well_addressed; by rewrite Eh, Ep).
  assert (Hv1 : valid_url (mcpHost (handle EvStop st)) (mcpPort (handle EvStop st)) = true)
    by (by rewrite Eh, Ep).
  destruct (timer_then_open (handle EvStop st) t Ht1 Hw1 Hv1)
    as (E1 & E2 & E3 & E4 & E5).
  rewrite Ek in E1, E2, E3, E4, E5. rewrite Eh, Ep in E5.
  rewrite link_run_cons. rewrite E4, Es. done.
Qed.

(** X27. Stopping does not stop a reconnect timer that was lost track of.
    [onclose] overwrites [reconnectTimer] without clearing the timer it
    held, and [STOP_MCP_SERVER] clears only the timer in the variable.  In
    any state reached from the loaded module, a timer that is armed but is
    not the one in [reconnectTimer] survives the stop: when it fires and the
    relay accepts the socket, the agent is connected again, with a new
    socket in [mcpWebSocket], the [register] frame sent and
    [mcpServerRunning] true, although [shouldReconnect] is false. *)
Theorem lost_timer_survives_stop tr t :
  t ∈ timers (run tr init) →
  reconnectTimer (run tr init) ≠ Some t →
  valid_url (mcpHost (run tr init)) (mcpPort (run tr init)) = true →
  let st := run tr init in
  let k := started st in
  let st' := run [EvStop; EvReconnectTimer t; EvOpen k] st in
  shouldReconnect st' = false ∧
  mcpWebSocket st' = Some k ∧
  readyState st' k = Some OPEN ∧
  mcpServerRunning st' = true ∧
  out st' =
    out (handle EvStop st) ++
      [ONewSocket k (mcpHost st) (mcpPort st);
       OBadge Connected; OSend k FRegister;
       OResolve k (Started (mcpPort st) (mcpHost st))].
Proof.
  intros Ht Hn Hv. apply lost_timer_steps; try done.
  by apply run_well_addressed.
Qed.

End WithNetwork.

(** ** Instances *)

Definition any_url : string → N → bool := λ _ _, true.

(** The popup connects, the relay accepts, and two tool calls arrive. *)
Definition two_calls : list Event :=
  [EvStart None None; EvOpen 0;
   EvMessage 0 (MToolCall (mkToolCall "1" "browser_click" "{}"));
   EvMessage 0 (MToolCall (mkToolCall "2" "browser_type" "{}"))].

Lemma queue_drains_witness :
  executes
    (out (run any_url
            (two_calls ++ map EvToolDone [Returned "{}"; Threw "No tab"]) init)) =
  received any_url two_calls init.
Proof.
  exact (proj2 (proj2 (proj2
    (queue_drains any_url two_calls [Returned "{}"; Threw "No tab"] eq_refl)))).
Defined.

Lemma reconnect_timers_are_bounded_witness :
  reconnectAttempts
    (run any_url ([EvStart None None] ++ [EvClose 0; EvReconnectTimer 0; EvClose 1])
       init) ≤ MAX_RECONNECT_ATTEMPTS.
Proof.
  exact (proj2 (reconnect_timers_are_bounded any_url [EvStart None None]
                  [EvClose 0; EvReconnectTimer 0; EvClose 1] eq_refl)).
Defined.

(** The first attempt to connect has failed and a reconnect timer is
    armed. *)
Definition retrying : State := run any_url [EvStart None None; EvClose 0] init.

Lemma stop_is_final_witness :
  mcpWebSocket
    (run any_url [EvReconnectTimer 0; EvAlarm; EvToolDone (Returned "{}")]
       (handle any_url EvStop retrying)) = None.
Proof.
  refine (proj1 (proj2
    (stop_is_final any_url retrying
       [EvReconnectTimer 0; EvAlarm; EvToolDone (Returned "{}")] _ eq_refl))).
  intros t Ht. change (t ∈ ({[0]} ∪ ∅ : gset nat)) in Ht.
  apply elem_of_union in Ht as [Ht|Ht].
  - apply elem_of_singleton in Ht. by subst.
  - by apply elem_of_empty in Ht.
Defined.

Lemma reconnects_keep_address_witness :
  mcpPort
    (run any_url ([EvStart (Some 4000%N) (Some "relay.local")] ++
                  [EvClose 0; EvReconnectTimer 0; EvAlarm]) init) =
  mcpPort (run any_url [EvStart (Some 4000%N) (Some "relay.local")] init).
Proof.
  exact (proj1 (proj2
    (reconnects_keep_address any_url [EvStart (Some 4000%N) (Some "relay.local")]
       [EvClose 0; EvReconnectTimer 0; EvAlarm] eq_refl))).
Defined.

(** The agent is connected: the popup asked and the relay accepted. *)
Definition connected : list Event := [EvStart None None; EvOpen 0].

(** A tool call from the socket is being executed when a
    [SIDEBAR_TOOL_CALL] arrives: the tool of the sidebar is started while
    the other runs. *)
Lemma sidebar_call_overlaps :
  let st := run any_url
              (connected ++
                 [EvMessage 0 (MToolCall (mkToolCall "1" "browser_click" "{}"));
                  EvSidebarCall Runtime "browser_snapshot" "{}"]) init in
  executing st = Some (mkToolCall "1" "browser_click" "{}") ∧
  sidebarRunning st !! 0 = Some Runtime ∧
  running st = 2 ∧
  last (out st) = Some (OSidebarExecute 0 "browser_snapshot" "{}").
Proof. intros st. split_and!; vm_compute; reflexivity. Qed.

Lemma reconnect_restores_witness :
  mcpWebSocket
    (run any_url [EvClose 0; EvReconnectTimer 0; EvOpen 1] (run any_url connected init))
  = Some 1.
Proof.
  exact (proj1 (reconnect_restores any_url connected 0 OPEN eq_refl
                  (Nat.lt_0_succ 9) eq_refl ltac:(discriminate) eq_refl)).
Defined.

(** The popup asked twice for a connection and both sockets were closed:
    each close armed a timer, and [reconnectTimer] holds the second. *)
Definition two_closed : list Event :=
  [EvStart None None; EvStart None None; EvClose 0; EvClose 1].

Lemma lost_timer_survives_stop_witness :
  mcpWebSocket
    (run any_url [EvStop; EvReconnectTimer 0; EvOpen 2] (run any_url two_closed init))
  = Some 2.
Proof.
  refine (proj1 (proj2 (lost_timer_survives_stop any_url two_closed 0 _ _ eq_refl))).
  - change (0 ∈ ({[1]} ∪ ({[0]} ∪ ∅) : gset nat)).
    apply elem_of_union_r, elem_of_union_l, elem_of_singleton. reflexivity.
  - change (Some 1 ≠ Some 0). discriminate.
Defined.

End Link.

(** * Opening an extension's popup as a tab

    [Popup] follows [openExtensionPopup] and [closeExtensionTab] of
    [src/extension/background.js].  The browser is a record of functions
    that see the calls made before; the wait for the tab to load changes
    nothing the functions read and is left out. *)

Module Popup.

Definition TabId := Z.

(** Calls into the browser, in the order they are made. *)
Inductive ChromeCall :=
| ManagementGet (extensionId : string)
| TabsCreate (url : string) (windowId : option Z)
| TabsGet (tabId : TabId)
| TabsRemove (tabId : TabId).

(** A promise resolves ([inr]) or rejects with an error whose [message]
    is given ([inl]).  [management_get] resolves with the extension's
    [name]; [tabs_get] with the tab's [url], which is [undefined] when the
    browser withholds it. *)
Record Browser := mkBrowser {
  management_get : list ChromeCall → string → string + string;
  tabs_create : list ChromeCall → string → option Z → string + TabId;
  tabs_get : list ChromeCall → TabId → string + option string;
  tabs_remove : list ChromeCall → TabId → option string
}.

(** The argument [options]. *)
Record Options := mkOptions { popupPath : option string; windowId : option Z }.

Inductive Reply :=
| Opened (tabId : TabId) (url : option string) (extensionName message : string)
| Closed (message : string)
| Error (error : string).

(** JavaScript truthiness of a string. *)
Definition truthy (s : string) : bool :=
  match s with EmptyString => false | String _ _ => true end.

(** [s.includes(part)] *)
Definition includes (s part : string) : bool :=
  bool_decide (is_Some (String.index 0 part s)).

Definition extension_url (extensionId path : string) : string :=
  "chrome-extension://" +:+ extensionId +:+ "/" +:+ path.

(** The array [popupUrls], after the [unshift] of a custom path. *)
Definition popupUrls (extensionId : string) (options : Options) : list string :=
  let standard :=
    [extension_url extensionId "popup.html";
     extension_url extensionId "popup/popup.html";
     extension_url extensionId "index.html";
     extension_url extensionId "src/popup.html";
     extension_url extensionId "dist/popup.html"] in
  match popupPath options with
  | Some p => if truthy p then extension_url extensionId p :: standard else standard
  | None => standard
  end.

(** [!updatedTab.url?.includes('chrome-error://')] *)
Definition loaded (url : option string) : bool :=
  match url with
  | Some u => negb (includes u "chrome-error://")
  | None => true
  end.

Definition not_found (name : string) : string :=
  "Could not find popup for extension " +:+ name +:+ ". Try specifying popupPath.".

Section WithBrowser.

Variable chrome : Browser.

(** The [for] loop over [popupUrls]: a rejected call goes on with the
    next URL, and so does a tab that shows an error page. *)
Fixpoint try_urls (urls : list string) (options : Options) (name : string)
    (calls : list ChromeCall) : Reply * list ChromeCall :=
  match urls with
  | [] => (Error (not_found name), calls)
  | url :: rest =>
      match tabs_create chrome calls url (windowId options) with
      | inl _ =>
          try_urls rest options name (calls ++ [TabsCreate url (windowId options)])
      | inr tab =>
          let calls := calls ++ [TabsCreate url (windowId options)] in
          match tabs_get chrome calls tab with
          | inl _ => try_urls rest options name (calls ++ [TabsGet tab])
          | inr updated =>
              let calls := calls ++ [TabsGet tab] in
              if loaded updated then
                (Opened tab updated name
                   ("Opened " +:+ name +:+ " popup in tab " +:+ pretty tab),
                 calls)
              else try_urls rest options name calls
          end
      end
  end.

(** [extensionId] is [None] when the argument is missing. *)
Definition openExtensionPopup (extensionId : option string) (options : Options)
    (calls : list ChromeCall) : Reply * list ChromeCall :=
  match extensionId with
  | None => (Error "Extension ID is required", calls)
  | Some x =>
      if negb (truthy x) then (Error "Extension ID is required", calls)
      else
        match management_get chrome calls x with
        | inl e => (Error e, calls ++ [ManagementGet x])
        | inr name =>
            try_urls (popupUrls x options) options name (calls ++ [ManagementGet x])
        end
  end.

Definition closeExtensionTab (tabId : TabId) (calls : list ChromeCall)
    : Reply * list ChromeCall :=
  match tabs_remove chrome calls tabId with
  | None => (Closed ("Tab " +:+ pretty tabId +:+ " closed"), calls ++ [TabsRemove tabId])
  | Some e => (Error e, calls ++ [TabsRemove tabId])
  end.

(** ** Observations *)

(** The URLs of the [chrome.tabs.create] calls in [calls], in order. *)
Definition created (calls : list ChromeCall) : list string :=
  omap (λ c, match c with TabsCreate url _ => Some url | _ => None end) calls.

(** The tabs removed in [calls]. *)
Definition removed (calls : list ChromeCall) : list TabId :=
  omap (λ c, match c with TabsRemove t => Some t | _ => None end) calls.

(** The tabs the browser made in answer to the calls [more] that follow
    [calls]. *)
Fixpoint opened (calls more : list ChromeCall) : list TabId :=
  match more with
  | [] => []
  | c :: more' =>
      match c with
      | TabsCreate url w =>
          match tabs_create chrome calls url w with
          | inr tab => [tab]
          | inl _ => []
          end
      | _ => []
      end ++ opened (calls ++ [c]) more'
  end.

(** The outcome of the search, in terms of the calls [more] it adds. *)
Definition search_outcome (urls : list string) (name : string)
    (calls more : list ChromeCall) (r : Reply) : Prop :=
  removed more = [] ∧
  created more `prefix_of` urls ∧
  match r with
  | Opened tab url n _ =>
      last (opened calls more) = Some tab ∧ loaded url = true ∧ n = name
  | Error e => e = not_found name ∧ created more = urls
  | Closed _ => False
  end.

Lemma created_app a b : created (a ++ b) = created a ++ created b.
Proof. unfold created. by rewrite omap_app. Qed.

Lemma removed_app a b : removed (a ++ b) = removed a ++ removed b.
Proof. unfold removed. by rewrite omap_app. Qed.

Lemma opened_app calls a b :
  opened calls (a ++ b) = opened calls a ++ opened (calls ++ a) b.
Proof.
  revert calls. induction a as [|c a IH]; intros calls; cbn.
  - by rewrite app_nil_r.
  - rewrite IH, <- !app_assoc. done.
Qed.

Lemma created_create url w more : created (TabsCreate url w :: more) = url :: created more.
Proof. done. Qed.

Lemma created_get tab more : created (TabsGet tab :: more) = created more.
Proof. done. Qed.

Lemma search_outcome_skip url w rest name calls skipped more r :
  removed skipped = [] → created skipped = [] →
  search_outcome rest name ((calls ++ [TabsCreate url w]) ++ skipped) more r →
  search_outcome (url :: rest) name calls (TabsCreate url w :: skipped ++ more) r.
Proof.
  intros Hr0 Hc0 (Hr & Hp & Hm). split; [|split].
  - change (TabsCreate url w :: skipped ++ more)
      with ([TabsCreate url w] ++ skipped ++ more).
    by rewrite !removed_app, Hr, Hr0.
  - rewrite created_create, created_app, Hc0. by apply prefix_cons.
  - destruct r as [tab u n m| |e]; [|done|].
    + destruct Hm as (Hl & ? & ?). split; [|done].
      change (TabsCreate url w :: skipped ++ more)
        with ([TabsCreate url w] ++ skipped ++ more).
      by rewrite !opened_app, !last_app, Hl.
    + destruct Hm as [-> Hc]. split; [done|].
      by rewrite created_create, created_app, Hc0, Hc.
Qed.

Lemma try_urls_outcome urls options name calls :
  ∃ more,
    (try_urls urls options name calls).2 = calls ++ more ∧
    search_outcome urls name calls more (try_urls urls options name calls).1.
Proof.
  revert calls. induction urls as [|url rest IH]; intros calls; cbn [try_urls].
  - exists []. rewrite app_nil_r. done.
  - destruct (tabs_create chrome calls url (windowId options)) as [e|tab] eqn:Ec.
    + destruct (IH (calls ++ [TabsCreate url (windowId options)]))
        as (more & Hc & Ho).
      exists (TabsCreate url (windowId options) :: [] ++ more).
      rewrite Hc. split; [by rewrite <- !app_assoc|].
      apply search_outcome_skip; [done|done|]. by rewrite app_nil_r.
    + destruct (tabs_get chrome (calls ++ [TabsCreate url (windowId options)]) tab)
        as [e|updated] eqn:Eg; [|destruct (loaded updated) eqn:El].
      * destruct (IH ((calls ++ [TabsCreate url (windowId options)]) ++ [TabsGet tab]))
          as (more & Hc & Ho).
        exists (TabsCreate url (windowId options) :: [TabsGet tab] ++ more).
        rewrite Hc. split; [by rewrite <- !app_assoc|].
        by apply search_outcome_skip.
      * exists [TabsCreate url (windowId options); TabsGet tab].
        rewrite <- app_assoc. split; [done|]. split; [done|]. split.
        -- rewrite created_create. apply prefix_cons, prefix_nil.
        -- cbn [opened]. rewrite Ec. done.
      * destruct (IH ((calls ++ [TabsCreate url (windowId options)]) ++ [TabsGet tab]))
          as (more & Hc & Ho).
        exists (TabsCreate url (windowId options) :: [TabsGet tab] ++ more).
        rewrite Hc. split; [by rewrite <- !app_assoc|].
        by apply search_outcome_skip.
Qed.

(** X22. The search for the popup closes no tab.  When the extension is
    found, [openExtensionPopup] asks the browser for a tab for the candidate
    URLs in order (the custom path first, when one is given) and removes
    none of the tabs it was given.  It answers with the tab made last, whose
    page is not an error page, and leaves open the tabs of the candidates
    tried before; when it answers that no popup could be found, it has
    asked for a tab for every candidate, five or six in all. *)
Theorem popup_search_leaves_tabs x options calls name :
  truthy x = true →
  management_get chrome calls x = inr name →
  ∃ tried,
    (openExtensionPopup (Some x) options calls).2 =
      calls ++ ManagementGet x :: tried ∧
    removed tried = [] ∧
    created tried `prefix_of` popupUrls x options ∧
    5 ≤ length (popupUrls x options) ≤ 6 ∧
    match (openExtensionPopup (Some x) options calls).1 with
    | Opened tab url n _ =>
        last (opened (calls ++ [ManagementGet x]) tried) = Some tab ∧
        loaded url = true ∧ n = name
    | Error e => e = not_found name ∧ created tried = popupUrls x options
    | Closed _ => False
    end.
Proof.
  intros Hx Hg. unfold openExtensionPopup. rewrite Hx, Hg. cbn [negb].
  destruct (try_urls_outcome (popupUrls x options) options name
              (calls ++ [ManagementGet x])) as (tried & Hc & Hr & Hp & Hm).
  exists tried. rewrite Hc, <- app_assoc. split; [done|].
  split; [done|]. split; [done|]. split; [|done].
  unfold popupUrls. destruct (popupPath options) as [p|]; [destruct (truthy p)|];
    cbn; lia.
Qed.

End WithBrowser.

(** ** Instances *)

Local Open Scope Z_scope.

(** A browser in which every candidate page fails to load: tab [n] is made
    by call number [n], and every tab shows the error page. *)
Definition error_pages : Browser :=
  mkBrowser (λ _ _, inr "Demo") (λ calls _ _, inr (Z.of_nat (length calls)))
    (λ _ _, inr (Some "chrome-error://chromewebdata/")) (λ _ _, None).

Definition no_options : Options := mkOptions None None.

Lemma popup_search_leaves_tabs_witness :
  ∃ tried,
    (openExtensionPopup error_pages (Some "abc") no_options []).2 =
      [] ++ ManagementGet "abc" :: tried ∧
    removed tried = [] ∧
    created tried `prefix_of` popupUrls "abc" no_options ∧
    (5 ≤ length (popupUrls "abc" no_options) ≤ 6)%nat ∧
    match (openExtensionPopup error_pages (Some "abc") no_options []).1 with
    | Opened tab url n _ =>
        last (opened error_pages ([] ++ [ManagementGet "abc"]) tried) = Some tab ∧
        loaded url = true ∧ n = "Demo"
    | Error e => e = not_found "Demo" ∧ created tried = popupUrls "abc" no_options
    | Closed _ => False
    end.
Proof.
  exact (popup_search_leaves_tabs error_pages "abc" no_options [] "Demo"
           eq_refl eq_refl).
Defined.

End Popup.

(** * Analysing an extension

    [Doctor] follows [getExtensionInfo] and [analyzeExtension] of
    [src/extension/background.js], on top of [Agent]: the state, the
    browser and [captureExtensionErrors] are those of [Agent]. *)

Module Doctor.

Import Agent.

(** What [getExtensionInfo] returns: the properties it copies from the
    result of [chrome.management.get], of which [ExtensionInfo] carries
    the name, or [{ error }].  The object it builds has no property
    [optionsUrl]. *)
Inductive InfoReply :=
| Info (name : string)
| InfoError (error : string).

(** One entry of [suggestions]: [{ error, suggestion, location }]. *)
Record Suggestion := mkSuggestion {
  s_error : string;
  s_suggestion : string;
  s_location : string
}.

Inductive Health := healthy | minor_issues | needs_attention.

(** The object [analyzeExtension] returns on success.  Of [info], which
    repeats properties of the extension, [a_name] is the name. *)
Record Analysis := mkAnalysis {
  a_extensionId : string;
  a_name : option string;
  totalErrors : nat;
  totalWarnings : nat;
  a_errors : list ErrorEntry;
  a_warnings : list ConsoleEntry;
  a_suggestions : list Suggestion;
  health : Health;
  nextSteps : list string
}.

Inductive Reply :=
| Analysed (a : Analysis)
| AnalysisError (error : string).

(** [s.includes(part)] *)
Definition includes (s part : string) : bool :=
  bool_decide (is_Some (String.index 0 part s)).

(** [{ page: 'popup', waitTime: 1500 }] and [{ page: 'options', waitTime:
    1000 }]; the time waited is the [Window] of the capture. *)
Definition popup_page : Params := mkParams None EmptyString "{}" (Some "popup") None.
Definition options_page : Params := mkParams None EmptyString "{}" (Some "options") None.

(** [r.errors || []] and [r.console || []] of what a capture returned. *)
Definition errors_of (r : Result) : list ErrorEntry :=
  match r with Captured _ _ _ errs _ _ _ => errs | _ => [] end.

Definition console_of (r : Result) : list ConsoleEntry :=
  match r with Captured _ _ _ _ entries _ _ => entries | _ => [] end.

Definition is_warning (c : ConsoleEntry) : bool := bool_decide (level c = "warning").

Definition review_steps : list string :=
  ["Review the errors and their stack traces above";
   "Check the file locations mentioned in the errors";
   "Apply the suggested fixes";
   "Reload the extension and run analyze_extension again"].

Definition no_steps : list string :=
  ["Extension appears healthy. No immediate action needed."].

Section WithBrowser.

Variable chrome : Browser.
Variable probe_values : Json → list string.

(** [params.exceptionDetails?.[key]] of a [Runtime.exceptionThrown] event,
    as a template string prints it; [None] when it is [undefined]. *)
Variable exception_detail : Json → string → option string.

(** [err.message]: [exceptionDetails?.text || 'Unknown error'] for an
    exception, the probed value for a runtime error. *)
Definition message_of (err : ErrorEntry) : string :=
  match err with
  | ExceptionError _ d =>
      match exception_detail d "text" with
      | Some t => if truthy t then t else "Unknown error"
      | None => "Unknown error"
      end
  | RuntimeError _ m => m
  end.

(** [err.url ? `${err.url}:${err.lineNumber}` : 'unknown'] *)
Definition location_of (err : ErrorEntry) : string :=
  match err with
  | ExceptionError _ d =>
      match exception_detail d "url" with
      | Some u =>
          if truthy u
          then u +:+ ":" +:+ default "undefined" (exception_detail d "lineNumber")
          else "unknown"
      | None => "unknown"
      end
  | RuntimeError _ _ => "unknown"
  end.

(** The body of [allErrors.forEach]: what one error adds to
    [suggestions]. *)
Definition suggest (err : ErrorEntry) : list Suggestion :=
  let m := message_of err in
  let entry text := mkSuggestion m text (location_of err) in
  (if includes m "undefined"
   then [entry "Check for null/undefined variables. Add proper initialization or null checks."]
   else []) ++
  (if includes m "Cannot read property" || includes m "Cannot read properties"
   then [entry "Object is null/undefined before property access. Use optional chaining (?.) or check existence."]
   else []) ++
  (if includes m "Content Security Policy"
   then [entry "CSP violation. Move inline scripts to external files. Avoid eval() and new Function()."]
   else []) ++
  (if includes m "net::ERR" || includes m "Failed to fetch"
   then [entry "Network error. Check URL, CORS settings, and host_permissions in manifest.json."]
   else []).

Definition getExtensionInfo (extensionId : option string) (st : State)
    : InfoReply * State :=
  match extensionId with
  | None => (InfoError "Extension ID is required", st)
  | Some x =>
      if negb (truthy x) then (InfoError "Extension ID is required", st)
      else
        match management_get chrome (calls st) x with
        | inl e => (InfoError e, call (ManagementGet x) st)
        | inr ext => (Info (ext_name ext), call (ManagementGet x) st)
        end
  end.

(** [extInfo.optionsUrl], read from what [getExtensionInfo] returned. *)
Definition info_optionsUrl (extInfo : InfoReply) : option string := None.

(** [extInfo.name] *)
Definition info_name (extInfo : InfoReply) : option string :=
  match extInfo with Info n => Some n | InfoError _ => None end.

(** The object built from what the captures found. *)
Definition compile (extensionId : string) (extInfo : InfoReply)
    (allErrors : list ErrorEntry) (allConsole : list ConsoleEntry) : Analysis :=
  let suggestions := flat_map suggest allErrors in
  mkAnalysis extensionId (info_name extInfo)
    (length allErrors)
    (length (filter (λ c, is_warning c = true) allConsole))
    (take 10 allErrors)
    (take 5 (filter (λ c, is_warning c = true) allConsole))
    (take 5 suggestions)
    (if bool_decide (length allErrors = 0) then healthy
     else if bool_decide (length allErrors < 3) then minor_issues
     else needs_attention)
    (if bool_decide (0 < length allErrors) then review_steps else no_steps).

(** [analyzeExtension] from the capture of the popup on; [w] and [w'] are
    what happens around that capture and around the capture of the options
    page. *)
Definition examine (x : string) (extInfo : InfoReply) (w w' : Window)
    (st : State) : Reply * State :=
  let '(popupErrors, st) :=
    captureExtensionErrors chrome probe_values (Some x) popup_page w st in
  let '(optionsErrors, optionsConsole, st) :=
    match info_optionsUrl extInfo with
    | Some u =>
        if truthy u then
          let '(r, st) :=
            captureExtensionErrors chrome probe_values (Some x) options_page w' st in
          (errors_of r, console_of r, st)
        else ([], [], st)
    | None => ([], [], st)
    end in
  (Analysed (compile x extInfo (errors_of popupErrors ++ optionsErrors)
               (console_of popupErrors ++ optionsConsole)), st).

Definition analyzeExtension (extensionId : option string) (w w' : Window)
    (st : State) : Reply * State :=
  match extensionId with
  | None => (AnalysisError "Extension ID is required", st)
  | Some x =>
      if negb (truthy x) then (AnalysisError "Extension ID is required", st)
      else
        let '(extInfo, st) := getExtensionInfo (Some x) st in
        match extInfo with
        | InfoError e =>
            if truthy e then (AnalysisError e, st) else examine x extInfo w w' st
        | Info _ => examine x extInfo w w' st
        end
  end.

(** ** Properties *)



(** X23. A capture that fails is read as a capture that found nothing.
    When [getExtensionInfo] has succeeded and [captureExtensionErrors]
    returns an error for the popup (the tab cannot be made, the debugger
    cannot be attached, ...), [analyzeExtension] still answers with
    success: no errors, no warnings, no suggestions, health [healthy] and
    the advice that no action is needed; the error of the capture is not
    passed on. *)
Theorem analysis_hides_failed_capture x w w' st ext e :
  truthy x = true →
  management_get chrome (calls st) x = inr ext →
  (captureExtensionErrors chrome probe_values (Some x) popup_page w
     (call (ManagementGet x) st)).1 = Failure e →
  (analyzeExtension (Some x) w w' st).1 =
    Analysed (mkAnalysis x (Some (ext_name ext)) 0 0 [] [] [] healthy no_steps).
Proof.
  intros Hx Hg Hc. unfold analyzeExtension, getExtensionInfo, examine.
  rewrite Hx, Hg. cbn [negb info_optionsUrl].
  destruct (captureExtensionErrors _ _ _ _ _ _) as [r st']. cbn in Hc. subst r.
  done.
Qed.


End WithBrowser.

(** ** Instances *)

Definition no_details : Json → string → option string := λ _ _, None.

Lemma analysis_hides_failed_capture_witness :
  (analyzeExtension refusing no_probe_values no_details (Some "ext")
     quiet_window quiet_window init).1 =
    Analysed (mkAnalysis "ext" (Some "Demo") 0 0 [] [] [] healthy no_steps).
Proof.
  exact (analysis_hides_failed_capture refusing no_probe_values no_details "ext"
           quiet_window quiet_window init (mkExtInfo "Demo" EmptyString)
           "Failed to attach debugger: Cannot access a chrome:// URL"
           eq_refl eq_refl eq_refl).
Defined.


End Doctor.
